(** * Real-time subscription and price-aggregation core of the DLMM dashboard

    A shallow embedding of
    - [RateLimiter] and [validatePrice]   (src/utils/walletSecurity.ts),
    - [WebSocketService]                  (src/services/websocketService.ts),
    - [PriceService]                      (second half of the same file),
    - [TokenService.getTokenPrices]       (src/services/tokenService.ts),
    together with the properties the specification states about them.

    Conventions.  Millisecond timestamps, counters and delays are [Z].
    A JavaScript [Map] whose iteration order is observed is an
    insertion-ordered association list; one that is only looked up is a
    [gmap].  Everything outside the repository (the clock, the ledger RPC,
    the Pyth client, the HTTP endpoint) is an explicit argument that says
    what the call answered, and a thrown exception is the [Throw]
    constructor of [outcome]. *)

From stdpp Require Import base numbers option list gmap strings.
From Stdlib Require Import ZArith QArith Lia.

Open Scope Z_scope.

(** ** JavaScript values used by the services *)

(** A JavaScript [number]: a finite value, kept as an exact rational
    (rounding to binary64 is not modelled; nothing below depends on it),
    or one of the three non-finite values. *)
Inductive number : Type :=
  | Num (q : Q)
  | NaN
  | Infinity
  | NegInfinity.

(** [Number.isFinite]. *)
Definition isFinite (n : number) : bool :=
  match n with Num _ => true | _ => false end.

(** [n < 0] on numbers. *)
Definition lt0 (n : number) : bool :=
  match n with
  | Num q => Qnum q <? 0
  | NegInfinity => true
  | _ => false
  end.

(** Truthiness of a number: everything except [0] and [NaN]. *)
Definition truthy (n : number) : bool :=
  match n with
  | Num q => negb (Qnum q =? 0)
  | NaN => false
  | _ => true
  end.

(** Result of a computation that may throw. *)
Inductive outcome (A : Type) : Type :=
  | Ret (a : A)
  | Throw (msg : string).
Arguments Ret {A} a.
Arguments Throw {A} msg.

(** ** RateLimiter (walletSecurity.ts) *)

Module RateLimiter.

Record t : Type := mk {
  calls : list Z;
  maxCalls : Z;
  timeWindow : Z
}.

(** [new RateLimiter(maxCalls, timeWindowMs)]. *)
Definition new (maxCalls timeWindowMs : Z) : t :=
  {| calls := []; maxCalls := maxCalls; timeWindow := timeWindowMs |}.

(** [apiRateLimiter = new RateLimiter(100, 60000)]. *)
Definition apiRateLimiter : t := new 100 60000.

(** [this.calls.filter(callTime => now - callTime < this.timeWindow)]. *)
Definition prune (now : Z) (rl : t) : list Z :=
  filter (λ callTime, now - callTime < timeWindow rl) (calls rl).

(** [canMakeCall()], with [Date.now()] given as [now]. *)
Definition canMakeCall (now : Z) (rl : t) : bool * t :=
  let kept := prune now rl in
  if Z.of_nat (length kept) <? maxCalls rl
  then (true, {| calls := kept ++ [now];
                 maxCalls := maxCalls rl; timeWindow := timeWindow rl |})
  else (false, {| calls := kept;
                  maxCalls := maxCalls rl; timeWindow := timeWindow rl |}).

(** [getRemainingCalls()]. *)
Definition getRemainingCalls (now : Z) (rl : t) : Z * t :=
  let kept := prune now rl in
  (Z.max 0 (maxCalls rl - Z.of_nat (length kept)),
   {| calls := kept; maxCalls := maxCalls rl; timeWindow := timeWindow rl |}).

(** [getResetTime()]. *)
Definition getResetTime (rl : t) : Z :=
  match calls rl with
  | [] => 0
  | oldest :: _ => oldest + timeWindow rl
  end.

(** A sequence of [canMakeCall()] invocations, one per clock reading;
    every reading is returned with the answer it got. *)
Fixpoint run (times : list Z) (rl : t) : list (Z * bool) * t :=
  match times with
  | [] => ([], rl)
  | now :: rest =>
      let '(ok, rl1) := canMakeCall now rl in
      let '(res, rl2) := run rest rl1 in
      ((now, ok) :: res, rl2)
  end.

(** Timestamps of the invocations that answered [true]. *)
Definition granted (res : list (Z * bool)) : list Z :=
  fst <$> filter (λ r, snd r = true) res.

(** Successive clock readings do not go backwards, starting at [lo]. *)
Fixpoint clock_from (lo : Z) (times : list Z) : Prop :=
  match times with
  | [] => True
  | now :: rest => lo <= now /\ clock_from now rest
  end.

Definition monotone_clock (times : list Z) : Prop :=
  match times with
  | [] => True
  | now :: rest => clock_from now rest
  end.

(** The granted timestamps inside the trailing window that ends at [T]:
    those with [T - w < t <= T]. *)
Definition in_window (w T : Z) (ts : list Z) : list Z :=
  filter (λ t, T - t < w ∧ t <= T) ts.

(** What the limiter's state knows about the calls granted so far,
    [lo] being the latest clock reading: the calls it retains are the
    granted ones still inside the window of any later reading. *)
Definition inv (maxC w : Z) (adm : list Z) (rl : t) (lo : Z) : Prop :=
  maxCalls rl = maxC ∧ timeWindow rl = w ∧
  Forall (λ t, t <= lo) adm ∧
  (∀ now, lo <= now →
     filter (λ t, now - t < w) (calls rl) = filter (λ t, now - t < w) adm) ∧
  Z.of_nat (length (calls rl)) <= maxC ∧
  (∀ T, Z.of_nat (length (in_window w T adm)) <= maxC).

End RateLimiter.

(** ** Insertion-ordered maps

    A JavaScript [Map] iterates in insertion order, and [set] on a key that
    is already present keeps the key's position. *)

Module OMap.

Fixpoint set {V} (k : string) (v : V) (m : list (string * V)) : list (string * V) :=
  match m with
  | [] => [(k, v)]
  | (k', v') :: rest =>
      if decide (k' = k) then (k, v) :: rest else (k', v') :: set k v rest
  end.

Fixpoint get {V} (k : string) (m : list (string * V)) : option V :=
  match m with
  | [] => None
  | (k', v') :: rest => if decide (k' = k) then Some v' else get k rest
  end.

Definition delete {V} (k : string) (m : list (string * V)) : list (string * V) :=
  filter (λ kv, fst kv ≠ k) m.

Definition keys {V} (m : list (string * V)) : list string := fst <$> m.
Definition values {V} (m : list (string * V)) : list V := snd <$> m.

End OMap.

(** ** WebSocketService (websocketService.ts) *)

Module WebSocketService.

Inductive event : Type :=
  | connected
  | disconnected
  | reconnected
  | reconnection_failed.

#[global] Instance event_eq_dec : EqDecision event.
Proof. solve_decision. Defined.

(** The callbacks handed to [subscribeToAccount]: the caller's own, or the
    wrapper closures built by [subscribeToWallet] and
    [subscribeToPositions] around the caller's callback. *)
Inductive callback : Type :=
  | AccountCallback (cb : nat)
  | WalletCallback (onWalletUpdate : nat)
  | PositionCallback (positionAccount : string) (onPositionUpdate : nat).

(** The ledger connection as the service sees it: the account-change
    listeners that are registered upstream (subscription id and address),
    the next id it hands out, and a log of the calls it received. *)
Record Connection : Type := mkConnection {
  listeners : list (Z * string);
  nextId : Z;
  requested : list string;
  removed : list Z
}.

(** [connection.onAccountChange(publicKey, ...)]; [ok] says whether the
    call resolves or rejects. *)
Definition onAccountChange (ok : bool) (publicKey : string) (c : Connection)
    : outcome Z * Connection :=
  if ok
  then (Ret (nextId c),
        {| listeners := listeners c ++ [(nextId c, publicKey)];
           nextId := nextId c + 1;
           requested := requested c ++ [publicKey];
           removed := removed c |})
  else (Throw "onAccountChange rejected",
        {| listeners := listeners c;
           nextId := nextId c;
           requested := requested c ++ [publicKey];
           removed := removed c |}).

(** [connection.removeAccountChangeListener(subscriptionId)]. *)
Definition removeAccountChangeListener (subscriptionId : Z) (c : Connection)
    : Connection :=
  {| listeners := filter (λ l, fst l ≠ subscriptionId) (listeners c);
     nextId := nextId c;
     requested := requested c;
     removed := removed c ++ [subscriptionId] |}.

(** An entry of the registry.  Its [unsubscribe] closure captures
    [subscriptionId] and [publicKey], which are the fields [id] and
    [publicKey]; see [unsubscribe]. *)
Record AccountSubscription : Type := mkSub {
  id : Z;
  publicKey : string;
  cb : callback
}.

(** The cancellation handle returned by [subscribeToAccount]: the closure
    over [subscriptionId] and [publicKey]. *)
Definition handle : Type := Z * string.

Record t : Type := mk {
  connection : Connection;
  subscriptions : list (string * AccountSubscription);
  isConnected : bool;
  reconnectAttempts : Z;
  maxReconnectAttempts : Z;
  reconnectDelay : Z;
  emitted : list event;          (* every [this.emit], oldest first *)
  timers : list Z                (* delays of the pending [setTimeout]s *)
}.

Definition with_connection (c : Connection) (s : t) : t :=
  mk c (subscriptions s) (isConnected s) (reconnectAttempts s)
     (maxReconnectAttempts s) (reconnectDelay s) (emitted s) (timers s).
Definition with_subscriptions (m : list (string * AccountSubscription)) (s : t) : t :=
  mk (connection s) m (isConnected s) (reconnectAttempts s)
     (maxReconnectAttempts s) (reconnectDelay s) (emitted s) (timers s).
Definition with_isConnected (b : bool) (s : t) : t :=
  mk (connection s) (subscriptions s) b (reconnectAttempts s)
     (maxReconnectAttempts s) (reconnectDelay s) (emitted s) (timers s).
Definition with_reconnectAttempts (n : Z) (s : t) : t :=
  mk (connection s) (subscriptions s) (isConnected s) n
     (maxReconnectAttempts s) (reconnectDelay s) (emitted s) (timers s).
Definition emit (e : event) (s : t) : t :=
  mk (connection s) (subscriptions s) (isConnected s) (reconnectAttempts s)
     (maxReconnectAttempts s) (reconnectDelay s) (emitted s ++ [e]) (timers s).
Definition with_timers (ts : list Z) (s : t) : t :=
  mk (connection s) (subscriptions s) (isConnected s) (reconnectAttempts s)
     (maxReconnectAttempts s) (reconnectDelay s) (emitted s) ts.

Definition freshConnection : Connection :=
  {| listeners := []; nextId := 0; requested := []; removed := [] |}.

(** [new WebSocketService(connection)] with the field initialisers. *)
Definition new (c : Connection) : t :=
  {| connection := c; subscriptions := []; isConnected := false;
     reconnectAttempts := 0; maxReconnectAttempts := 5;
     reconnectDelay := 1000; emitted := []; timers := [] |}.

(** [subscribeToAccount(publicKey, callback)]. *)
Definition subscribeToAccount (ok : bool) (pk : string) (f : callback) (s : t)
    : outcome handle * t :=
  match onAccountChange ok pk (connection s) with
  | (Ret subscriptionId, c) =>
      let subscription := {| id := subscriptionId; publicKey := pk; cb := f |} in
      (Ret (subscriptionId, pk),
       with_subscriptions (OMap.set pk subscription (subscriptions s))
         (with_connection c s))
  | (Throw e, c) => (Throw e, with_connection c s)
  end.

(** The [unsubscribe] closure of [subscribeToAccount]. *)
Definition unsubscribe (h : handle) (s : t) : t :=
  with_subscriptions (OMap.delete (snd h) (subscriptions s))
    (with_connection (removeAccountChangeListener (fst h) (connection s)) s).

(** [subscribeToWallet(walletPublicKey, onWalletUpdate)]. *)
Definition subscribeToWallet (ok : bool) (walletPublicKey : string)
    (onWalletUpdate : nat) (s : t) : outcome handle * t :=
  subscribeToAccount ok walletPublicKey (WalletCallback onWalletUpdate) s.

(** [subscribeToPositions(positionAccounts, onPositionUpdate)]: a failed
    account is logged and skipped; the result is the list of collected
    cancellation handles. *)
Fixpoint subscribeToPositions (up : string → bool) (positionAccounts : list string)
    (onPositionUpdate : nat) (s : t) : list handle * t :=
  match positionAccounts with
  | [] => ([], s)
  | positionAccount :: rest =>
      match subscribeToAccount (up positionAccount) positionAccount
              (PositionCallback positionAccount onPositionUpdate) s with
      | (Ret h, s1) =>
          let '(hs, s2) := subscribeToPositions up rest onPositionUpdate s1 in
          (h :: hs, s2)
      | (Throw _, s1) => subscribeToPositions up rest onPositionUpdate s1
      end
  end.

(** [handleReconnection()] up to the [setTimeout]: the timer body is
    [onReconnectTimer]. *)
Definition handleReconnection (s : t) : t :=
  if maxReconnectAttempts s <=? reconnectAttempts s
  then emit reconnection_failed s
  else
    let attempts := reconnectAttempts s + 1 in
    let delay := reconnectDelay s * 2 ^ (attempts - 1) in
    with_timers (timers s ++ [delay]) (with_reconnectAttempts attempts s).

(** The loop [for (const sub of subscriptionsToRestore) await
    this.subscribeToAccount(sub.publicKey, sub.callback)]; it stops at the
    first call that throws. *)
Fixpoint restore (up : string → bool) (subs : list AccountSubscription) (s : t)
    : outcome unit * t :=
  match subs with
  | [] => (Ret (), s)
  | sub :: rest =>
      match subscribeToAccount (up (publicKey sub)) (publicKey sub) (cb sub) s with
      | (Ret _, s1) => restore up rest s1
      | (Throw e, s1) => (Throw e, s1)
      end
  end.

(** The body of the timer set by [handleReconnection]. *)
Definition onReconnectTimer (up : string → bool) (s : t) : t :=
  let subscriptionsToRestore := OMap.values (subscriptions s) in
  let s1 := with_subscriptions [] s in
  match restore up subscriptionsToRestore s1 with
  | (Ret _, s2) => emit reconnected s2
  | (Throw _, s2) => handleReconnection s2
  end.

(** The [i]-th pending timer expires. *)
Definition fireTimer (i : nat) (up : string → bool) (s : t) : t :=
  match timers s !! i with
  | Some _ => onReconnectTimer up (with_timers (base.delete i (timers s)) s)
  | None => s
  end.

(** One tick of the health check of [setupConnectionMonitoring];
    [probe] says whether [connection.getSlot()] resolved. *)
Definition monitorTick (probe : bool) (s : t) : t :=
  if probe
  then
    if negb (isConnected s)
    then emit connected (with_reconnectAttempts 0 (with_isConnected true s))
    else s
  else
    if isConnected s
    then handleReconnection (emit disconnected (with_isConnected false s))
    else s.

(** [unsubscribeAll()]. *)
Definition unsubscribeAll (s : t) : t :=
  with_subscriptions []
    (foldl (λ acc sub, unsubscribe (id sub, publicKey sub) acc) s
       (OMap.values (subscriptions s))).

(** [getConnectionStatus()]. *)
Definition getConnectionStatus (s : t) : bool * Z * Z :=
  (isConnected s, Z.of_nat (length (subscriptions s)), reconnectAttempts s).

(** What can happen to a live service. *)
Inductive action : Type :=
  | Probe (ok : bool)
  | Timer (i : nat) (up : string → bool)
  | Subscribe (ok : bool) (pk : string) (f : callback)
  | Unsubscribe (h : handle)
  | UnsubscribeAll.

Definition step (a : action) (s : t) : t :=
  match a with
  | Probe ok => monitorTick ok s
  | Timer i up => fireTimer i up s
  | Subscribe ok pk f => snd (subscribeToAccount ok pk f s)
  | Unsubscribe h => unsubscribe h s
  | UnsubscribeAll => unsubscribeAll s
  end.

Definition exec (actions : list action) (s : t) : t :=
  foldl (λ acc a, step a acc) s actions.

Definition reachable (s : t) : Prop :=
  ∃ actions, s = exec actions (new freshConnection).

(** Expire the oldest pending timer once per element of [ups], which
    says what the connection answers during that cycle, until no timer is
    left; returns the delays that were waited for. *)
Fixpoint drain (ups : list (string → bool)) (s : t) : list Z * t :=
  match ups with
  | [] => ([], s)
  | up :: ups' =>
      match timers s with
      | [] => ([], s)
      | delay :: _ =>
          let '(ds, s') := drain ups' (fireTimer 0 up s) in
          (delay :: ds, s')
      end
  end.

Definition occurrences (e : event) (l : list event) : nat :=
  length (filter (λ x, x = e) l).

(** The addresses that have a listener registered upstream. *)
Definition live (pk : string) (c : Connection) : list Z :=
  fst <$> filter (λ l, snd l = pk) (listeners c).

(** *** Scenarios *)

Definition wallet : string := "Wa11et".
Definition position1 : string := "Pos1".
Definition position2 : string := "Pos2".

(** A connected session with a wallet subscription and two position
    subscriptions. *)
Definition session : t :=
  let s0 := monitorTick true (new freshConnection) in
  let s1 := snd (subscribeToWallet true wallet 0 s0) in
  snd (subscribeToPositions (λ _, true) [position1; position2] 1 s1).

(** The health check fails once. *)
Definition after_probe_failure : t := monitorTick false session.

(** The backoff timer expires and every re-subscription goes through. *)
Definition after_recovery : t := fireTimer 0 (λ _, true) after_probe_failure.

(** The connection never comes back: every [onAccountChange] rejects. *)
Definition never_recovers : list Z * t :=
  drain (replicate 10 (λ _, false)) after_probe_failure.

(** A session with five position subscriptions in which every cycle
    fails: cycle [k] re-establishes the first [5 - k] accounts and is
    rejected on the next one. *)
Definition accounts5 : list string := ["A1"; "A2"; "A3"; "A4"; "A5"].

Definition fails_on (pk : string) : string → bool :=
  λ k, if decide (k = pk) then false else true.

Definition every_cycle_fails : list Z * t :=
  let s0 := monitorTick true (new freshConnection) in
  let s1 := snd (subscribeToPositions (λ _, true) accounts5 1 s0) in
  drain ((fails_on <$> reverse accounts5) ++ replicate 5 (λ _, false))
    (monitorTick false s1).


(** *** Invariants of a live service *)

(** Every registry entry is stored under the address it subscribes to. *)
Definition keys_match (s : t) : Prop :=
  Forall (λ entry, publicKey (snd entry) = fst entry) (subscriptions s).

(** The retry bookkeeping with the field initialisers: the counter stays
    within the attempt budget and every pending delay is one of the five
    steps of the schedule. *)
Definition backoff_inv (s : t) : Prop :=
  maxReconnectAttempts s = 5 ∧ reconnectDelay s = 1000 ∧
  0 <= reconnectAttempts s <= 5 ∧
  Forall (λ delay, 1000 <= delay <= 16000) (timers s).

(** The ids of the registered subscriptions. *)
Definition registeredIds (s : t) : list Z := id <$> OMap.values (subscriptions s).


(** Every id in the registry or in the listener table has been handed out
    by the connection. *)
Definition ids_issued (s : t) : Prop :=
  Forall (λ i, i < nextId (connection s)) (registeredIds s) ∧
  Forall (λ l, fst l < nextId (connection s)) (listeners (connection s)).

End WebSocketService.

(** ** validatePrice (walletSecurity.ts) *)

Module WalletSecurity.

(** A value of type [unknown], as far as [typeof] tells them apart. *)
Inductive jsvalue : Type :=
  | JNumber (n : number)
  | JString (s : string)
  | JBoolean (b : bool)
  | JUndefined
  | JNull
  | JObject.

(** [validatePrice(price)]. *)
Definition validatePrice (price : jsvalue) : outcome number :=
  match price with
  | JNumber n =>
      if negb (isFinite n) then Throw "Price must be finite"
      else if lt0 n then Throw "Price cannot be negative"
      else Ret n
  | _ => Throw "Price must be a number"
  end.

End WalletSecurity.

(** ** The Jupiter price endpoint, as both services read it *)

Module Jupiter.

(** One [data.data[mint]] object; [price] is the number that
    [parseFloat(priceData.price)] yields on it, [NaN] when the field does
    not start with a decimal literal. *)
Record item : Type := mkItem { price : number }.

(** What [fetch(...)] followed by [response.json()] (or [fetchJSON])
    comes to: [Failed] when any of it throws (network error, HTTP error,
    timeout, a body that is not JSON or is [null]), else the body's [data]
    field, [None] when the body has none.  A mint whose entry is missing
    or [null] is absent from the map. *)
Inductive response : Type :=
  | Failed
  | Json (data : option (gmap string item)).

(** [data.data?.[mint]]. *)
Definition lookup (data : option (gmap string item)) (mint : string) : option item :=
  data ≫= (λ d, d !! mint).

End Jupiter.

(** ** PriceService (second half of websocketService.ts) *)

Module PriceService.

Inductive source : Type := jupiter | pyth | fallback.

Record PriceData : Type := mkPriceData {
  mint : string;
  symbol : string;
  price : number;
  priceChange24h : number;
  volume24h : number;
  marketCap : number;
  confidence : number;
  lastUpdated : Z;
  src : source
}.

Record PriceSubscription : Type := mkSubscription {
  sub_object : Z;        (* identity of the [subscription] object *)
  sub_mint : string;
  sub_callback : nat;
  sub_interval : Z
}.

(** The calls that leave the service. *)
Inductive query : Type :=
  | PythGetData
  | JupiterFetch (ids : list string).

(** A product price of the Pyth client; both fields may be undefined. *)
Record PythPrice : Type := mkPyth {
  pyth_price : option number;
  pyth_confidence : option number
}.

(** What the outside answers during one operation: the clock reading of
    the cache check (the checks of one [getPrices] loop run without
    suspension and share one reading), the outcome of
    [pythClient.getData()] (product prices by symbol) and of the Jupiter
    request for a list of ids, and the clock readings [new Date()] at
    which a Pyth or Jupiter entry is built. *)
Record world : Type := mkWorld {
  now : Z;
  pythData : outcome (gmap string PythPrice);
  pythTime : Z;
  jupiterResponse : list string → Jupiter.response;
  jupiterTime : Z
}.

Record t : Type := mk {
  pythClient : bool;             (* [pythClient !== null] *)
  isInitialized : bool;
  priceCache : gmap string PriceData;
  subscriptions : gmap string (list PriceSubscription);
  updateIntervals : gmap string Z;
  cacheExpiry : Z;
  running : list (Z * string);   (* interval timers set and not cleared *)
  nextTimer : Z;
  nextObject : Z;
  queries : list query           (* every upstream call, oldest first *)
}.

Definition with_priceCache (c : gmap string PriceData) (s : t) : t :=
  mk (pythClient s) (isInitialized s) c (subscriptions s) (updateIntervals s)
     (cacheExpiry s) (running s) (nextTimer s) (nextObject s) (queries s).
Definition log (q : query) (s : t) : t :=
  mk (pythClient s) (isInitialized s) (priceCache s) (subscriptions s)
     (updateIntervals s) (cacheExpiry s) (running s) (nextTimer s)
     (nextObject s) (queries s ++ [q]).

(** [new PriceService(connection)] once [initializePythConnection] has
    run; [pythOk] says whether the Pyth client could be built.  Timer ids
    are positive, as [setInterval] hands them out. *)
Definition new (pythOk : bool) : t :=
  {| pythClient := pythOk; isInitialized := pythOk; priceCache := ∅;
     subscriptions := ∅; updateIntervals := ∅; cacheExpiry := 30 * 1000;
     running := []; nextTimer := 1; nextObject := 0; queries := [] |}.

(** [TOKEN_PYTH_MAPPING[mint]]: symbol and Pyth feed id. *)
Definition TOKEN_PYTH_MAPPING (mint : string) : option (string * string) :=
  if decide (mint = "So11111111111111111111111111111111111111112") then
    Some ("SOL", "0xef0d8b6fda2ceba41da15d4095d1da392a0d2f8ed0c6c7bc0f4cfac8c280b56d")
  else if decide (mint = "EPjFWdd5AufqSSqeM2qN1xzybapC8G4wEGGkZwyTDt1v") then
    Some ("USDC", "0xeaa020c61cc479712813461ce153894a96a6c00b21ed0cfc2798d1f9a9e9c94a")
  else if decide (mint = "Es9vMFrzaCERmJfrF4H2FYD4KCoNkY11McCe8BenwNYB") then
    Some ("USDT", "0x2b89b9dc8fdf9f34709a5b106b472f0f39bb6ca9ce04b0fd7f2e971688e2e53b")
  else if decide (mint = "9n4nbM75f5Ui33ZbPYXn59EwSgE8CGsHtAeTH5YFeJ9E") then
    Some ("WBTC", "0xe62df6c8b4c85fe1a67db44dc12de5db330f7ac66b72dc658afedf0f4a415b43")
  else if decide (mint = "2FPyTwcZLUg1MDrwsyoP4D6s1tM7hAkHYRjkNb5w6Pxk") then
    Some ("WETH", "0xff61491a931112ddf1bd8147cd1b641375f79f5825126d665480874634fd0ace")
  else None.

(** [TOKEN_PYTH_MAPPING[mint]?.symbol || 'UNKNOWN']. *)
Definition symbolOf (mint : string) : string :=
  match TOKEN_PYTH_MAPPING mint with
  | Some (sym, _) => sym
  | None => "UNKNOWN"
  end.

(** [cached && Date.now() - cached.lastUpdated.getTime() < expiry]. *)
Definition fresh (now expiry : Z) (cached : option PriceData) : option PriceData :=
  match cached with
  | Some c => if now - lastUpdated c <? expiry then Some c else None
  | None => None
  end.

(** [try { body } catch (error) { return null }]. *)
Definition try_or_null {A} (body : outcome (option A)) : outcome (option A) :=
  match body with
  | Ret a => Ret a
  | Throw _ => Ret None
  end.

(** [getPythPrice(mint)]. *)
Definition getPythPrice (w : world) (mint : string) (s : t)
    : outcome (option PriceData) * t :=
  if negb (pythClient s) || negb (isInitialized s) then (Ret None, s)
  else
    match TOKEN_PYTH_MAPPING mint with
    | None => (Ret None, s)
    | Some (sym, _) =>
        (try_or_null
           match pythData w with
           | Throw e => Throw e
           | Ret data =>
               match data !! sym with
               | None => Ret None
               | Some priceData =>
                   match pyth_price priceData with
                   | None => Ret None
                   | Some p =>
                       if negb (truthy p) then Ret None
                       else Ret (Some
                         {| mint := mint; symbol := sym; price := p;
                            priceChange24h := Num 0; volume24h := Num 0;
                            marketCap := Num 0;
                            confidence :=
                              match pyth_confidence priceData with
                              | Some c => if truthy c then c else Num 0
                              | None => Num 0
                              end;
                            lastUpdated := pythTime w; src := pyth |})
                   end
               end
           end,
         log PythGetData s)
    end.

(** The entry both Jupiter readers build from [data.data[mint]]. *)
Definition jupiterEntry (w : world) (mint : string) (priceData : Jupiter.item)
    : PriceData :=
  {| mint := mint; symbol := symbolOf mint; price := Jupiter.price priceData;
     priceChange24h := Num 0; volume24h := Num 0; marketCap := Num 0;
     confidence := Num 1; lastUpdated := jupiterTime w; src := jupiter |}.

(** [getJupiterPrice(mint)]. *)
Definition getJupiterPrice (w : world) (mint : string) (s : t)
    : outcome (option PriceData) * t :=
  (try_or_null
     match jupiterResponse w [mint] with
     | Jupiter.Failed => Throw "fetch failed"
     | Jupiter.Json data =>
         match Jupiter.lookup data mint with
         | None => Ret None
         | Some priceData => Ret (Some (jupiterEntry w mint priceData))
         end
     end,
   log (JupiterFetch [mint]) s).

(** [getPrice(mint)]. *)
Definition getPrice (w : world) (mint : string) (s : t)
    : outcome (option PriceData) * t :=
  match fresh (now w) (cacheExpiry s) (priceCache s !! mint) with
  | Some cached => (Ret (Some cached), s)
  | None =>
      match getPythPrice w mint s with
      | (Throw e, s1) => (Throw e, s1)
      | (Ret (Some pythPrice), s1) =>
          (Ret (Some pythPrice),
           with_priceCache (<[mint := pythPrice]> (priceCache s1)) s1)
      | (Ret None, s1) =>
          match getJupiterPrice w mint s1 with
          | (Throw e, s2) => (Throw e, s2)
          | (Ret (Some jupiterPrice), s2) =>
              (Ret (Some jupiterPrice),
               with_priceCache (<[mint := jupiterPrice]> (priceCache s2)) s2)
          | (Ret None, s2) => (Ret None, s2)
          end
      end
  end.

(** The loop of [getJupiterPrices] over [mints]. *)
Fixpoint collect (w : world) (data : option (gmap string Jupiter.item))
    (mints : list string) (prices : list (string * PriceData))
    : list (string * PriceData) :=
  match mints with
  | [] => prices
  | mint :: rest =>
      match Jupiter.lookup data mint with
      | Some priceData =>
          collect w data rest (OMap.set mint (jupiterEntry w mint priceData) prices)
      | None => collect w data rest prices
      end
  end.

(** [getJupiterPrices(mints)]: one request for all the ids; a failure is
    logged and leaves the result empty. *)
Definition getJupiterPrices (w : world) (mints : list string) (s : t)
    : outcome (list (string * PriceData)) * t :=
  (match jupiterResponse w mints with
   | Jupiter.Failed => Ret []
   | Jupiter.Json data => Ret (collect w data mints [])
   end,
   log (JupiterFetch mints) s).

(** The first loop of [getPrices]: fresh entries go to [prices], the
    other ids to [uncachedMints]. *)
Fixpoint checkCache (now expiry : Z) (cache : gmap string PriceData)
    (mints : list string) (prices : gmap string PriceData)
    (uncachedMints : list string) : gmap string PriceData * list string :=
  match mints with
  | [] => (prices, uncachedMints)
  | mint :: rest =>
      match fresh now expiry (cache !! mint) with
      | Some cached =>
          checkCache now expiry cache rest (<[mint := cached]> prices) uncachedMints
      | None =>
          checkCache now expiry cache rest prices (uncachedMints ++ [mint])
      end
  end.

(** The last loop of [getPrices]: every fetched entry goes to the result
    and to the cache. *)
Definition merge (jupiterPrices : list (string * PriceData))
    (prices cache : gmap string PriceData)
    : gmap string PriceData * gmap string PriceData :=
  foldl (λ acc kv, (<[fst kv := snd kv]> (fst acc), <[fst kv := snd kv]> (snd acc)))
        (prices, cache) jupiterPrices.

(** [getPrices(mints)]. *)
Definition getPrices (w : world) (mints : list string) (s : t)
    : outcome (gmap string PriceData) * t :=
  let '(prices, uncachedMints) :=
    checkCache (now w) (cacheExpiry s) (priceCache s) mints ∅ [] in
  match uncachedMints with
  | [] => (Ret prices, s)
  | _ :: _ =>
      match getJupiterPrices w uncachedMints s with
      | (Throw e, s1) => (Throw e, s1)
      | (Ret jupiterPrices, s1) =>
          let '(prices', cache') := merge jupiterPrices prices (priceCache s1) in
          (Ret prices', with_priceCache cache' s1)
      end
  end.

(** *** Push-style subscriptions *)

(** [subs.indexOf(subscription)]: objects are compared by identity. *)
Fixpoint indexOf (subscription : PriceSubscription) (subs : list PriceSubscription)
    : option nat :=
  match subs with
  | [] => None
  | x :: rest =>
      if decide (sub_object x = sub_object subscription) then Some O
      else S <$> indexOf subscription rest
  end.

(** [subscribe(mint, callback, interval)]; the result is the
    [subscription] object its closure captures, see [unsubscribe]. *)
Definition subscribe (mint : string) (callback : nat) (interval : Z) (s : t)
    : PriceSubscription * t :=
  let subscription :=
    {| sub_object := nextObject s; sub_mint := mint;
       sub_callback := callback; sub_interval := interval |} in
  let subs0 :=
    match subscriptions s !! mint with
    | None => <[mint := []]> (subscriptions s)
    | Some _ => subscriptions s
    end in
  let subs1 := alter (λ subs, subs ++ [subscription]) mint subs0 in
  match updateIntervals s !! mint with
  | None =>
      let intervalId := nextTimer s in
      (subscription,
       mk (pythClient s) (isInitialized s) (priceCache s) subs1
          (<[mint := intervalId]> (updateIntervals s)) (cacheExpiry s)
          (running s ++ [(intervalId, mint)]) (nextTimer s + 1)
          (nextObject s + 1) (queries s))
  | Some _ =>
      (subscription,
       mk (pythClient s) (isInitialized s) (priceCache s) subs1
          (updateIntervals s) (cacheExpiry s) (running s) (nextTimer s)
          (nextObject s + 1) (queries s))
  end.

(** [clearInterval(intervalId)]. *)
Definition clearInterval (intervalId : Z) (timers : list (Z * string))
    : list (Z * string) :=
  filter (λ tm, fst tm ≠ intervalId) timers.

(** The closure returned by [subscribe]. *)
Definition unsubscribe (subscription : PriceSubscription) (s : t) : t :=
  let mint := sub_mint subscription in
  let subs := default [] (subscriptions s !! mint) in
  let '(subs', registry) :=
    match indexOf subscription subs with
    | Some index =>
        (base.delete index subs,
         alter (λ _, base.delete index subs) mint (subscriptions s))
    | None => (subs, subscriptions s)
    end in
  if decide (length subs' = O) then
    let '(intervals, timers) :=
      match updateIntervals s !! mint with
      | Some intervalId =>
          if decide (intervalId = 0) then (updateIntervals s, running s)
          else (base.delete mint (updateIntervals s),
                clearInterval intervalId (running s))
      | None => (updateIntervals s, running s)
      end in
    mk (pythClient s) (isInitialized s) (priceCache s)
       (base.delete mint registry) intervals (cacheExpiry s) timers
       (nextTimer s) (nextObject s) (queries s)
  else
    mk (pythClient s) (isInitialized s) (priceCache s) registry
       (updateIntervals s) (cacheExpiry s) (running s)
       (nextTimer s) (nextObject s) (queries s).

(** One run of the interval callback set by [subscribe] for [mint]:
    returns the callbacks it invoked, with the price they were given. *)
Definition tick (w : world) (mint : string) (s : t)
    : outcome (list (nat * PriceData)) * t :=
  match getPrice w mint s with
  | (Throw e, s1) => (Throw e, s1)
  | (Ret None, s1) => (Ret [], s1)
  | (Ret (Some price), s1) =>
      let subs := default [] (subscriptions s1 !! mint) in
      (Ret ((λ sub, (sub_callback sub, price)) <$> subs), s1)
  end.

(** [destroy()]. *)
Definition destroy (s : t) : t :=
  let timers :=
    foldr (λ entry acc, clearInterval (snd entry) acc)
          (running s) (map_to_list (updateIntervals s)) in
  mk false (isInitialized s) ∅ ∅ ∅ (cacheExpiry s) timers
     (nextTimer s) (nextObject s) (queries s).

(** [getCacheStats().activeIntervals] counts the map; the timers that
    really run for [mint] are these. *)
Definition timersFor (mint : string) (s : t) : list Z :=
  fst <$> filter (λ tm, snd tm = mint) (running s).

Definition subscribersOf (mint : string) (s : t) : list PriceSubscription :=
  default [] (subscriptions s !! mint).

(** What can happen to a live price service.  A tick happens only for a
    mint whose timer runs. *)
Inductive action : Type :=
  | GetPrice (w : world) (mint : string)
  | GetPrices (w : world) (mints : list string)
  | Subscribe (mint : string) (callback : nat) (interval : Z)
  | Unsubscribe (subscription : PriceSubscription)
  | Tick (w : world) (mint : string)
  | Destroy.

Definition step (a : action) (s : t) : t :=
  match a with
  | GetPrice w mint => snd (getPrice w mint s)
  | GetPrices w mints => snd (getPrices w mints s)
  | Subscribe mint callback interval => snd (subscribe mint callback interval s)
  | Unsubscribe subscription => unsubscribe subscription s
  | Tick w mint =>
      match timersFor mint s with
      | [] => s
      | _ :: _ => snd (tick w mint s)
      end
  | Destroy => destroy s
  end.

Definition exec (actions : list action) (s : t) : t :=
  foldl (λ acc a, step a acc) s actions.

Definition reachable (s : t) : Prop :=
  ∃ pythOk actions, s = exec actions (new pythOk).

(** The subscribers of its mint that are left once [subscription] has
    been spliced out (all of them when it is not among them). *)
Definition remaining (subscription : PriceSubscription) (s : t) : list PriceSubscription :=
  let subs := subscribersOf (sub_mint subscription) s in
  match indexOf subscription subs with
  | Some index => base.delete index subs
  | None => subs
  end.

(** The subscription bookkeeping is consistent: no registered list is
    empty, a mint has an entry in [updateIntervals] exactly when it has
    subscribers, the ids in [updateIntervals] are positive, already handed
    out and pairwise distinct, and the timers that run for a mint are
    exactly the one recorded for it. *)
Definition timer_inv (s : t) : Prop :=
  (∀ m subs, subscriptions s !! m = Some subs → subs ≠ []) ∧
  (∀ m, is_Some (updateIntervals s !! m) ↔ is_Some (subscriptions s !! m)) ∧
  (∀ m intervalId, updateIntervals s !! m = Some intervalId →
                   0 < intervalId < nextTimer s) ∧
  (∀ m m' intervalId, updateIntervals s !! m = Some intervalId →
                      updateIntervals s !! m' = Some intervalId → m = m') ∧
  (∀ m, timersFor m s =
          match updateIntervals s !! m with
          | Some intervalId => [intervalId]
          | None => []
          end) ∧
  0 < nextTimer s.

(** Two states with the same subscription bookkeeping. *)
Definition same_timers (s s' : t) : Prop :=
  subscriptions s' = subscriptions s ∧ updateIntervals s' = updateIntervals s ∧
  running s' = running s ∧ nextTimer s' = nextTimer s.

(** *** Scenarios *)

Definition SOL : string := "So11111111111111111111111111111111111111112".

(** The primary source times out and the secondary answers 150.25. *)
Definition pyth_down_jupiter_up (t0 : Z) : world :=
  {| now := t0;
     pythData := Throw "timeout";
     pythTime := t0;
     jupiterResponse := λ _, Jupiter.Json (Some {[ SOL := Jupiter.mkItem (Num (15025 # 100)) ]});
     jupiterTime := t0 + 200 |}.

(** The entry that answer leads to. *)
Definition sol_quote : PriceData :=
  {| mint := SOL; symbol := "SOL"; price := Num (15025 # 100);
     priceChange24h := Num 0; volume24h := Num 0; marketCap := Num 0;
     confidence := Num 1; lastUpdated := 1200; src := jupiter |}.

(** The service after [getPrice("SOL")] at time 1000 in that world. *)
Definition after_fallback : t :=
  snd (getPrice (pyth_down_jupiter_up 1000) SOL (new true)).

(** Both sources fail. *)
Definition all_down (t0 : Z) : world :=
  {| now := t0; pythData := Throw "timeout"; pythTime := t0;
     jupiterResponse := λ _, Jupiter.Failed; jupiterTime := t0 |}.

(** Jupiter quotes both SOL and USDC. *)
Definition USDC : string := "EPjFWdd5AufqSSqeM2qN1xzybapC8G4wEGGkZwyTDt1v".

Definition quotes_both (t0 : Z) : world :=
  {| now := t0; pythData := Throw "timeout"; pythTime := t0;
     jupiterResponse := λ _, Jupiter.Json (Some
       {[ SOL := Jupiter.mkItem (Num (15025 # 100));
          USDC := Jupiter.mkItem (Num 1) ]});
     jupiterTime := t0 |}.

(** A service without Pyth whose cache holds a USDC price taken at time 0. *)
Definition usdc_cached : t := snd (getPrice (quotes_both 0) USDC (new false)).

(** Jupiter answers with a price field that does not parse. *)
Definition jupiter_unparsable (t0 : Z) : world :=
  {| now := t0; pythData := Throw "timeout"; pythTime := t0;
     jupiterResponse := λ _, Jupiter.Json (Some {[ SOL := Jupiter.mkItem NaN ]});
     jupiterTime := t0 |}.


(** *** Statistics and invariants of the cache and the subscriber lists *)

Record CacheStats : Type := mkStats {
  cacheSize : nat;
  activeSubscriptions : nat;
  activeIntervals : nat;
  pythConnected : bool
}.

(** [getCacheStats()]; the sum does not depend on the order of
    [subscriptions.values()]. *)
Definition getCacheStats (s : t) : CacheStats :=
  {| cacheSize := size (priceCache s);
     activeSubscriptions :=
       foldl (λ sum subs, (sum + length subs)%nat) O
             (snd <$> map_to_list (subscriptions s));
     activeIntervals := size (updateIntervals s);
     pythConnected := isInitialized s |}.

(** An entry as the service builds them for [m]: it names [m] and its
    symbol, comes from Pyth or Jupiter, and carries no market data. *)
Definition describes (m : string) (e : PriceData) : Prop :=
  mint e = m ∧ symbol e = symbolOf m ∧ src e ≠ fallback ∧
  priceChange24h e = Num 0 ∧ volume24h e = Num 0 ∧ marketCap e = Num 0.

Definition cache_inv (s : t) : Prop :=
  ∀ m e, priceCache s !! m = Some e → describes m e.

(** The subscription objects of a mint are pairwise distinct and were
    handed out by this service. *)
Definition objects_inv (s : t) : Prop :=
  ∀ m subs, subscriptions s !! m = Some subs →
            NoDup (sub_object <$> subs) ∧
            Forall (λ x, sub_object x < nextObject s) subs.

(** Two subscribers of SOL, then the first leaves. *)
Definition two_then_one : t :=
  exec [Subscribe SOL 1 30000; Subscribe SOL 2 30000;
        Unsubscribe {| sub_object := 0; sub_mint := SOL;
                       sub_callback := 1; sub_interval := 30000 |}]
       (new true).


(** Both sources answer: Pyth quotes SOL at 151.10 with confidence 0.12,
    Jupiter at 150.25. *)
Definition sol_product : PythPrice :=
  {| pyth_price := Some (Num (15110 # 100));
     pyth_confidence := Some (Num (12 # 100)) |}.

Definition both_up (t0 : Z) : world :=
  {| now := t0;
     pythData := Ret {[ "SOL" := sol_product ]};
     pythTime := t0 + 80;
     jupiterResponse := λ _, Jupiter.Json (Some {[ SOL := Jupiter.mkItem (Num (15025 # 100)) ]});
     jupiterTime := t0 + 200 |}.

(** A mint without a Pyth feed. *)
Definition BONK : string := "DezXAZ8z7PnrnRJjz3wXBoRgixCa6xjnB7YaB1pPB263".

End PriceService.

(** ** TokenService.getTokenPrices (tokenService.ts) *)

Module TokenService.

Record TokenPrice : Type := mkTokenPrice {
  mint : string;
  price : number;
  priceChange24h : number;
  volume24h : number;
  marketCap : number;
  lastUpdated : Z
}.

Record t : Type := mk {
  priceCache : gmap string TokenPrice;
  cacheExpiry : Z
}.

(** The part of [new TokenService(connection)] that concerns prices. *)
Definition new : t := {| priceCache := ∅; cacheExpiry := 5 * 60 * 1000 |}.

(** What the outside answers during one [getTokenPrices]: the clock
    reading of the cache check, the outcome of [fetchJSON] for a list of
    ids (after its own retries and timeout), the reading at which fetched
    entries are built and the reading inside the [catch] block. *)
Record world : Type := mkWorld {
  now : Z;
  fetchJSON : list string → Jupiter.response;
  fetchTime : Z;
  catchTime : Z
}.

Definition fresh (now expiry : Z) (cached : option TokenPrice) : option TokenPrice :=
  match cached with
  | Some c => if now - lastUpdated c <? expiry then Some c else None
  | None => None
  end.

(** [mints.filter(...)] with its side effect on [prices]. *)
Fixpoint checkCache (now expiry : Z) (cache : gmap string TokenPrice)
    (mints : list string) (prices : gmap string TokenPrice)
    : gmap string TokenPrice * list string :=
  match mints with
  | [] => (prices, [])
  | mint :: rest =>
      match fresh now expiry (cache !! mint) with
      | Some cached =>
          checkCache now expiry cache rest (<[mint := cached]> prices)
      | None =>
          let '(prices', uncached) := checkCache now expiry cache rest prices in
          (prices', mint :: uncached)
      end
  end.

Definition tokenPrice (w : world) (mint : string) (priceData : Jupiter.item)
    : TokenPrice :=
  {| mint := mint; price := Jupiter.price priceData; priceChange24h := Num 0;
     volume24h := Num 0; marketCap := Num 0; lastUpdated := fetchTime w |}.

(** The loop over [uncachedMints] after the fetch. *)
Fixpoint store (w : world) (data : option (gmap string Jupiter.item))
    (uncachedMints : list string) (prices cache : gmap string TokenPrice)
    : gmap string TokenPrice * gmap string TokenPrice :=
  match uncachedMints with
  | [] => (prices, cache)
  | mint :: rest =>
      match Jupiter.lookup data mint with
      | Some priceData =>
          let tp := tokenPrice w mint priceData in
          store w data rest (<[mint := tp]> prices) (<[mint := tp]> cache)
      | None => store w data rest prices cache
      end
  end.

(** The loop of the [catch] block: entries younger than twice the
    expiry. *)
Fixpoint cachedPrices (now expiry : Z) (cache : gmap string TokenPrice)
    (mints : list string) (acc : gmap string TokenPrice)
    : gmap string TokenPrice :=
  match mints with
  | [] => acc
  | mint :: rest =>
      match fresh now (expiry * 2) (cache !! mint) with
      | Some cached => cachedPrices now expiry cache rest (<[mint := cached]> acc)
      | None => cachedPrices now expiry cache rest acc
      end
  end.

(** The [try] block of [getTokenPrices]. *)
Definition tryBlock (w : world) (mints : list string) (s : t)
    : outcome (gmap string TokenPrice) * t :=
  let '(prices, uncachedMints) :=
    checkCache (now w) (cacheExpiry s) (priceCache s) mints ∅ in
  match uncachedMints with
  | [] => (Ret prices, s)
  | _ :: _ =>
      match fetchJSON w uncachedMints with
      | Jupiter.Failed => (Throw "fetch failed", s)
      | Jupiter.Json data =>
          let '(prices', cache') :=
            store w data uncachedMints prices (priceCache s) in
          (Ret prices', {| priceCache := cache'; cacheExpiry := cacheExpiry s |})
      end
  end.

(** [getTokenPrices(mints)]. *)
Definition getTokenPrices (w : world) (mints : list string) (s : t)
    : outcome (gmap string TokenPrice) * t :=
  match tryBlock w mints s with
  | (Ret prices, s1) => (Ret prices, s1)
  | (Throw _, s1) =>
      (Ret (cachedPrices (catchTime w) (cacheExpiry s1) (priceCache s1) mints ∅), s1)
  end.

(** *** Scenario: a cached price, six minutes old, and a failing fetch *)

Definition USDC : string := "EPjFWdd5AufqSSqeM2qN1xzybapC8G4wEGGkZwyTDt1v".

Definition usdc_quote : TokenPrice :=
  {| mint := USDC; price := Num 1; priceChange24h := Num 0;
     volume24h := Num 0; marketCap := Num 0; lastUpdated := 0 |}.

Definition warm : t :=
  {| priceCache := {[ USDC := usdc_quote ]}; cacheExpiry := 5 * 60 * 1000 |}.

Definition fetch_down (t0 : Z) : world :=
  {| now := t0; fetchJSON := λ _, Jupiter.Failed;
     fetchTime := t0; catchTime := t0 + 10000 |}.

End TokenService.


(** ** fetchWithFallback and fetchJSON (after walletSecurity.ts) *)

Module Fetch.

(** What one [fetch(url, ...)] comes to: it rejects (a network error, or
    the abort signal that fires after [timeout] ms), or it resolves to a
    response with an HTTP status. *)
Inductive answer : Type :=
  | Rejected
  | Status (status : Z).

(** [response.ok]. *)
Definition ok (status : Z) : bool := (200 <=? status) && (status <=? 299).

(** [error.status && error.status >= 400 && error.status < 500]. *)
Definition clientError (status : Z) : bool :=
  negb (status =? 0) && (400 <=? status) && (status <? 500).

(** The three options the function reads, integers all. *)
Record FetchOptions : Type := mkOptions {
  timeout : Z;
  retries : Z;
  retryDelay : Z
}.

(** The defaults of the destructuring [{ timeout = 10000, retries = 3,
    retryDelay = 1000 }]. *)
Definition defaults : FetchOptions :=
  {| timeout := 10000; retries := 3; retryDelay := 1000 |}.

(** How a call ends: the response is returned, the [FetchError] of a 4xx
    response is rethrown, or the final [FetchError] ("Failed to fetch after
    N attempts") is thrown. *)
Inductive result : Type :=
  | Resolved (status : Z)
  | HttpError (status : Z)
  | GaveUp (attempts : Z).

(** A call with what it did on the way: the number of [fetch] requests
    and the delays it waited between them, oldest first. *)
Record trace : Type := mkTrace {
  ending : result;
  requests : nat;
  waits : list Z
}.

(** The [for (let attempt = 0; attempt <= retries; attempt++)] loop, from
    iteration [attempt] on, with [fuel] iterations left before the loop
    condition fails; [net i] is the answer to the [i]-th request. *)
Fixpoint attemptLoop (net : nat → answer) (o : FetchOptions)
    (fuel attempt : nat) (waited : list Z) : trace :=
  match fuel with
  | O => {| ending := GaveUp (retries o + 1); requests := attempt; waits := waited |}
  | S fuel' =>
      let again :=
        if Z.of_nat attempt =? retries o
        then {| ending := GaveUp (retries o + 1);
                requests := S attempt; waits := waited |}
        else attemptLoop net o fuel' (S attempt)
               (waited ++ [retryDelay o * (Z.of_nat attempt + 1)]) in
      match net attempt with
      | Status status =>
          if ok status
          then {| ending := Resolved status; requests := S attempt; waits := waited |}
          else if clientError status
          then {| ending := HttpError status; requests := S attempt; waits := waited |}
          else again
      | Rejected => again
      end
  end.

(** [fetchWithFallback(url, options)]. *)
Definition fetchWithFallback (net : nat → answer) (o : FetchOptions) : trace :=
  attemptLoop net o (Z.to_nat (retries o + 1)) 0 [].

(** [fetchJSON(url, options)]: [body] is what [response.json()] yields,
    [None] when it throws. *)
Definition fetchJSON {A} (net : nat → answer) (body : option A) (o : FetchOptions)
    : outcome A :=
  match ending (fetchWithFallback net o) with
  | Resolved _ =>
      match body with
      | Some data => Ret data
      | None => Throw "invalid JSON"
      end
  | HttpError _ => Throw "HTTP error"
  | GaveUp _ => Throw "Failed to fetch"
  end.

(** An answer after which the loop goes on (while iterations remain): a
    rejection, or a response that is neither ok nor a client error. *)
Definition retriable (a : answer) : bool :=
  match a with
  | Rejected => true
  | Status status => negb (ok status) && negb (clientError status)
  end.

(** The delays waited before requests [1 .. n]: [retryDelay * 1], ...,
    [retryDelay * n]. *)
Definition schedule (o : FetchOptions) (n : nat) : list Z :=
  (λ i, retryDelay o * (Z.of_nat i + 1)) <$> seq 0 n.

(** The options [getTokenPrices] passes. *)
Definition tokenPriceOptions : FetchOptions :=
  {| timeout := 10000; retries := 2; retryDelay := 1000 |}.

End Fetch.


(** ** The other validators of walletSecurity.ts *)

Module Sanitize.
Import WalletSecurity.

(** A JavaScript string as the sequence of its UTF-16 code units; [units]
    turns an ASCII literal into one. *)
Abbreviation jsstring := (list N) (only parsing).

Definition units (s : string) : jsstring :=
  Ascii.N_of_ascii <$> String.list_ascii_of_string s.

(** The character class [[1-9A-HJ-NP-Za-km-z]]. *)
Definition base58 (u : N) : bool :=
  ((49 <=? u) && (u <=? 57) || (65 <=? u) && (u <=? 72) ||
   (74 <=? u) && (u <=? 78) || (80 <=? u) && (u <=? 90) ||
   (97 <=? u) && (u <=? 107) || (109 <=? u) && (u <=? 122))%N.

(** The character class of the sanitizers: less-than, greater-than, double
    quote, single quote and ampersand (code units 60, 62, 34, 39, 38). *)
Definition unsafeChar (u : N) : bool :=
  ((u =? 60) || (u =? 62) || (u =? 34) || (u =? 39) || (u =? 38))%N.

(** [s.replace(re, empty)] with that class as a global pattern. *)
Definition stripUnsafe (s : jsstring) : jsstring :=
  filter (λ u, unsafeChar u = false) s.

Section PublicKey.

(** Whether [new PublicKey(address)] of the ledger SDK returns rather than
    throws. *)
Variable publicKeyOk : jsstring → bool.

(** [isValidSolanaAddress(address)]. *)
Definition isValidSolanaAddress (address : jsstring) : bool :=
  match address with
  | [] => false
  | _ :: _ =>
      if (length address <? 32)%nat || (44 <? length address)%nat then false
      else if negb (forallb base58 address) then false
      else publicKeyOk address
  end.

(** [isValidTokenMint(mint)]. *)
Definition isValidTokenMint (mint : jsstring) : bool := isValidSolanaAddress mint.

(** [sanitizeWalletAddress(address)]. *)
Definition sanitizeWalletAddress (address : jsstring) : outcome jsstring :=
  if negb (isValidSolanaAddress address)
  then Throw "Invalid wallet address format"
  else Ret (stripUnsafe address).

End PublicKey.

(** [Number.MAX_SAFE_INTEGER], 2^53 - 1. *)
Definition MAX_SAFE_INTEGER : Z := 9007199254740991.

(** [n > z] for an integer [z]. *)
Definition gtZ (n : number) (z : Z) : bool :=
  match n with
  | Num q => z * Zpos (Qden q) <? Qnum q
  | Infinity => true
  | _ => false
  end.

(** [validateTokenAmount(amount)]. *)
Definition validateTokenAmount (amount : jsvalue) : outcome number :=
  match amount with
  | JNumber n =>
      if negb (isFinite n) then Throw "Token amount must be finite"
      else if lt0 n then Throw "Token amount cannot be negative"
      else if gtZ n MAX_SAFE_INTEGER then Throw "Token amount exceeds maximum safe value"
      else Ret n
  | _ => Throw "Token amount must be a number"
  end.

(** *** sanitizeTokenMetadata *)

(** A property of the [metadata] object, as far as [typeof] tells. *)
Inductive field : Type :=
  | FString (s : jsstring)
  | FNumber (n : number)
  | FOther.

Record rawMetadata : Type := mkRaw {
  raw_name : field;
  raw_symbol : field;
  raw_logoURI : field;
  raw_decimals : field
}.

(** The [sanitized] object: a property is [None] when it was not set. *)
Record tokenMetadata : Type := mkMetadata {
  name : option jsstring;
  symbol : option jsstring;
  logoURI : option jsstring;
  decimals : option number
}.

(** [Number.isInteger]. *)
Definition isInteger (n : number) : bool :=
  match n with
  | Num q => Qnum q mod Zpos (Qden q) =? 0
  | _ => false
  end.

(** [n >= 0]. *)
Definition ge0 (n : number) : bool :=
  match n with
  | Num q => 0 <=? Qnum q
  | Infinity => true
  | _ => false
  end.

(** [n <= z] for an integer [z]. *)
Definition leZ (n : number) (z : Z) : bool :=
  match n with
  | Num q => Qnum q <=? z * Zpos (Qden q)
  | NegInfinity => true
  | _ => false
  end.

Section Url.

(** [new URL(s).protocol], [None] when the constructor throws. *)
Variable protocolOf : jsstring → option jsstring.

(** [sanitizeTokenMetadata(metadata)]; [None] stands for an argument that
    is falsy or not an object. *)
Definition sanitizeTokenMetadata (metadata : option rawMetadata) : tokenMetadata :=
  match metadata with
  | None => {| name := None; symbol := None; logoURI := None; decimals := None |}
  | Some m =>
      {| name :=
           match raw_name m with
           | FString s => Some (take 100 (stripUnsafe s))
           | _ => None
           end;
         symbol :=
           match raw_symbol m with
           | FString s => Some (take 20 (stripUnsafe s))
           | _ => None
           end;
         logoURI :=
           match raw_logoURI m with
           | FString s =>
               match protocolOf s with
               | Some p => if decide (p = units "https:") then Some s else None
               | None => None
               end
           | _ => None
           end;
         decimals :=
           match raw_decimals m with
           | FNumber n =>
               if isInteger n && ge0 n && leZ n 18 then Some n else None
           | _ => None
           end |}
  end.

End Url.

(** A sanitized object read as a [metadata] argument again. *)
Definition asRaw (m : tokenMetadata) : rawMetadata :=
  {| raw_name := from_option FString FOther (name m);
     raw_symbol := from_option FString FOther (symbol m);
     raw_logoURI := from_option FString FOther (logoURI m);
     raw_decimals := from_option FNumber FOther (decimals m) |}.

(** *** secureStorage *)

(** [sessionStorage]: string keys, string values. *)
Abbreviation storage := (gmap (list N) (list N)) (only parsing).

(** [`secure_${key}`]. *)
Definition secureKey (key : jsstring) : jsstring := units "secure_" ++ key.

(** Each operation takes [fails], which says whether the access to
    [sessionStorage] throws; the exception is caught and logged. *)
Definition setItem (fails : bool) (key value : jsstring) (st : storage) : storage :=
  if fails then st else <[secureKey key := value]> st.

Definition getItem (fails : bool) (key : jsstring) (st : storage) : option jsstring :=
  if fails then None else st !! secureKey key.

Definition removeItem (fails : bool) (key : jsstring) (st : storage) : storage :=
  if fails then st else base.delete (secureKey key) st.

(** [clear()]: every key that starts with [secure_] is removed. *)
Definition clear (fails : bool) (st : storage) : storage :=
  if fails then st
  else
    foldr (λ key acc,
             if decide (units "secure_" `prefix_of` key) then base.delete key acc else acc)
          st (fst <$> map_to_list st).


(** *** validatePortfolioData *)

(** A property value of the [data] object: a primitive or plain object, a
    [Date] with its time value, or an array whose elements are token
    objects ([None] for an element that is falsy or not an object). *)
Record rawToken : Type := mkRawToken {
  t_mint : jsvalue;
  t_balance : jsvalue;
  t_uiAmount : jsvalue;
  t_decimals : jsvalue;
  t_price : jsvalue;
  t_priceChange24h : jsvalue;
  t_value : jsvalue;
  t_logoURI : jsvalue
}.

Inductive pvalue : Type :=
  | Plain (v : jsvalue)
  | PDate (time : number)
  | PArray (items : list (option rawToken)).

(** What [typeof] and the number validators see of a property value. *)
Definition scalar (v : pvalue) : jsvalue :=
  match v with
  | Plain v => v
  | _ => JObject
  end.

(** [data.key]: [undefined] for a key the object does not have. *)
Definition prop (data : gmap string pvalue) (key : string) : jsvalue :=
  from_option scalar JUndefined (data !! key).

(** Truthiness of a value. *)
Definition truthyValue (v : jsvalue) : bool :=
  match v with
  | JNumber n => truthy n
  | JString s => negb (String.eqb s EmptyString)
  | JBoolean b => b
  | JUndefined | JNull => false
  | JObject => true
  end.

Record tokenBalance : Type := mkTokenBalance {
  mint : string;
  balance : number;
  uiAmount : number;
  tokenDecimals : number;
  price : option number;
  priceChange24h : option number;
  value : number;
  tokenLogoURI : option string
}.

(** A property value of the [validated] object. *)
Inductive validatedValue : Type :=
  | VNumber (n : number)
  | VDate (time : number)
  | VTokens (tokens : list tokenBalance).

Definition bind {A B : Type} (m : outcome A) (f : A → outcome B) : outcome B :=
  match m with
  | Ret a => f a
  | Throw msg => Throw msg
  end.

Section Portfolio.

Variable publicKeyOk : jsstring → bool.

(** The callback of [data.tokenBalances.map]; the properties of the object
    literal are evaluated in the order they are written. *)
Definition validateToken (token : option rawToken) : outcome tokenBalance :=
  match token with
  | None => Throw "Invalid token balance format"
  | Some token =>
      bind (match t_mint token with
            | JString s =>
                if isValidTokenMint publicKeyOk (units s) then Ret s
                else Throw "Invalid token mint"
            | _ => Throw "Invalid token mint"
            end) (λ mint,
      bind (validateTokenAmount (t_balance token)) (λ balance,
      bind (validateTokenAmount (t_uiAmount token)) (λ uiAmount,
      let decimals :=
        match t_decimals token with JNumber n => n | _ => Num 0 end in
      bind (if truthyValue (t_price token)
            then bind (validatePrice (t_price token)) (λ p, Ret (Some p))
            else Ret None) (λ price,
      bind (if truthyValue (t_priceChange24h token)
            then bind (validatePrice (t_priceChange24h token)) (λ p, Ret (Some p))
            else Ret None) (λ priceChange24h,
      bind (if truthyValue (t_value token)
            then validateTokenAmount (t_value token)
            else Ret (Num 0)) (λ value,
      Ret {| mint := mint; balance := balance; uiAmount := uiAmount;
             tokenDecimals := decimals; price := price;
             priceChange24h := priceChange24h; value := value;
             tokenLogoURI :=
               match t_logoURI token with JString s => Some s | _ => None end |}))))))
  end.

(** [items.map(callback)]: the first element that throws ends the loop. *)
Fixpoint mapTokens (items : list (option rawToken)) : outcome (list tokenBalance) :=
  match items with
  | [] => Ret []
  | token :: rest =>
      bind (validateToken token) (λ v,
      bind (mapTokens rest) (λ vs, Ret (v :: vs)))
  end.

(** The step [if (key in data) validated[key] = check(data[key])]. *)
Definition validateKey (data : gmap string pvalue) (key : string)
    (check : jsvalue → outcome number)
    (validated : gmap string validatedValue) : outcome (gmap string validatedValue) :=
  match data !! key with
  | Some v => bind (check (scalar v)) (λ n, Ret (<[key := VNumber n]> validated))
  | None => Ret validated
  end.

(** [validatePortfolioData(data)]; [None] stands for an argument that is
    falsy or not an object. *)
Definition validatePortfolioData (data : option (gmap string pvalue))
    : outcome (gmap string validatedValue) :=
  match data with
  | None => Throw "Invalid portfolio data format"
  | Some data =>
      bind (validateKey data "totalValue" validateTokenAmount ∅) (λ v1,
      bind (validateKey data "totalChange24h" validatePrice v1) (λ v2,
      bind (validateKey data "totalChangePercent24h" validatePrice v2) (λ v3,
      bind (match data !! "lastUpdated" with
            | Some (PDate time) => Ret (<["lastUpdated" := VDate time]> v3)
            | Some _ => Throw "Invalid lastUpdated timestamp"
            | None => Ret v3
            end) (λ v4,
      match data !! "tokenBalances" with
      | Some (PArray items) =>
          bind (mapTokens items) (λ tokens,
          Ret (<["tokenBalances" := VTokens tokens]> v4))
      | _ => Ret v4
      end))))
  end.

End Portfolio.

(** The object the portfolio hook passes: the token list is under the key
    [tokens]. *)
Definition hookData (totalValue totalChange24h totalChangePercent24h : number)
    (tokens : list (option rawToken)) (lastUpdated : number) : gmap string pvalue :=
  <["totalValue" := Plain (JNumber totalValue)]>
  (<["totalChange24h" := Plain (JNumber totalChange24h)]>
  (<["totalChangePercent24h" := Plain (JNumber totalChangePercent24h)]>
  (<["tokens" := PArray tokens]>
  (<["lastUpdated" := PDate lastUpdated]> ∅)))).


(** Predicates the statements about the validators use. *)

Definition safeAmount (n : number) : Prop :=
  ∃ q, n = Num q ∧ 0 <= Qnum q ∧ Qnum q <= MAX_SAFE_INTEGER * Zpos (Qden q).

Definition nonNegative (n : number) : Prop :=
  ∃ q, n = Num q ∧ 0 <= Qnum q.

Definition positive (n : number) : Prop :=
  ∃ q, n = Num q ∧ 0 < Qnum q.

Definition numberKeys : list string :=
  ["totalValue"; "totalChange24h"; "totalChangePercent24h"].

(** A wrapped SOL mint, 43 characters of base58. *)
Definition wrappedSol : string := "So11111111111111111111111111111111111111112".


(** A balance of five wrapped SOL at a price of 20, and a portfolio that
    holds it under [tokenBalances]. *)
Definition solBalance : rawToken :=
  {| t_mint := JString wrappedSol;
     t_balance := JNumber (Num 5000000000);
     t_uiAmount := JNumber (Num 5);
     t_decimals := JNumber (Num 9);
     t_price := JNumber (Num 20);
     t_priceChange24h := JNumber (Num 0);
     t_value := JNumber (Num 100);
     t_logoURI := JUndefined |}.

Definition solPortfolio : gmap string pvalue :=
  <["totalValue" := Plain (JNumber (Num 100))]>
  (<["tokenBalances" := PArray [Some solBalance]]> ∅).

End Sanitize.


(** ** TokenService: the token list (tokenService.ts) *)

Module TokenList.

Record SolanaToken : Type := mkToken {
  mint : string;
  symbol : string;
  name : string;
  decimals : Z;
  logoURI : string;
  verified : bool;
  popular : bool;
  chainId : Z
}.

(** The logo of a built-in token: each literal in the source is this
    prefix, the mint and [/logo.png]. *)
Definition logo (mint : string) : string :=
  String.append
    "https://raw.githubusercontent.com/solana-labs/token-list/main/assets/mainnet/"
    (String.append mint "/logo.png").

Definition builtin (mint symbol name : string) (decimals : Z) (popular : bool)
    : SolanaToken :=
  {| mint := mint; symbol := symbol; name := name; decimals := decimals;
     logoURI := logo mint; verified := true; popular := popular; chainId := 101 |}.

(** The array [popularTokens] of [initializeTokenList]. *)
Definition popularTokens : list SolanaToken :=
  [ builtin "So11111111111111111111111111111111111111112" "SOL" "Solana" 9 true;
    builtin "EPjFWdd5AufqSSqeM2qN1xzybapC8G4wEGGkZwyTDt1v" "USDC" "USD Coin" 6 true;
    builtin "Es9vMFrzaCERmJfrF4H2FYD4KCoNkY11McCe8BenwNYB" "USDT" "Tether USD" 6 true;
    builtin "9n4nbM75f5Ui33ZbPYXn59EwSgE8CGsHtAeTH5YFeJ9E" "WBTC" "Wrapped Bitcoin" 8 true;
    builtin "2FPyTwcZLUg1MDrwsyoP4D6s1tM7hAkHYRjkNb5w6Pxk" "WETH" "Wrapped Ethereum" 6 true;
    builtin "mSoLzYCxHdYgdzU16g5QSh3i5K3z3KZK7ytfqcJm7So" "mSOL" "Marinade staked SOL" 9 true;
    builtin "J1toso1uCk3RLmjorhTtrVwY9HJ7X8V9yYac6Y7kGCPn" "jitoSOL" "Jito Staked SOL" 9 true;
    builtin "bSo13r4TkiE4KumL71LsHTPpL2euBYLFx6h9HP3piy1" "bSOL" "BlazeStake Staked SOL" 9 false;
    builtin "HZ1JovNiVvGrGNiiYvEozEVgZ58xaU3RKwX8eACQBCt3" "PYTH" "Pyth Network" 6 false;
    builtin "JUPyiwrYJFskUPiHa7hkeR8VUtAeFoSYbKedZNsDvCN" "JUP" "Jupiter" 6 false ].

(** The [tokenCache], a [Map] in insertion order. *)
Definition t : Type := list (string * SolanaToken).

(** [initializeTokenList()] on the empty cache of a new service. *)
Definition initializeTokenList : t :=
  foldl (λ cache token, OMap.set (mint token) token cache) [] popularTokens.

Definition new : t := initializeTokenList.

(** An element of the array that [https://token.jup.ag/all] answers with;
    [None] is a field that is missing or falsy. *)
Record RegistryToken : Type := mkRegistryToken {
  address : string;
  r_symbol : string;
  r_name : string;
  r_decimals : Z;
  r_logoURI : option string;
  r_verified : option bool
}.

(** [fetchTokenFromRegistry(mint)]; the registry is [None] when the
    request or the parsing of its body throws. *)
Definition fetchTokenFromRegistry (registry : option (list RegistryToken))
    (mint : string) : option SolanaToken :=
  match registry with
  | None => None
  | Some tokens =>
      match List.find (λ t, bool_decide (address t = mint)) tokens with
      | Some token =>
          Some {| mint := address token; symbol := r_symbol token;
                  name := r_name token; decimals := r_decimals token;
                  logoURI := default EmptyString (r_logoURI token);
                  verified := default false (r_verified token);
                  popular := false; chainId := 101 |}
      | None => None
      end
  end.

(** [getTokenInfo(mint)]. *)
Definition getTokenInfo (registry : option (list RegistryToken)) (mint : string)
    (cache : t) : option SolanaToken * t :=
  match OMap.get mint cache with
  | Some token => (Some token, cache)
  | None =>
      match fetchTokenFromRegistry registry mint with
      | Some tokenInfo => (Some tokenInfo, OMap.set mint tokenInfo cache)
      | None => (None, cache)
      end
  end.

(** [getPopularTokens()] and [getVerifiedTokens()]. *)
Definition getPopularTokens (cache : t) : list SolanaToken :=
  filter (λ token, popular token = true) (OMap.values cache).

Definition getVerifiedTokens (cache : t) : list SolanaToken :=
  filter (λ token, verified token = true) (OMap.values cache).

(** [getDLMMTokenPairs()]; [tokenA] is [None] where the source would put
    [undefined] behind its non-null assertion. *)
Definition getDLMMTokenPairs (cache : t) : list (option SolanaToken * SolanaToken) :=
  let popularTokens := getPopularTokens cache in
  let baseTokens :=
    filter (λ token, symbol token ∈ ["SOL"; "USDC"]) popularTokens in
  let otherTokens :=
    filter (λ token, symbol token ∉ ["SOL"; "USDC"]) popularTokens in
  let solToken := List.find (λ token, bool_decide (symbol token = "SOL")) baseTokens in
  let solPairs :=
    (λ token, (solToken, token)) <$>
      filter (λ token, symbol token ≠ "SOL") otherTokens in
  let usdcToken := List.find (λ token, bool_decide (symbol token = "USDC")) baseTokens in
  let usdcPairs :=
    (λ token, (usdcToken, token)) <$>
      filter (λ token, symbol token ≠ "USDC" ∧ symbol token ≠ "USDT") otherTokens in
  let usdtToken := List.find (λ token, bool_decide (symbol token = "USDT")) popularTokens in
  solPairs ++ usdcPairs ++
  match usdtToken with
  | Some usdt => [(usdcToken, usdt)]
  | None => []
  end.

(** The service is used through [getTokenInfo]; each call sees the
    registry answer of its moment. *)
Definition exec (calls : list (option (list RegistryToken) * string)) (cache : t) : t :=
  foldl (λ acc call, snd (getTokenInfo (fst call) (snd call) acc)) cache calls.

Definition reachable (cache : t) : Prop := ∃ calls, cache = exec calls new.

(** Every entry is stored under its own mint, on chain 101. *)
Definition keyed (cache : t) : Prop :=
  Forall (λ kv, mint (snd kv) = fst kv ∧ chainId (snd kv) = 101) cache.

(** A pair as the DLMM screen expects it: a base token, SOL or USDC, and
    a different popular token. *)
Definition wellFormedPair (pair : option SolanaToken * SolanaToken) : Prop :=
  ∃ base, fst pair = Some base ∧ symbol base ∈ ["SOL"; "USDC"] ∧
          mint base ≠ mint (snd pair) ∧
          popular base = true ∧ popular (snd pair) = true.

(** A registry that lists BONK and claims the mint of SOL for a token of
    its own. *)
Definition BONK : string := "DezXAZ8z7PnrnRJjz3wXBoRgixCa6xjnB7YaB1pPB263".

Definition bonkRegistry : option (list RegistryToken) :=
  Some [ {| address := BONK; r_symbol := "Bonk"; r_name := "Bonk"; r_decimals := 5;
            r_logoURI := None; r_verified := Some true |};
         {| address := "So11111111111111111111111111111111111111112";
            r_symbol := "FAKE"; r_name := "Not Solana"; r_decimals := 0;
            r_logoURI := None; r_verified := None |} ].

End TokenList.

(** * Properties *)

(** ** Lists *)

Module ListFacts.

Lemma filter_length_le {A} (P Q : A → Prop)
    `{!∀ x, Decision (P x), !∀ x, Decision (Q x)} (l : list A) :
  (∀ x, x ∈ l → P x → Q x) →
  Nat.le (length (filter P l)) (length (filter Q l)).
Proof.
  induction l as [|a l IH]; intros Himp; [done|].
  rewrite !filter_cons.
  assert (Nat.le (length (filter P l)) (length (filter Q l))) as Hl
    by (apply IH; intros; apply Himp; [by right|done]).
  destruct (decide (P a)) as [Hp|Hp].
  - rewrite decide_True by (apply Himp; [by left|done]). simpl. lia.
  - destruct (decide (Q a)); simpl; lia.
Qed.

(** Membership in [mint :: rest] of an element other than [mint]. *)
Lemma if_elem_of_cons_ne {A B} (m mint : A) (rest : list A) (x y : B)
    `{!EqDecision A} :
  m ≠ mint →
  (if decide (m ∈ mint :: rest) then x else y) = (if decide (m ∈ rest) then x else y).
Proof.
  intros Hne. destruct (decide (m ∈ rest)) as [Hin|Hnin].
  - rewrite decide_True; [done|by right].
  - rewrite decide_False; [done|].
    intros Hin. apply elem_of_cons in Hin as [?|?]; congruence.
Qed.

Lemma if_elem_of_nil {A B} (m : A) (x y : B) `{!EqDecision A} :
  (if decide (m ∈ []) then x else y) = y.
Proof. destruct (decide (m ∈ [])) as [Hin|_]; [|done]. by apply elem_of_nil in Hin. Qed.

Lemma if_elem_of_head {A B} (m : A) (rest : list A) (x y : B) `{!EqDecision A} :
  (if decide (m ∈ m :: rest) then x else y) = x.
Proof. rewrite decide_True; [done|left]. Qed.

(** Case split used by the loops over a list of mints: is [m] the mint
    at the head, or another one? *)
Ltac head_or_tail m mint rest :=
  destruct (decide (m = mint)) as [->|?];
  [rewrite (if_elem_of_head mint rest)
  |rewrite (if_elem_of_cons_ne m mint rest) by done].

End ListFacts.

(** ** RateLimiter *)

Module RateLimiterProps.
Import RateLimiter ListFacts.

Lemma granted_cons now ok res :
  granted ((now, ok) :: res) = (if ok then [now] else []) ++ granted res.
Proof.
  unfold granted. rewrite filter_cons. simpl.
  destruct ok; [by rewrite decide_True|by rewrite decide_False].
Qed.

Section Window.
Variables maxC w : Z.

Lemma inv_new lo : 0 <= maxC → inv maxC w [] (new maxC w) lo.
Proof.
  intros Hm. unfold inv, new; simpl. repeat split; try done; simpl; lia.
Qed.

Lemma in_window_le T now adm :
  Forall (λ t, t <= now) adm → now <= T →
  Nat.le (length (in_window w T adm))
         (length (filter (λ t, now - t < w) adm)).
Proof.
  intros Hle HT. unfold in_window. apply filter_length_le.
  intros x Hx [H1 H2]. rewrite Forall_forall in Hle.
  specialize (Hle x Hx). simpl in Hle. lia.
Qed.

Lemma inv_step adm rl lo now :
  inv maxC w adm rl lo → lo <= now →
  inv maxC w (adm ++ (if fst (canMakeCall now rl) then [now] else []))
      (snd (canMakeCall now rl)) now.
Proof.
  intros (Hmax & Hwin & Hle & Hfil & Hlen & Hcnt) Hlo.
  assert (Forall (λ t, t <= now) adm) as Hle'.
  { eapply Forall_impl; [exact Hle|]. simpl. intros; lia. }
  assert (prune now rl = filter (λ t, now - t < w) adm) as Hprune.
  { unfold prune. rewrite Hwin. by apply Hfil. }
  assert (Z.of_nat (length (prune now rl)) <= maxC) as Hplen.
  { unfold prune. pose proof (length_filter (λ t, now - t < timeWindow rl) (calls rl)). lia. }
  unfold canMakeCall. rewrite Hmax.
  destruct (Z.ltb_spec (Z.of_nat (length (prune now rl))) maxC) as [Hlt|Hge]; simpl.
  - split_and!; simpl; [done|done|..].
    + apply Forall_app. split; [done|]. apply Forall_singleton. lia.
    + intros now' Hn'. rewrite !filter_app. f_equal.
      rewrite Hprune. apply list_filter_filter_l. intros; lia.
    + rewrite length_app. simpl. lia.
    + intros T. destruct (Z.lt_ge_cases T now) as [HT|HT].
      * unfold in_window. rewrite filter_app.
        rewrite (filter_cons_False _ now) by lia.
        rewrite filter_nil, app_nil_r. apply Hcnt.
      * assert (Forall (λ t, t <= now) (adm ++ [now])) as Hle2.
        { apply Forall_app. split; [done|]. apply Forall_singleton. lia. }
        pose proof (in_window_le T now _ Hle2 HT) as Hw.
        rewrite filter_app, length_app in Hw.
        pose proof (length_filter (λ t, now - t < w) [now]) as H1.
        simpl in H1. rewrite Hprune in Hlt. lia.
  - rewrite app_nil_r. split_and!; simpl; [done|done|done|..].
    + intros now' Hn'. rewrite Hprune. apply list_filter_filter_l. intros; lia.
    + done.
    + intros T. apply Hcnt.
Qed.

Lemma inv_run times : ∀ adm rl lo,
  inv maxC w adm rl lo → clock_from lo times →
  ∃ hi, inv maxC w (adm ++ granted (fst (run times rl))) (snd (run times rl)) hi.
Proof.
  induction times as [|now rest IH]; intros adm rl lo Hinv Hclock.
  - exists lo. simpl. by rewrite app_nil_r.
  - destruct Hclock as [Hlo Hrest].
    pose proof (inv_step adm rl lo now Hinv Hlo) as Hstep.
    simpl. destruct (canMakeCall now rl) as [ok rl1] eqn:Hc. simpl in Hstep.
    destruct (IH _ _ _ Hstep Hrest) as [hi Hhi].
    destruct (run rest rl1) as [res rl2] eqn:Hr. simpl in *.
    exists hi. rewrite granted_cons, app_assoc. exact Hhi.
Qed.
End Window.

(** C5.  For every sequence of [canMakeCall()] invocations made at
    non-decreasing clock readings on a limiter with a non-negative budget,
    the invocations that answered [true] and whose timestamps lie in the
    trailing window [(T - windowMs, T]] of any instant [T] are at most
    [maxCalls]; the retained list never exceeds [maxCalls]; and the next
    invocation keeps exactly the timestamps [t] with [now - t < windowMs],
    answers [true] iff fewer than [maxCalls] of them remain, and appends
    [now] exactly when it does. *)
Theorem canMakeCall_sliding_window (maxC w : Z) (times : list Z) :
  0 <= maxC → monotone_clock times →
  let rl := snd (run times (new maxC w)) in
  let adm := granted (fst (run times (new maxC w))) in
  (∀ T, Z.of_nat (length (in_window w T adm)) <= maxC) ∧
  Z.of_nat (length (calls rl)) <= maxC ∧
  (∀ now,
     let kept := prune now rl in
     let ok := fst (canMakeCall now rl) in
     let rl' := snd (canMakeCall now rl) in
     (∀ t, t ∈ kept ↔ t ∈ calls rl ∧ ¬ t <= now - w) ∧
     Z.of_nat (length kept) <= maxC ∧
     (ok = true ↔ Z.of_nat (length kept) < maxC) ∧
     calls rl' = kept ++ (if ok then [now] else []) ∧
     Z.of_nat (length (calls rl')) <= maxC).
Proof.
  intros Hm Hclock rl adm.
  assert (∃ hi, inv maxC w adm rl hi) as [hi Hinv].
  { destruct times as [|t0 rest].
    - exists 0. apply (inv_new maxC w 0 Hm).
    - destruct (inv_run maxC w (t0 :: rest) [] (new maxC w) t0) as [hi Hhi].
      + by apply inv_new.
      + simpl. split; [lia|exact Hclock].
      + exists hi. exact Hhi. }
  destruct Hinv as (Hmax & Hwin & Hle & Hfil & Hlen & Hcnt).
  split; [exact Hcnt|]. split; [exact Hlen|].
  intros now kept ok rl'.
  assert (Z.of_nat (length kept) <= maxC) as Hk.
  { pose proof (length_filter (λ t, now - t < timeWindow rl) (calls rl)).
    unfold kept, prune. lia. }
  split_and!.
  - intros t. unfold kept, prune. rewrite list_elem_of_filter, Hwin.
    split; intros [H1 H2]; split; try done; lia.
  - exact Hk.
  - unfold ok, canMakeCall. fold kept. rewrite Hmax.
    destruct (Z.ltb_spec (Z.of_nat (length kept)) maxC); simpl; split;
      intros; try done; lia.
  - unfold rl', ok, canMakeCall. fold kept.
    destruct (Z.of_nat (length kept) <? maxCalls rl); simpl;
      [done|by rewrite app_nil_r].
  - unfold rl', canMakeCall. fold kept. rewrite Hmax.
    destruct (Z.ltb_spec (Z.of_nat (length kept)) maxC); simpl; [|done].
    rewrite length_app. simpl. lia.
Qed.

(** The clock must not go backwards: with a budget of 2 per 10 ms and the
    readings 0, 1, 20, 5, all four calls are granted and three of them lie
    in the window that ends at 5. *)
Remark clock_going_back_grants_more :
  granted (fst (run [0; 1; 20; 5] (new 2 10))) = [0; 1; 20; 5] ∧
  in_window 10 5 (granted (fst (run [0; 1; 20; 5] (new 2 10)))) = [0; 1; 5].
Proof. vm_compute. by split. Qed.

(** A third call inside the window of a budget of 2 is refused. *)
Remark third_call_refused :
  fst (run [0; 1; 2; 10] (new 2 10)) = [(0, true); (1, true); (2, false); (10, true)].
Proof. vm_compute. reflexivity. Qed.

(** The default limiter (100 calls per minute) on a burst of three calls
    followed by one a minute later. *)
Lemma canMakeCall_sliding_window_witness :
  0 <= 100 ∧ monotone_clock [0; 10; 10; 60005] ∧
  ∀ T, Z.of_nat (length (in_window 60000 T
         (granted (fst (run [0; 10; 10; 60005] (new 100 60000)))))) <= 100.
Proof.
  split; [lia|]. split; [simpl; lia|].
  apply (canMakeCall_sliding_window 100 60000 [0; 10; 10; 60005]);
    [lia|simpl; lia].
Defined.

End RateLimiterProps.

(** ** Insertion-ordered maps *)

Module OMapProps.
Import OMap.

Lemma keys_set {V} k (v : V) m :
  keys (set k v m) = if decide (k ∈ keys m) then keys m else keys m ++ [k].
Proof.
  unfold keys. induction m as [|[k' v'] m IH].
  - destruct (decide (k ∈ fst <$> [])) as [Hin|_]; [|done].
    by apply elem_of_nil in Hin.
  - cbn [set]. destruct (decide (k' = k)) as [->|Hne].
    + rewrite decide_True; [done|]. rewrite fmap_cons. left.
    + rewrite !fmap_cons, IH. cbn [fst].
      destruct (decide (k ∈ fst <$> m)) as [Hin|Hnin].
      * rewrite decide_True; [done|]. by right.
      * rewrite decide_False; [done|].
        intros Hin. apply elem_of_cons in Hin as [?|?]; congruence.
Qed.

Lemma keys_delete {V} k (m : list (string * V)) :
  keys (delete k m) = filter (λ k', k' ≠ k) (keys m).
Proof.
  unfold keys, delete. induction m as [|[k' v'] m IH]; [done|].
  rewrite fmap_cons, !filter_cons. cbn [fst].
  destruct (decide (k' ≠ k)); [rewrite fmap_cons; cbn [fst]|]; by rewrite IH.
Qed.

Lemma NoDup_keys_set {V} k (v : V) m : NoDup (keys m) → NoDup (keys (set k v m)).
Proof.
  intros Hnd. rewrite keys_set. destruct (decide (k ∈ keys m)); [done|].
  apply NoDup_app. split_and!; [done| |apply NoDup_singleton].
  intros x Hx Hx'. apply list_elem_of_singleton in Hx'. by subst.
Qed.

Lemma NoDup_keys_delete {V} k (m : list (string * V)) :
  NoDup (keys m) → NoDup (keys (delete k m)).
Proof. intros Hnd. rewrite keys_delete. by apply NoDup_filter. Qed.

Lemma get_set_eq {V} k (v : V) m : get k (set k v m) = Some v.
Proof.
  induction m as [|[k' v'] m IH]; simpl.
  - by rewrite decide_True.
  - destruct (decide (k' = k)) as [->|Hne]; simpl.
    + by rewrite decide_True.
    + by rewrite decide_False.
Qed.

Lemma get_set_ne {V} k k' (v : V) m : k ≠ k' → get k' (set k v m) = get k' m.
Proof.
  intros Hne. induction m as [|[k0 v0] m IH]; cbn [set get].
  - by rewrite decide_False.
  - destruct (decide (k0 = k)) as [->|Hne0]; cbn [get].
    + by rewrite !decide_False.
    + destruct (decide (k0 = k')); [done|exact IH].
Qed.

Lemma get_None {V} k (m : list (string * V)) : k ∉ keys m → get k m = None.
Proof.
  unfold keys. induction m as [|[k0 v0] m IH]; intros Hnin; cbn [get]; [done|].
  rewrite fmap_cons in Hnin. cbn [fst] in Hnin.
  apply not_elem_of_cons in Hnin as [Hne Hnin].
  rewrite decide_False by done. by apply IH.
Qed.

End OMapProps.

(** ** WebSocketService *)

Module WebSocketServiceProps.
Import WebSocketService.

(** Re-subscribing touches the connection and the registry only. *)
Lemma subscribeToAccount_frame ok pk f s :
  let s' := snd (subscribeToAccount ok pk f s) in
  isConnected s' = isConnected s ∧ reconnectAttempts s' = reconnectAttempts s ∧
  maxReconnectAttempts s' = maxReconnectAttempts s ∧
  reconnectDelay s' = reconnectDelay s ∧
  emitted s' = emitted s ∧ timers s' = timers s.
Proof. unfold subscribeToAccount, onAccountChange. by destruct ok. Qed.

Lemma restore_frame up subs : ∀ s,
  let s' := snd (restore up subs s) in
  isConnected s' = isConnected s ∧ reconnectAttempts s' = reconnectAttempts s ∧
  maxReconnectAttempts s' = maxReconnectAttempts s ∧
  reconnectDelay s' = reconnectDelay s ∧
  emitted s' = emitted s ∧ timers s' = timers s.
Proof.
  induction subs as [|sub rest IH]; intros s; simpl; [done|].
  pose proof (subscribeToAccount_frame (up (publicKey sub)) (publicKey sub) (cb sub) s) as Hf.
  destruct (subscribeToAccount _ _ _ s) as [[h|e] s1]; simpl in *.
  - specialize (IH s1). simpl in IH.
    destruct Hf as (? & ? & ? & ? & ? & ?), IH as (? & ? & ? & ? & ? & ?).
    split_and!; congruence.
  - exact Hf.
Qed.

(** A timer body that runs into a rejection never announces a reconnect. *)
Lemma handleReconnection_not_reconnected s :
  emitted (handleReconnection s) ≠ emitted s ++ [reconnected].
Proof.
  unfold handleReconnection.
  destruct (maxReconnectAttempts s <=? reconnectAttempts s); simpl.
  - intros H. apply app_inv_head in H. discriminate.
  - intros H. rewrite <- (app_nil_r (emitted s)) in H at 1.
    apply app_inv_head in H. discriminate.
Qed.

Lemma session_reachable : reachable after_probe_failure.
Proof.
  exists [Probe true;
          Subscribe true wallet (WalletCallback 0);
          Subscribe true position1 (PositionCallback position1 1);
          Subscribe true position2 (PositionCallback position2 1);
          Probe false].
  vm_compute. reflexivity.
Qed.

(** *** The registry holds one entry per key *)

Lemma subscribeToAccount_NoDup ok pk f s :
  NoDup (OMap.keys (subscriptions s)) →
  NoDup (OMap.keys (subscriptions (snd (subscribeToAccount ok pk f s)))).
Proof.
  intros Hnd. unfold subscribeToAccount, onAccountChange.
  destruct ok; simpl; [|done]. by apply OMapProps.NoDup_keys_set.
Qed.

Lemma restore_NoDup up subs : ∀ s,
  NoDup (OMap.keys (subscriptions s)) →
  NoDup (OMap.keys (subscriptions (snd (restore up subs s)))).
Proof.
  induction subs as [|sub rest IH]; intros s Hnd; simpl; [done|].
  pose proof (subscribeToAccount_NoDup (up (publicKey sub)) (publicKey sub)
                (cb sub) s Hnd) as H1.
  destruct (subscribeToAccount _ _ _ s) as [[h|e] s1]; simpl in *; [|done].
  by apply IH.
Qed.

Lemma handleReconnection_subscriptions s :
  subscriptions (handleReconnection s) = subscriptions s.
Proof.
  unfold handleReconnection.
  by destruct (maxReconnectAttempts s <=? reconnectAttempts s).
Qed.

Lemma step_NoDup a s :
  NoDup (OMap.keys (subscriptions s)) →
  NoDup (OMap.keys (subscriptions (step a s))).
Proof.
  intros Hnd. destruct a as [ok|i up|ok pk f|h|]; simpl.
  - unfold monitorTick. destruct ok, (isConnected s); simpl; try done.
    by rewrite handleReconnection_subscriptions.
  - unfold fireTimer. destruct (timers s !! i); [|done].
    unfold onReconnectTimer.
    pose proof (restore_NoDup up
      (OMap.values (subscriptions (with_timers (base.delete i (timers s)) s)))
      (with_subscriptions [] (with_timers (base.delete i (timers s)) s))) as Hr.
    destruct (restore _ _ _) as [[u|e] s2]; simpl in *.
    + apply Hr. constructor.
    + rewrite handleReconnection_subscriptions. apply Hr. constructor.
  - by apply subscribeToAccount_NoDup.
  - unfold unsubscribe. simpl. by apply OMapProps.NoDup_keys_delete.
  - unfold unsubscribeAll. simpl. constructor.
Qed.

Lemma reachable_NoDup s : reachable s → NoDup (OMap.keys (subscriptions s)).
Proof.
  intros [actions ->]. induction actions as [|a actions IH] using rev_ind.
  - simpl. constructor.
  - unfold exec in *. rewrite foldl_snoc. by apply step_NoDup.
Qed.

(** *** Backoff schedule *)

(** The [k]-th consecutive call of [handleReconnection] waits
    [reconnectDelay * 2^(k-1)] ms. *)
Lemma handleReconnection_delay s :
  reconnectAttempts s < maxReconnectAttempts s →
  timers (handleReconnection s)
    = timers s ++ [reconnectDelay s * 2 ^ reconnectAttempts s] ∧
  reconnectAttempts (handleReconnection s) = reconnectAttempts s + 1 ∧
  emitted (handleReconnection s) = emitted s.
Proof.
  intros Hlt. unfold handleReconnection.
  destruct (Z.leb_spec (maxReconnectAttempts s) (reconnectAttempts s)); [lia|].
  simpl. split_and!; try done.
  by replace (reconnectAttempts s + 1 - 1) with (reconnectAttempts s) by lia.
Qed.

(** Once the attempts are used up, [handleReconnection] gives up. *)
Lemma handleReconnection_exhausted s :
  maxReconnectAttempts s <= reconnectAttempts s →
  handleReconnection s = emit reconnection_failed s.
Proof.
  intros Hle. unfold handleReconnection.
  by destruct (Z.leb_spec (maxReconnectAttempts s) (reconnectAttempts s)); [|lia].
Qed.

(** With an empty registry the timer body has nothing to restore and
    announces a reconnect, whatever the connection would answer. *)
Lemma empty_registry_reconnects up s :
  subscriptions s = [] → onReconnectTimer up s = emit reconnected s.
Proof.
  intros He. unfold onReconnectTimer. rewrite He. simpl.
  destruct s; simpl in *; by subst.
Qed.

(** A cycle that is rejected on its first account leaves the registry
    empty: the snapshot is not put back.  It schedules the next attempt,
    and that one announces a reconnect whatever the connection answers. *)
Lemma rejected_cycle_loses_snapshot up s k sub rest :
  subscriptions s = (k, sub) :: rest → up (publicKey sub) = false →
  reconnectAttempts s < maxReconnectAttempts s →
  let s1 := onReconnectTimer up s in
  subscriptions s1 = [] ∧
  timers s1 = timers s ++ [reconnectDelay s * 2 ^ reconnectAttempts s] ∧
  ∀ up', emitted (onReconnectTimer up' s1) = emitted s ++ [reconnected].
Proof.
  intros Hsubs Hup Hlt s1.
  assert (s1 = handleReconnection
                 (with_connection (snd (onAccountChange false (publicKey sub)
                                          (connection s)))
                    (with_subscriptions [] s))) as Hs1.
  { unfold s1, onReconnectTimer. rewrite Hsubs. cbn [OMap.values fmap list_fmap snd restore].
    unfold subscribeToAccount. rewrite Hup. done. }
  set (s0 := with_connection _ _) in Hs1.
  destruct (handleReconnection_delay s0 Hlt) as (Ht & _ & He).
  rewrite Hs1, handleReconnection_subscriptions. split_and!; [done|exact Ht|].
  intros up'. rewrite empty_registry_reconnects
    by (by rewrite handleReconnection_subscriptions).
  cbn [emit emitted]. by rewrite He.
Qed.

(** C1.  In the session with a wallet subscription and two position
    subscriptions, one probe failure emits [disconnected] once; after
    the backoff timer the three keys are re-subscribed once each, in
    order, and [reconnected] is emitted once.  The teardown, however,
    clears the registry without invoking any stored cancellation handle:
    [removeAccountChangeListener] is never called and the three
    listeners registered before the failure stay registered next to the
    three new ones.  (A further failing probe changes nothing.) *)
Theorem teardown_skips_cancellation :
  occurrences disconnected (emitted after_recovery) = 1%nat ∧
  occurrences reconnected (emitted after_recovery) = 1%nat ∧
  requested (connection after_recovery)
    = requested (connection session) ++ [wallet; position1; position2] ∧
  OMap.keys (subscriptions after_recovery) = [wallet; position1; position2] ∧
  removed (connection after_recovery) = [] ∧
  listeners (connection after_recovery)
    = listeners (connection session)
      ++ [(3, wallet); (4, position1); (5, position2)] ∧
  listeners (connection session)
    = [(0, wallet); (1, position1); (2, position2)] ∧
  monitorTick false after_probe_failure = after_probe_failure.
Proof. vm_compute. by split_and!. Qed.

(** [unsubscribeAll], the other teardown of the registry, does invoke
    every stored handle before clearing. *)
Lemma unsubscribeAll_cancels :
  removed (connection (unsubscribeAll session)) = [0; 1; 2] ∧
  listeners (connection (unsubscribeAll session)) = [] ∧
  subscriptions (unsubscribeAll session) = [].
Proof. vm_compute. by split_and!. Qed.

(** C2.  With at most 5 attempts and a base delay of 1000 ms, the session
    whose connection never recovers (every [onAccountChange] rejects)
    goes through two timer cycles only, after 1000 and 2000 ms: the first
    one loses the snapshot it took, the second finds an empty registry
    and emits [reconnected].  [reconnection-failed] is never emitted and
    the three subscriptions are gone. *)
Theorem never_recovers_reports_reconnected :
  maxReconnectAttempts after_probe_failure = 5 ∧
  reconnectDelay after_probe_failure = 1000 ∧
  fst never_recovers = [1000; 2000] ∧
  emitted (snd never_recovers)
    = emitted after_probe_failure ++ [reconnected] ∧
  occurrences reconnection_failed (emitted (snd never_recovers)) = 0%nat ∧
  timers (snd never_recovers) = [] ∧
  subscriptions (snd never_recovers) = [] ∧
  requested (connection (snd never_recovers))
    = requested (connection session) ++ [wallet].
Proof. vm_compute. by split_and!. Qed.

(** When every cycle does run into a rejection, the schedule is the
    documented one: five cycles after 1000, 2000, 4000, 8000 and
    16000 ms, then [reconnection-failed], once. *)
Lemma every_cycle_fails_schedule :
  fst every_cycle_fails = [1000; 2000; 4000; 8000; 16000] ∧
  emitted (snd every_cycle_fails)
    = [connected; disconnected; reconnection_failed] ∧
  timers (snd every_cycle_fails) = [].
Proof. vm_compute. by split_and!. Qed.

(** C3, as stated, fails: the session's successful reconnection emits
    [reconnected] and leaves [reconnectAttempts] at 1. *)
Lemma reconnected_without_reset :
  ¬ (∀ s i up, reachable s →
       emitted (fireTimer i up s) = emitted s ++ [reconnected] →
       reconnectAttempts (fireTimer i up s) = 0).
Proof.
  intros H.
  specialize (H after_probe_failure 0%nat (λ _, true) session_reachable).
  vm_compute in H. specialize (H eq_refl). discriminate.
Qed.

(** C3, amended.  A timer cycle that re-establishes every snapshotted
    subscription emits [reconnected] and leaves [reconnectAttempts] and
    [isConnected] as they were; the counter is reset by the connection
    monitor: the next successful probe of a service still marked
    disconnected sets [reconnectAttempts] to 0, marks it connected and
    emits [connected], all in one step. *)
Theorem reconnected_keeps_attempts (s : t) (i : nat) (up : string → bool) :
  emitted (fireTimer i up s) = emitted s ++ [reconnected] →
  let s' := fireTimer i up s in
  reconnectAttempts s' = reconnectAttempts s ∧
  isConnected s' = isConnected s ∧
  (isConnected s' = false →
     reconnectAttempts (monitorTick true s') = 0 ∧
     isConnected (monitorTick true s') = true ∧
     emitted (monitorTick true s') = emitted s' ++ [connected]).
Proof.
  intros Hem s'. subst s'. revert Hem. unfold fireTimer.
  destruct (timers s !! i) as [d|].
  - unfold onReconnectTimer.
    set (s0 := with_subscriptions [] (with_timers (base.delete i (timers s)) s)).
    pose proof (restore_frame up
      (OMap.values (subscriptions (with_timers (base.delete i (timers s)) s))) s0) as Hf.
    destruct (restore _ _ s0) as [[u|e] s2]; simpl in Hf.
    + destruct Hf as (Hc & Ha & _ & _ & He & _). intros _. simpl.
      split_and!; [done|done|]. intros Hd. unfold monitorTick. simpl.
      rewrite Hd. by simpl.
    + destruct Hf as (_ & _ & _ & _ & He & _). intros Hem.
      exfalso. apply (handleReconnection_not_reconnected s2).
      rewrite Hem, He. done.
  - intros Hem. exfalso. rewrite <- (app_nil_r (emitted s)) in Hem at 1.
    apply app_inv_head in Hem. discriminate.
Qed.

Lemma reconnected_keeps_attempts_witness :
  emitted (fireTimer 0 (λ _, true) after_probe_failure)
    = emitted after_probe_failure ++ [reconnected] ∧
  reconnectAttempts (fireTimer 0 (λ _, true) after_probe_failure)
    = reconnectAttempts after_probe_failure ∧
  reconnectAttempts after_probe_failure = 1.
Proof.
  assert (emitted (fireTimer 0 (λ _, true) after_probe_failure)
          = emitted after_probe_failure ++ [reconnected]) as Hem
    by (vm_compute; reflexivity).
  split_and!; [exact Hem| |reflexivity].
  apply (reconnected_keeps_attempts after_probe_failure 0 (λ _, true) Hem).
Defined.

(** C4, as stated, fails: subscribing the same address twice leaves two
    listeners registered upstream. *)
Lemma resubscribe_keeps_prior_listener :
  ¬ (∀ s pk, reachable s → Nat.le (length (live pk (connection s))) 1).
Proof.
  intros H.
  specialize (H (exec [Subscribe true wallet (AccountCallback 0);
                       Subscribe true wallet (AccountCallback 1)]
                      (new freshConnection)) wallet).
  assert (Nat.le 2 1) as Hle; [|inversion Hle as [|? Hle']; inversion Hle'].
  apply H. by eexists.
Qed.

(** C4, amended.  The registry never holds two entries for one key.
    When [subscribeToAccount] succeeds for a key that is already
    registered, the entry is replaced by the new subscription; the prior
    subscription's cancellation handle is not invoked (no listener is
    removed), so its upstream listener stays registered beside the new
    one until the caller invokes the handle it was given. *)
Theorem resubscribe_replaces_entry (s : t) (pk : string) (f : callback)
    (old : AccountSubscription) :
  reachable s → OMap.get pk (subscriptions s) = Some old →
  let s' := snd (subscribeToAccount true pk f s) in
  NoDup (OMap.keys (subscriptions s')) ∧
  OMap.get pk (subscriptions s')
    = Some {| id := nextId (connection s); publicKey := pk; cb := f |} ∧
  removed (connection s') = removed (connection s) ∧
  listeners (connection s')
    = listeners (connection s) ++ [(nextId (connection s), pk)].
Proof.
  intros Hr Hold s'. subst s'. split.
  - apply subscribeToAccount_NoDup. by apply reachable_NoDup.
  - unfold subscribeToAccount, onAccountChange. simpl.
    split_and!; [apply OMapProps.get_set_eq|done|done].
Qed.

Lemma resubscribe_replaces_entry_witness :
  let s := exec [Subscribe true wallet (AccountCallback 0)] (new freshConnection) in
  listeners (connection (snd (subscribeToAccount true wallet (AccountCallback 1) s)))
    = listeners (connection s) ++ [(nextId (connection s), wallet)].
Proof.
  intros s.
  apply (resubscribe_replaces_entry s wallet (AccountCallback 1)
           {| id := 0; publicKey := wallet; cb := AccountCallback 0 |}).
  - by eexists.
  - reflexivity.
Defined.

End WebSocketServiceProps.


(** ** PriceService: single prices *)

Module PriceServiceProps.
Import PriceService ListFacts.

Lemma fresh_Some now expiry o c :
  fresh now expiry o = Some c ↔ o = Some c ∧ now - lastUpdated c < expiry.
Proof.
  unfold fresh. destruct o as [c'|]; [|by split; [|intros [? _]]].
  destruct (Z.ltb_spec (now - lastUpdated c') expiry); split.
  - intros Heq. by simplify_eq.
  - intros [Heq _]. by simplify_eq.
  - done.
  - intros [Heq ?]. simplify_eq. lia.
Qed.

(** Neither source reader lets an exception out; each one leaves the
    cache alone and logs at most its own request. *)
Lemma getPythPrice_spec w mint s :
  (∃ r, fst (getPythPrice w mint s) = Ret r) ∧
  (snd (getPythPrice w mint s) = s ∨
   snd (getPythPrice w mint s) = log PythGetData s).
Proof.
  unfold getPythPrice.
  destruct (negb (pythClient s) || negb (isInitialized s)); [eauto|].
  destruct (TOKEN_PYTH_MAPPING mint) as [[sym feed]|]; [|eauto].
  simpl. split; [|by right].
  destruct (pythData w) as [data|e]; simpl; [|eauto].
  destruct (data !! sym) as [pd|]; simpl; [|eauto].
  destruct (pyth_price pd) as [p|]; simpl; [|eauto].
  destruct (truthy p); simpl; eauto.
Qed.

Lemma getJupiterPrice_spec w mint s :
  (∃ r, fst (getJupiterPrice w mint s) = Ret r) ∧
  snd (getJupiterPrice w mint s) = log (JupiterFetch [mint]) s.
Proof.
  unfold getJupiterPrice. simpl. split; [|done].
  destruct (jupiterResponse w [mint]) as [|data]; simpl; [eauto|].
  destruct (Jupiter.lookup data mint); simpl; eauto.
Qed.

Lemma getJupiterPrice_fst w mint s s' :
  fst (getJupiterPrice w mint s) = fst (getJupiterPrice w mint s').
Proof. done. Qed.

#[local] Arguments getPythPrice : simpl never.
#[local] Arguments getJupiterPrice : simpl never.

Lemma getPrice_returns w mint s : ∃ r, fst (getPrice w mint s) = Ret r.
Proof.
  unfold getPrice.
  destruct (fresh _ _ _) as [c|]; [simpl; eauto|].
  destruct (getPythPrice_spec w mint s) as [[r Hr] _].
  destruct (getPythPrice w mint s) as [o s1]. simpl in Hr. subst o.
  destruct r as [p|]; [simpl; eauto|].
  destruct (getJupiterPrice_spec w mint s1) as [[r Hr] _].
  destruct (getJupiterPrice w mint s1) as [o s2]. simpl in Hr. subst o.
  destruct r; simpl; eauto.
Qed.

(** What [getPrice] answers is in the cache afterwards. *)
Lemma getPrice_cached w mint s e :
  fst (getPrice w mint s) = Ret (Some e) →
  priceCache (snd (getPrice w mint s)) !! mint = Some e.
Proof.
  unfold getPrice.
  destruct (fresh _ _ _) as [c|] eqn:Hf.
  - simpl. intros [= ->]. by apply fresh_Some in Hf as [? _].
  - destruct (getPythPrice w mint s) as [[[p|]|err] s1].
    + simpl. intros [= ->]. apply lookup_insert_eq.
    + destruct (getJupiterPrice w mint s1) as [[[j|]|err] s2]; simpl; try done.
      intros [= ->]. apply lookup_insert_eq.
    + done.
Qed.

(** What the Pyth source does, in terms of what the outside answers: the
    client is asked exactly when it was initialized and the mint has a
    feed; the answer is an entry exactly when [getData] returns a product
    price for the mint's symbol that is truthy. *)
Lemma getPythPrice_world w mint s :
  let asked := pythClient s && isInitialized s &&
               bool_decide (is_Some (TOKEN_PYTH_MAPPING mint)) in
  snd (getPythPrice w mint s) = (if asked then log PythGetData s else s) ∧
  (∀ sym feed data pd p,
     asked = true → TOKEN_PYTH_MAPPING mint = Some (sym, feed) →
     pythData w = Ret data → data !! sym = Some pd →
     pyth_price pd = Some p → truthy p = true →
     ∃ e, fst (getPythPrice w mint s) = Ret (Some e) ∧
          PriceService.mint e = mint ∧ symbol e = sym ∧ price e = p ∧
          src e = pyth ∧ lastUpdated e = pythTime w) ∧
  (asked = false ∨ (∃ msg, pythData w = Throw msg) ∨
   (∃ sym feed data,
      TOKEN_PYTH_MAPPING mint = Some (sym, feed) ∧ pythData w = Ret data ∧
      ∀ pd p, data !! sym = Some pd → pyth_price pd = Some p → truthy p = false) →
   fst (getPythPrice w mint s) = Ret None).
Proof.
  cbv zeta. unfold getPythPrice.
  destruct (pythClient s), (isInitialized s); cbn [negb orb andb];
    try (split_and!; [done|done|done]).
  destruct (TOKEN_PYTH_MAPPING mint) as [[sym feed]|] eqn:Hmap; cbn [fst snd].
  - rewrite bool_decide_eq_true_2 by (by eexists). split_and!; [done| |].
    + intros sym' feed' data pd p _ [= <- <-] -> -> -> Ht. rewrite Ht.
      cbn [negb try_or_null]. eexists. by split_and!.
    + intros [?|[[msg ->]|(sym' & feed' & data & [= <- <-] & -> & Hno)]]; [done|done|].
      destruct (data !! sym) as [pd|]; [|done].
      destruct (pyth_price pd) as [p|] eqn:Hp; [|done].
      by rewrite (Hno pd p eq_refl Hp).
  - rewrite bool_decide_eq_false_2 by (by intros [? ?]). by split_and!.
Qed.

(** C6.  [getPrice] serves a cached entry younger than the expiry window
    without touching the state (so without any upstream call).  On a miss
    the Pyth source comes first: the Pyth client is asked exactly when it
    was initialized and the mint has a Pyth feed, and when its answer
    holds a truthy price for the mint's symbol, the entry built from that
    price, with source [pyth], is returned and stored under the mint, and
    Jupiter is not asked.  When Pyth gives nothing (it is not asked, the
    request throws, or there is no truthy price for the symbol), Jupiter
    is asked next, for this mint alone: its entry, if the answer has one,
    is returned and stored under the mint; otherwise the answer is [null]
    and the cache is unchanged.  An entry that [getPrice] returned is
    served again, with no further upstream call, by any later call made
    before it expires. *)
Theorem getPrice_cache_then_sources (w : world) (mint : string) (s : t) :
  (∀ c, priceCache s !! mint = Some c →
        now w - lastUpdated c < cacheExpiry s →
        getPrice w mint s = (Ret (Some c), s)) ∧
  (fresh (now w) (cacheExpiry s) (priceCache s !! mint) = None →
     let r := fst (getPrice w mint s) in
     let s' := snd (getPrice w mint s) in
     let asked := pythClient s && isInitialized s &&
                  bool_decide (is_Some (TOKEN_PYTH_MAPPING mint)) in
     (∀ sym feed data pd p,
        asked = true → TOKEN_PYTH_MAPPING mint = Some (sym, feed) →
        pythData w = Ret data → data !! sym = Some pd →
        pyth_price pd = Some p → truthy p = true →
        ∃ e, r = Ret (Some e) ∧
             PriceService.mint e = mint ∧ symbol e = sym ∧ price e = p ∧
             src e = pyth ∧ lastUpdated e = pythTime w ∧
             queries s' = queries s ++ [PythGetData] ∧
             priceCache s' = <[mint := e]> (priceCache s)) ∧
     (asked = false ∨ (∃ msg, pythData w = Throw msg) ∨
      (∃ sym feed data,
         TOKEN_PYTH_MAPPING mint = Some (sym, feed) ∧ pythData w = Ret data ∧
         ∀ pd p, data !! sym = Some pd → pyth_price pd = Some p → truthy p = false) →
      queries s' = queries s ++ (if asked then [PythGetData] else [])
                             ++ [JupiterFetch [mint]] ∧
      match jupiterResponse w [mint] with
      | Jupiter.Json data =>
          match Jupiter.lookup data mint with
          | Some item =>
              r = Ret (Some (jupiterEntry w mint item)) ∧
              priceCache s' = <[mint := jupiterEntry w mint item]> (priceCache s)
          | None => r = Ret None ∧ priceCache s' = priceCache s
          end
      | Jupiter.Failed => r = Ret None ∧ priceCache s' = priceCache s
      end)) ∧
  (∀ e, fst (getPrice w mint s) = Ret (Some e) →
     ∀ w', now w' - lastUpdated e < cacheExpiry s →
       let s' := snd (getPrice w mint s) in
       getPrice w' mint s' = (Ret (Some e), s')).
Proof.
  assert (Hhit : ∀ w0 s0 c, priceCache s0 !! mint = Some c →
            now w0 - lastUpdated c < cacheExpiry s0 →
            getPrice w0 mint s0 = (Ret (Some c), s0)).
  { intros w0 s0 c Hc Hlt. unfold getPrice.
    by rewrite (proj2 (fresh_Some _ _ _ c) (conj Hc Hlt)). }
  split_and!.
  - intros c. apply Hhit.
  - intros Hmiss. cbv zeta. unfold getPrice. rewrite Hmiss.
    destruct (getPythPrice_world w mint s) as (Hs1 & Hyes & Hno).
    destruct (getPythPrice w mint s) as [o s1]. cbn [fst snd] in *. subst s1.
    split.
    + intros sym feed data pd p Hasked Hmap Hdata Hpd Hp Ht.
      destruct (Hyes sym feed data pd p Hasked Hmap Hdata Hpd Hp Ht)
        as (e & -> & Hm & Hsym & Hprice & Hsrc & Htime).
      rewrite Hasked. exists e. cbn [fst snd queries priceCache with_priceCache log].
      by split_and!.
    + intros Hnothing. rewrite (Hno Hnothing). unfold getJupiterPrice.
      assert (queries (if pythClient s && isInitialized s &&
                          bool_decide (is_Some (TOKEN_PYTH_MAPPING mint))
                       then log PythGetData s else s)
              = queries s ++ (if pythClient s && isInitialized s &&
                                 bool_decide (is_Some (TOKEN_PYTH_MAPPING mint))
                              then [PythGetData] else []) ∧
              priceCache (if pythClient s && isInitialized s &&
                             bool_decide (is_Some (TOKEN_PYTH_MAPPING mint))
                          then log PythGetData s else s) = priceCache s)
        as [Hq Hc].
      { destruct (_ && _); cbn [queries priceCache log]; [done|].
        by rewrite app_nil_r. }
      destruct (jupiterResponse w [mint]) as [|data]; cbn [try_or_null fst snd].
      * cbn [queries priceCache log]. by rewrite Hq, Hc, <- app_assoc.
      * destruct (Jupiter.lookup data mint) as [item|]; cbn [try_or_null fst snd];
          cbn [queries priceCache log with_priceCache];
          by rewrite Hq, Hc, <- app_assoc.
  - intros e He w' Hlt s'. subst s'. apply Hhit.
    + by apply getPrice_cached.
    + assert (cacheExpiry (snd (getPrice w mint s)) = cacheExpiry s) as ->; [|done].
      unfold getPrice. destruct (fresh _ _ _); [done|].
      destruct (getPythPrice_spec w mint s) as [_ Hsp].
      destruct (getPythPrice w mint s) as [[[p|]|err] s1]; cbn [fst snd] in *.
      * by destruct Hsp as [->| ->].
      * destruct (getJupiterPrice_spec w mint s1) as [_ Hsj].
        destruct (getJupiterPrice w mint s1) as [[[j|]|err] s2]; cbn [fst snd] in *;
          subst s2; by destruct Hsp as [->| ->].
      * by destruct Hsp as [->| ->].
Qed.

(** Scenario 2: the primary source times out, the secondary answers
    150.25; the answer carries that price with source [jupiter], and a
    call 19 s later, with both sources down, is served from the cache
    without any upstream call. *)
Lemma getPrice_fallback_then_cache :
  fst (getPrice (pyth_down_jupiter_up 1000) SOL (new true)) = Ret (Some sol_quote) ∧
  queries after_fallback = [PythGetData; JupiterFetch [SOL]] ∧
  getPrice (all_down 20000) SOL after_fallback = (Ret (Some sol_quote), after_fallback).
Proof. vm_compute. by split_and!. Qed.

(** With both sources up, the Pyth price is the one returned and cached,
    and Jupiter is not asked; a mint without a feed goes to Jupiter
    alone. *)
Lemma getPrice_prefers_pyth :
  (price <$> default None (match fst (getPrice (both_up 1000) SOL (new true)) with
                           | Ret r => Some r | Throw _ => None end))
    = Some (Num (15110 # 100)) ∧
  queries (snd (getPrice (both_up 1000) SOL (new true))) = [PythGetData] ∧
  queries (snd (getPrice (both_up 1000) BONK (new true))) = [JupiterFetch [BONK]] ∧
  fst (getPrice (both_up 1000) BONK (new true)) = Ret None.
Proof. vm_compute. by split_and!. Qed.

Lemma getPrice_cache_then_sources_witness :
  (∃ e, fst (getPrice (both_up 1000) SOL (new true)) = Ret (Some e) ∧
        price e = Num (15110 # 100) ∧ src e = pyth ∧
        queries (snd (getPrice (both_up 1000) SOL (new true))) = [PythGetData]) ∧
  queries (snd (getPrice (pyth_down_jupiter_up 1000) SOL (new true)))
    = [PythGetData; JupiterFetch [SOL]] ∧
  fst (getPrice (pyth_down_jupiter_up 1000) SOL (new true)) = Ret (Some sol_quote) ∧
  now (all_down 20000) - lastUpdated sol_quote < cacheExpiry (new true) ∧
  getPrice (all_down 20000) SOL after_fallback = (Ret (Some sol_quote), after_fallback).
Proof.
  assert (fst (getPrice (pyth_down_jupiter_up 1000) SOL (new true))
          = Ret (Some sol_quote)) as H1 by (vm_compute; reflexivity).
  assert (now (all_down 20000) - lastUpdated sol_quote < cacheExpiry (new true))
    as H2 by (vm_compute; reflexivity).
  split_and!; [| |exact H1|exact H2|].
  - destruct (proj1 (proj1 (proj2 (getPrice_cache_then_sources
                                     (both_up 1000) SOL (new true))) eq_refl)
                "SOL"
                "0xef0d8b6fda2ceba41da15d4095d1da392a0d2f8ed0c6c7bc0f4cfac8c280b56d"
                {[ "SOL" := sol_product ]} sol_product (Num (15110 # 100))
                eq_refl eq_refl eq_refl eq_refl eq_refl eq_refl)
      as (e & He & _ & _ & Hp & Hs & _ & Hq & _).
    exists e. split_and!; [exact He|exact Hp|exact Hs|exact Hq].
  - exact (proj1 (proj2 (proj1 (proj2 (getPrice_cache_then_sources
                                         (pyth_down_jupiter_up 1000) SOL (new true)))
                           eq_refl)
                   (or_intror (or_introl (ex_intro _ "timeout" eq_refl))))).
  - exact (proj2 (proj2 (getPrice_cache_then_sources
                           (pyth_down_jupiter_up 1000) SOL (new true)))
             sol_quote H1 (all_down 20000) H2).
Defined.

(** *** Degradation *)

(** C7, as stated, fails for [getPrice]: with a cached entry that is
    38.8 s old (stale, but younger than twice the 30 s window) and both
    sources down, the answer is [null], not the stale entry. *)
Lemma getPrice_ignores_stale_entry :
  ¬ (∀ w mint s c,
       priceCache s !! mint = Some c →
       now w - lastUpdated c < 2 * cacheExpiry s →
       fst (getPythPrice w mint s) = Ret None →
       fst (getJupiterPrice w mint s) = Ret None →
       fst (getPrice w mint s) = Ret (Some c)).
Proof.
  intros H. specialize (H (all_down 40000) SOL after_fallback sol_quote).
  vm_compute in H. specialize (H eq_refl eq_refl eq_refl eq_refl).
  discriminate.
Qed.

Lemma tick_returns w mint s : ∃ r, fst (tick w mint s) = Ret r.
Proof.
  unfold tick. destruct (getPrice_returns w mint s) as [r Hr].
  destruct (getPrice w mint s) as [o s1]. cbn [fst] in Hr. subst o.
  destruct r; cbn; eauto.
Qed.

(** Stale or not, a cached entry plays no part once it is not fresh. *)
Lemma getPrice_all_sources_fail w mint s :
  fresh (now w) (cacheExpiry s) (priceCache s !! mint) = None →
  fst (getPythPrice w mint s) = Ret None →
  fst (getJupiterPrice w mint s) = Ret None →
  fst (getPrice w mint s) = Ret None.
Proof.
  intros Hmiss Hp Hj. unfold getPrice. rewrite Hmiss.
  rewrite (getJupiterPrice_fst w mint s (snd (getPythPrice w mint s))) in Hj.
  destruct (getPythPrice w mint s) as [o s1]. cbn [fst snd] in *. subst o.
  destruct (getJupiterPrice w mint s1) as [o s2]. cbn [fst] in Hj. by subst o.
Qed.

(** *** Batches *)

Lemma checkCache_spec now expiry cache mints : ∀ prices uncached,
  snd (checkCache now expiry cache mints prices uncached)
    = uncached ++ filter (λ m, fresh now expiry (cache !! m) = None) mints ∧
  ∀ m, fst (checkCache now expiry cache mints prices uncached) !! m =
         match (if decide (m ∈ mints) then fresh now expiry (cache !! m) else None) with
         | Some c => Some c
         | None => prices !! m
         end.
Proof.
  induction mints as [|mint rest IH]; intros prices uncached; cbn [checkCache].
  - split; [by rewrite filter_nil, app_nil_r|]. intros m.
    by rewrite if_elem_of_nil.
  - rewrite filter_cons.
    destruct (fresh now expiry (cache !! mint)) as [c|] eqn:Hf.
    + destruct (IH (<[mint := c]> prices) uncached) as [IH1 IH2].
      rewrite decide_False by done. split; [exact IH1|].
      intros m. rewrite IH2. head_or_tail m mint rest.
      * rewrite Hf. destruct (decide (mint ∈ rest)); [done|]. apply lookup_insert_eq.
      * by rewrite lookup_insert_ne.
    + destruct (IH prices (uncached ++ [mint])) as [IH1 IH2].
      rewrite decide_True by done. split; [by rewrite IH1, <- app_assoc|].
      intros m. rewrite IH2. head_or_tail m mint rest; [|done].
      rewrite Hf. by destruct (decide (mint ∈ rest)).
Qed.

Lemma collect_spec w data mints : ∀ acc,
  (NoDup (OMap.keys acc) → NoDup (OMap.keys (collect w data mints acc))) ∧
  ∀ m, OMap.get m (collect w data mints acc) =
         match (if decide (m ∈ mints) then Jupiter.lookup data m else None) with
         | Some priceData => Some (jupiterEntry w m priceData)
         | None => OMap.get m acc
         end.
Proof.
  induction mints as [|mint rest IH]; intros acc; cbn [collect].
  - split; [done|]. intros m.
    by rewrite if_elem_of_nil.
  - destruct (Jupiter.lookup data mint) as [priceData|] eqn:Hl.
    + destruct (IH (OMap.set mint (jupiterEntry w mint priceData) acc)) as [IH1 IH2].
      split; [intros Hnd; by apply IH1, OMapProps.NoDup_keys_set|].
      intros m. rewrite IH2. head_or_tail m mint rest.
      * rewrite Hl. destruct (decide (mint ∈ rest)); [done|]. apply OMapProps.get_set_eq.
      * by rewrite OMapProps.get_set_ne by done.
    + destruct (IH acc) as [IH1 IH2]. split; [exact IH1|].
      intros m. rewrite IH2. head_or_tail m mint rest; [|done].
      rewrite Hl. by destruct (decide (mint ∈ rest)).
Qed.

Lemma merge_spec jupiterPrices : ∀ prices cache,
  NoDup (OMap.keys jupiterPrices) →
  ∀ m,
    fst (merge jupiterPrices prices cache) !! m
      = match OMap.get m jupiterPrices with Some e => Some e | None => prices !! m end ∧
    snd (merge jupiterPrices prices cache) !! m
      = match OMap.get m jupiterPrices with Some e => Some e | None => cache !! m end.
Proof.
  unfold merge.
  induction jupiterPrices as [|[k v] rest IH]; intros prices cache Hnd m; [done|].
  unfold OMap.keys in Hnd. rewrite fmap_cons in Hnd. cbn [fst] in Hnd.
  apply NoDup_cons in Hnd as [Hnin Hnd].
  cbn [foldl OMap.get fst snd].
  destruct (IH (<[k := v]> prices) (<[k := v]> cache) Hnd m) as [-> ->].
  destruct (decide (k = m)) as [->|Hne].
  - rewrite (OMapProps.get_None m rest Hnin), !lookup_insert_eq. done.
  - rewrite !lookup_insert_ne by done. done.
Qed.

(** C8.  [getPrices] splits the ids into those with a fresh cache entry
    and the others.  The fresh ones are answered from the cache.  If there
    are others, exactly one upstream call is made: a single Jupiter request
    whose ids are exactly the uncached ones (none at all when every id is
    fresh, and never a Pyth call).  What that request resolves is written
    to the cache and to the result; the result holds the fresh and the
    resolved ids only, the unresolved ones are simply absent, and nothing
    is thrown. *)
Theorem getPrices_single_batch (w : world) (mints : list string) (s : t) :
  let cachedOk m := fresh (now w) (cacheExpiry s) (priceCache s !! m) in
  let uncached := filter (λ m, cachedOk m = None) mints in
  let resolved m :=
    match jupiterResponse w uncached with
    | Jupiter.Failed => None
    | Jupiter.Json data => jupiterEntry w m <$> Jupiter.lookup data m
    end in
  let s' := snd (getPrices w mints s) in
  queries s' = queries s ++
    (if decide (uncached = []) then [] else [JupiterFetch uncached]) ∧
  ∃ prices, fst (getPrices w mints s) = Ret prices ∧
    (∀ m, prices !! m =
            if decide (m ∈ mints)
            then match cachedOk m with Some c => Some c | None => resolved m end
            else None) ∧
    (∀ m, priceCache s' !! m =
            if decide (m ∈ uncached)
            then match resolved m with Some e => Some e | None => priceCache s !! m end
            else priceCache s !! m).
Proof.
  cbv zeta. unfold getPrices.
  destruct (checkCache_spec (now w) (cacheExpiry s) (priceCache s) mints ∅ [])
    as [Hunc Hprices].
  destruct (checkCache _ _ _ mints ∅ []) as [prices unc]. cbn [fst snd] in *.
  rewrite app_nil_l in Hunc.
  remember (filter (λ m, fresh (now w) (cacheExpiry s) (priceCache s !! m) = None)
              mints) as uncached eqn:Hfilter.
  subst unc.
  assert (Hin : ∀ m, m ∈ uncached ↔
            m ∈ mints ∧ fresh (now w) (cacheExpiry s) (priceCache s !! m) = None).
  { intros m. rewrite Hfilter, list_elem_of_filter. tauto. }
  clear Hfilter.
  set (resolved := λ m,
         match jupiterResponse w uncached with
         | Jupiter.Failed => None
         | Jupiter.Json data => jupiterEntry w m <$> Jupiter.lookup data m
         end).
  destruct (decide (uncached = [])) as [->|Hne].
  - cbn [fst snd]. split; [by rewrite app_nil_r|].
    exists prices. split_and!; [done| |].
    + intros m. rewrite Hprices, lookup_empty.
      destruct (decide (m ∈ mints)) as [Hm|]; [|done].
      destruct (fresh _ _ _) eqn:Hc; [done|].
      exfalso. apply (not_elem_of_nil m), Hin. done.
    + intros m. rewrite decide_False; [done|apply not_elem_of_nil].
  - set (l := match jupiterResponse w uncached with
              | Jupiter.Failed => []
              | Jupiter.Json data => collect w data uncached []
              end).
    assert (getJupiterPrices w uncached s = (Ret l, log (JupiterFetch uncached) s))
      as Hfetch.
    { unfold getJupiterPrices, l. by destruct (jupiterResponse w uncached). }
    assert (NoDup (OMap.keys l) ∧
            ∀ m, OMap.get m l = if decide (m ∈ uncached) then resolved m else None)
      as [Hnd Hget].
    { unfold l, resolved. destruct (jupiterResponse w uncached) as [|data].
      - split; [constructor|]. intros m. by destruct (decide (m ∈ uncached)).
      - destruct (collect_spec w data uncached []) as [H1 H2].
        split; [apply H1; constructor|]. intros m. rewrite H2.
        destruct (decide (m ∈ uncached)); [|done].
        by destruct (Jupiter.lookup data m). }
    pose proof (merge_spec l prices (priceCache (log (JupiterFetch uncached) s)) Hnd)
      as Hmerge.
    destruct uncached as [|u rest]; [done|]. rewrite Hfetch.
    destruct (merge l prices _) as [prices' cache']. cbn [fst snd] in *.
    split; [done|].
    exists prices'. split_and!; [done| |].
    + intros m. destruct (Hmerge m) as [-> _]. rewrite Hget, Hprices, lookup_empty.
      destruct (decide (m ∈ u :: rest)) as [Hmu|Hmu].
      * apply Hin in Hmu as [Hm Hc].
        destruct (decide (m ∈ mints)); [|done]. rewrite Hc.
        fold (resolved m). by destruct (resolved m).
      * destruct (decide (m ∈ mints)) as [Hm|]; [|done].
        destruct (fresh _ _ _) eqn:Hc; [done|]. exfalso. apply Hmu, Hin. done.
    + intros m. unfold with_priceCache. cbn [priceCache].
      destruct (Hmerge m) as [_ ->]. rewrite Hget.
      by destruct (decide (m ∈ u :: rest)).
Qed.

(** With USDC cached and fresh and SOL not, [getPrices] makes exactly one
    upstream call, for SOL only. *)
Lemma getPrices_fetches_uncached_only :
  queries (snd (getPrices (quotes_both 5000) [USDC; SOL] usdc_cached))
    = queries usdc_cached ++ [JupiterFetch [SOL]] ∧
  queries usdc_cached = [JupiterFetch [USDC]].
Proof. vm_compute. by split. Qed.

(** Scenario 3: both ids unresolvable, nothing cached: the result is the
    empty map. *)
Lemma getPrices_nothing_resolved :
  fst (getPrices (all_down 0) ["X"; "Y"] (new true)) = Ret ∅.
Proof. vm_compute. reflexivity. Qed.

(** *** Unvalidated prices *)

(** C10, as stated, fails: a Jupiter answer whose price field does not
    parse puts an entry with price [NaN] into the cache. *)
Lemma cache_holds_NaN :
  ¬ (∀ s k e, reachable s → priceCache s !! k = Some e →
              isFinite (price e) = true ∧ lt0 (price e) = false).
Proof.
  intros H.
  destruct (H (exec [GetPrice (jupiter_unparsable 0) SOL] (new false)) SOL
              (jupiterEntry (jupiter_unparsable 0) SOL (Jupiter.mkItem NaN)))
    as [Hfin _].
  - by exists false, [GetPrice (jupiter_unparsable 0) SOL].
  - vm_compute. reflexivity.
  - discriminate Hfin.
Qed.

Lemma validatePrice_accepts v n :
  WalletSecurity.validatePrice v = Ret n ↔
  v = WalletSecurity.JNumber n ∧ isFinite n = true ∧ lt0 n = false.
Proof.
  unfold WalletSecurity.validatePrice. destruct v as [x| | | | |];
    try (split; [done|by intros [? _]]).
  destruct (isFinite x) eqn:Hf; cbn [negb].
  - destruct (lt0 x) eqn:Hl.
    + split; [done|]. intros (Heq & _ & Hl'). simplify_eq. congruence.
    + split; [intros Heq; by simplify_eq|]. intros (Heq & _). by simplify_eq.
  - split; [done|]. intros (Heq & Hf' & _). simplify_eq. congruence.
Qed.

Lemma getPythPrice_truthy w mint s p :
  fst (getPythPrice w mint s) = Ret (Some p) →
  truthy (price p) = true ∧ src p = pyth.
Proof.
  unfold getPythPrice.
  destruct (negb (pythClient s) || negb (isInitialized s)); [done|].
  destruct (TOKEN_PYTH_MAPPING mint) as [[sym feed]|]; [|done].
  cbn [fst]. destruct (pythData w) as [data|e]; [|done].
  destruct (data !! sym) as [pd|]; [|done].
  destruct (pyth_price pd) as [x|]; [|done].
  destruct (truthy x) eqn:Hx; [|done].
  cbn. intros Heq. by simplify_eq.
Qed.

(** C10, amended.  [validatePrice] accepts exactly the finite,
    non-negative numbers, returns them unchanged and throws on anything
    else; but nothing validates a price on its way into the price cache.
    The entry [getPrice] caches from a Jupiter answer carries whatever
    number the price field parses to, and an entry taken from Pyth carries
    any non-zero number that is not [NaN]. *)
Theorem prices_cached_unvalidated (w : world) (mint : string) (s : t)
    (data : option (gmap string Jupiter.item)) (priceData : Jupiter.item)
    (v : WalletSecurity.jsvalue) (n : number) :
  (WalletSecurity.validatePrice v = Ret n ↔
     v = WalletSecurity.JNumber n ∧ isFinite n = true ∧ lt0 n = false) ∧
  (fresh (now w) (cacheExpiry s) (priceCache s !! mint) = None →
   fst (getPythPrice w mint s) = Ret None →
   jupiterResponse w [mint] = Jupiter.Json data →
   Jupiter.lookup data mint = Some priceData →
   ∃ e, priceCache (snd (getPrice w mint s)) !! mint = Some e ∧
        fst (getPrice w mint s) = Ret (Some e) ∧
        price e = Jupiter.price priceData ∧ src e = jupiter) ∧
  (∀ p, fst (getPythPrice w mint s) = Ret (Some p) →
        truthy (price p) = true ∧ src p = pyth).
Proof.
  split_and!.
  - apply validatePrice_accepts.
  - intros Hmiss Hp Hresp Hitem.
    assert (fst (getPrice w mint s) = Ret (Some (jupiterEntry w mint priceData))) as Hr.
    { unfold getPrice. rewrite Hmiss.
      destruct (getPythPrice w mint s) as [o s1]. cbn [fst] in Hp. subst o.
      unfold getJupiterPrice. rewrite Hresp, Hitem. done. }
    exists (jupiterEntry w mint priceData). split_and!; [|done|done|done].
    by apply getPrice_cached.
  - apply getPythPrice_truthy.
Qed.

Lemma prices_cached_unvalidated_witness :
  ∃ e, priceCache (snd (getPrice (jupiter_unparsable 0) SOL (new false))) !! SOL = Some e ∧
       fst (getPrice (jupiter_unparsable 0) SOL (new false)) = Ret (Some e) ∧
       price e = NaN ∧ src e = jupiter.
Proof.
  apply (proj1 (proj2 (prices_cached_unvalidated (jupiter_unparsable 0) SOL (new false)
           (Some {[ SOL := Jupiter.mkItem NaN ]}) (Jupiter.mkItem NaN)
           (WalletSecurity.JNumber NaN) NaN)));
    vm_compute; reflexivity.
Defined.

End PriceServiceProps.

(** ** TokenService.getTokenPrices and the failure policy *)

Module TokenServiceProps.
Import TokenService ListFacts.

Lemma token_fresh_Some now expiry o c :
  fresh now expiry o = Some c ↔ o = Some c ∧ now - lastUpdated c < expiry.
Proof.
  unfold fresh. destruct o as [c'|]; [|by split; [|intros [? _]]].
  destruct (Z.ltb_spec (now - lastUpdated c') expiry); split.
  - intros Heq. by simplify_eq.
  - intros [Heq _]. by simplify_eq.
  - done.
  - intros [Heq ?]. simplify_eq. lia.
Qed.

(** The [catch] block keeps, of the requested ids, the cached entries
    younger than twice the expiry. *)
Lemma cachedPrices_lookup now expiry cache mints : ∀ acc m,
  cachedPrices now expiry cache mints acc !! m =
    match (if decide (m ∈ mints) then fresh now (expiry * 2) (cache !! m) else None) with
    | Some c => Some c
    | None => acc !! m
    end.
Proof.
  induction mints as [|mint rest IH]; intros acc m; cbn [cachedPrices].
  - by rewrite if_elem_of_nil.
  - destruct (fresh now (expiry * 2) (cache !! mint)) as [c|] eqn:Hf;
      rewrite IH; head_or_tail m mint rest; rewrite ?Hf.
    + destruct (decide (mint ∈ rest)); [done|]. apply lookup_insert_eq.
    + by rewrite lookup_insert_ne.
    + by destruct (decide (mint ∈ rest)).
    + done.
Qed.

Lemma tryBlock_throw w mints s s1 msg :
  tryBlock w mints s = (Throw msg, s1) →
  s1 = s ∧
  let uncached := snd (checkCache (now w) (cacheExpiry s) (priceCache s) mints ∅) in
  uncached ≠ [] ∧ fetchJSON w uncached = Jupiter.Failed.
Proof.
  unfold tryBlock.
  destruct (checkCache _ _ _ mints ∅) as [prices uncached]. cbn [snd].
  destruct uncached as [|u rest]; [done|].
  destruct (fetchJSON w (u :: rest)) as [|data] eqn:Hfetch.
  - intros [= _ <-]. done.
  - destruct (store _ _ _ _ _). done.
Qed.

Lemma getTokenPrices_returns w mints s :
  ∃ prices, fst (getTokenPrices w mints s) = Ret prices.
Proof.
  unfold getTokenPrices. destruct (tryBlock w mints s) as [[prices|msg] s1]; eauto.
Qed.

Lemma getTokenPrices_failed w mints s :
  let uncached := snd (checkCache (now w) (cacheExpiry s) (priceCache s) mints ∅) in
  uncached ≠ [] → fetchJSON w uncached = Jupiter.Failed →
  getTokenPrices w mints s
    = (Ret (cachedPrices (catchTime w) (cacheExpiry s) (priceCache s) mints ∅), s).
Proof.
  intros uncached Hne Hfail. subst uncached.
  unfold getTokenPrices, tryBlock.
  destruct (checkCache _ _ _ mints ∅) as [prices uncached]. cbn [snd] in *.
  destruct uncached as [|u rest]; [done|]. by rewrite Hfail.
Qed.

End TokenServiceProps.

Module DegradationProps.

(** C7, amended.  Neither price reader aborts on a failing source.
    No failure of a source makes [PriceService.getPrice] or the
    subscription tick throw; without a fresh cache entry [getPrice] falls
    through from Pyth to Jupiter and answers [null] when both give nothing,
    whether or not a stale entry is cached.  The stale fallback belongs to
    [TokenService.getTokenPrices]: it never throws, and when its one fetch
    fails it answers, for the requested ids, exactly the cached entries
    younger than twice its expiry window, leaving its state unchanged. *)
Theorem price_fetch_degrades
    (w : PriceService.world) (mint : string) (s : PriceService.t)
    (tw : TokenService.world) (mints : list string) (ts : TokenService.t) :
  (∃ r, fst (PriceService.getPrice w mint s) = Ret r) ∧
  (∃ r, fst (PriceService.tick w mint s) = Ret r) ∧
  (PriceService.fresh (PriceService.now w) (PriceService.cacheExpiry s)
     (PriceService.priceCache s !! mint) = None →
   fst (PriceService.getPythPrice w mint s) = Ret None →
   fst (PriceService.getJupiterPrice w mint s) = Ret None →
   fst (PriceService.getPrice w mint s) = Ret None) ∧
  (∃ prices, fst (TokenService.getTokenPrices tw mints ts) = Ret prices) ∧
  (let uncached :=
     snd (TokenService.checkCache (TokenService.now tw) (TokenService.cacheExpiry ts)
            (TokenService.priceCache ts) mints ∅) in
   uncached ≠ [] → TokenService.fetchJSON tw uncached = Jupiter.Failed →
   ∃ prices,
     TokenService.getTokenPrices tw mints ts = (Ret prices, ts) ∧
     ∀ m c, prices !! m = Some c ↔
            m ∈ mints ∧ TokenService.priceCache ts !! m = Some c ∧
            TokenService.catchTime tw - TokenService.lastUpdated c
              < TokenService.cacheExpiry ts * 2).
Proof.
  split_and!.
  - apply PriceServiceProps.getPrice_returns.
  - apply PriceServiceProps.tick_returns.
  - apply PriceServiceProps.getPrice_all_sources_fail.
  - apply TokenServiceProps.getTokenPrices_returns.
  - intros uncached Hne Hfail. eexists. split.
    + by apply TokenServiceProps.getTokenPrices_failed.
    + intros m c. rewrite TokenServiceProps.cachedPrices_lookup, lookup_empty.
      destruct (decide (m ∈ mints)) as [Hin|Hnin].
      * destruct (TokenService.fresh _ _ _) as [c'|] eqn:Hf.
        -- apply TokenServiceProps.token_fresh_Some in Hf as [Hc Hlt].
           split; [intros [= <-]; done|]. intros (_ & Hc' & _). congruence.
        -- split; [done|]. intros (_ & Hc & Hlt).
           assert (TokenService.fresh (TokenService.catchTime tw)
                     (TokenService.cacheExpiry ts * 2)
                     (TokenService.priceCache ts !! m) = Some c) as Hs
             by (by apply TokenServiceProps.token_fresh_Some).
           congruence.
      * split; [done|]. by intros [? _].
Qed.

(** A cached price six minutes old (the window is five) is what
    [getTokenPrices] answers when its fetch fails. *)
Lemma price_fetch_degrades_witness :
  (∃ prices,
     TokenService.getTokenPrices (TokenService.fetch_down 360000)
       [TokenService.USDC] TokenService.warm = (Ret prices, TokenService.warm) ∧
     prices !! TokenService.USDC = Some TokenService.usdc_quote) ∧
  fst (PriceService.getPrice (PriceService.all_down 40000) PriceService.SOL
         PriceService.after_fallback) = Ret None.
Proof.
  split.
  - destruct (price_fetch_degrades (PriceService.all_down 0) PriceService.SOL
                (PriceService.new true) (TokenService.fetch_down 360000)
                [TokenService.USDC] TokenService.warm)
      as (_ & _ & _ & _ & H).
    destruct H as [prices [Heq Hl]]; [by vm_compute|by vm_compute|].
    exists prices. split; [exact Heq|]. apply Hl. split_and!.
    + left.
    + vm_compute. reflexivity.
    + vm_compute. reflexivity.
  - apply (price_fetch_degrades (PriceService.all_down 40000) PriceService.SOL
             PriceService.after_fallback (TokenService.fetch_down 360000)
             [TokenService.USDC] TokenService.warm); by vm_compute.
Defined.

End DegradationProps.

(** ** PriceService: shared polling timers *)

Module PriceSubscriptionProps.
Import PriceService.

Lemma timer_inv_new pythOk : timer_inv (new pythOk).
Proof.
  unfold timer_inv, new, timersFor; cbn. split_and!; try done.
  intros m. rewrite !lookup_empty. split; intros [? ?]; done.
Qed.

(** The bookkeeping is all that [timer_inv] looks at. *)
Lemma timer_inv_same s s' : same_timers s s' → timer_inv s → timer_inv s'.
Proof.
  intros (Hs & Hu & Hr & Hn). unfold timer_inv, timersFor.
  by rewrite Hs, Hu, Hr, Hn.
Qed.

Lemma getPrice_same w mint s : same_timers s (snd (getPrice w mint s)).
Proof.
  unfold getPrice. destruct (fresh _ _ _); [done|].
  unfold getPythPrice, getJupiterPrice.
  destruct (negb (pythClient s) || negb (isInitialized s)).
  - cbn. by destruct (try_or_null _) as [[?|]|].
  - destruct (TOKEN_PYTH_MAPPING mint) as [[sym feed]|].
    + destruct (try_or_null _) as [[?|]|]; cbn; try done.
      by destruct (try_or_null _) as [[?|]|].
    + cbn. by destruct (try_or_null _) as [[?|]|].
Qed.

Lemma getPrices_same w mints s : same_timers s (snd (getPrices w mints s)).
Proof.
  unfold getPrices. destruct (checkCache _ _ _ mints ∅ []) as [prices [|u rest]]; [done|].
  unfold getJupiterPrices.
  destruct (jupiterResponse w (u :: rest)); by destruct (merge _ _ _).
Qed.

Lemma tick_same w mint s : same_timers s (snd (tick w mint s)).
Proof.
  unfold tick. pose proof (getPrice_same w mint s) as H.
  by destruct (getPrice w mint s) as [[[?|]|] s1].
Qed.

(** What [subscribe] does to the registry. *)
Lemma subscribe_subscriptions mint callback interval s m :
  subscriptions (snd (subscribe mint callback interval s)) !! m =
    if decide (m = mint)
    then Some (subscribersOf mint s ++ [fst (subscribe mint callback interval s)])
    else subscriptions s !! m.
Proof.
  assert (Hfst : fst (subscribe mint callback interval s) =
                 {| sub_object := nextObject s; sub_mint := mint;
                    sub_callback := callback; sub_interval := interval |}).
  { unfold subscribe. by destruct (updateIntervals s !! mint). }
  rewrite Hfst. unfold subscribersOf.
  assert (subscriptions (snd (subscribe mint callback interval s)) =
          alter (λ subs, subs ++ [{| sub_object := nextObject s; sub_mint := mint;
                     sub_callback := callback; sub_interval := interval |}]) mint
            (match subscriptions s !! mint with
             | None => <[mint := []]> (subscriptions s)
             | Some _ => subscriptions s
             end)) as ->.
  { unfold subscribe. by destruct (updateIntervals s !! mint). }
  destruct (decide (m = mint)) as [->|Hne].
  - rewrite lookup_alter_eq. destruct (subscriptions s !! mint) as [subs|] eqn:Hs.
    + by rewrite Hs.
    + by rewrite lookup_insert_eq.
  - rewrite lookup_alter_ne by done.
    destruct (subscriptions s !! mint); [done|]. by rewrite lookup_insert_ne.
Qed.

Lemma timersFor_snoc m (r : list (Z * string)) intervalId mint :
  fst <$> filter (λ tm, snd tm = m) (r ++ [(intervalId, mint)]) =
    (fst <$> filter (λ tm, snd tm = m) r) ++ (if decide (mint = m) then [intervalId] else []).
Proof.
  rewrite filter_app, fmap_app. f_equal.
  rewrite filter_cons, filter_nil. cbn [snd].
  by destruct (decide (mint = m)).
Qed.

Lemma subscribe_inv mint callback interval s :
  timer_inv s → timer_inv (snd (subscribe mint callback interval s)).
Proof.
  intros (I1 & I2 & I3 & I4 & I5 & I6).
  pose proof (subscribe_subscriptions mint callback interval s) as Hsubs.
  unfold timer_inv, timersFor in *.
  split; [|split].
  { intros m subs. rewrite Hsubs. destruct (decide (m = mint)); [|apply I1].
    intros [= <-]. by destruct (subscribersOf mint s). }
  { intros m. rewrite Hsubs. unfold subscribe.
    destruct (updateIntervals s !! mint) as [i0|] eqn:Hu; cbn [snd updateIntervals].
    - destruct (decide (m = mint)) as [->|]; [|apply I2]. rewrite Hu. by split.
    - destruct (decide (m = mint)) as [->|].
      + rewrite lookup_insert_eq. by split.
      + rewrite lookup_insert_ne by done. apply I2. }
  unfold subscribe.
  destruct (updateIntervals s !! mint) as [i0|] eqn:Hu;
    cbn [snd updateIntervals running nextTimer]; [done|].
  split_and!.
  - intros m i. destruct (decide (m = mint)) as [->|].
    + rewrite lookup_insert_eq. intros [= <-]. lia.
    + rewrite lookup_insert_ne by done. intros H. apply I3 in H. lia.
  - intros m m' i. destruct (decide (m = mint)) as [->|], (decide (m' = mint)) as [->|];
      rewrite ?lookup_insert_eq, ?lookup_insert_ne by done; try done.
    + intros [= <-] H. apply I3 in H. lia.
    + intros H [= <-]. apply I3 in H. lia.
    + apply I4.
  - intros m. rewrite timersFor_snoc, I5. destruct (decide (mint = m)) as [->|].
    + by rewrite Hu, lookup_insert_eq.
    + rewrite lookup_insert_ne by done. by rewrite app_nil_r.
  - lia.
Qed.

(** What the [unsubscribe] closure does to the registry. *)
Lemma unsubscribe_subscriptions h s m :
  subscriptions (unsubscribe h s) !! m =
    if decide (m = sub_mint h)
    then match remaining h s with [] => None | _ :: _ => Some (remaining h s) end
    else subscriptions s !! m.
Proof.
  unfold unsubscribe, remaining, subscribersOf.
  destruct (indexOf h (default [] (subscriptions s !! sub_mint h))) as [index|] eqn:Hidx.
  - assert (is_Some (subscriptions s !! sub_mint h)) as [subs Hs].
    { destruct (subscriptions s !! sub_mint h); [by eexists|]. by cbn in Hidx. }
    rewrite Hs in *. cbn [from_option] in *. unfold id in *.
    destruct (decide (length (base.delete index subs) = O)) as [Hlen|Hlen].
    + destruct (match updateIntervals s !! sub_mint h with
                | Some i => _ | None => _ end) as [iv tms].
      cbn [subscriptions]. destruct (decide (m = sub_mint h)) as [->|Hne].
      * rewrite lookup_delete_eq. by destruct (base.delete index subs).
      * by rewrite lookup_delete_ne, lookup_alter_ne.
    + cbn [subscriptions]. destruct (decide (m = sub_mint h)) as [->|Hne].
      * rewrite lookup_alter_eq, Hs. cbn. by destruct (base.delete index subs).
      * by rewrite lookup_alter_ne.
  - destruct (decide (length (default [] (subscriptions s !! sub_mint h)) = O))
      as [Hlen|Hlen].
    + destruct (match updateIntervals s !! sub_mint h with
                | Some i => _ | None => _ end) as [iv tms].
      cbn [subscriptions]. destruct (decide (m = sub_mint h)) as [->|Hne].
      * rewrite lookup_delete_eq. by destruct (default [] _).
      * by rewrite lookup_delete_ne.
    + cbn [subscriptions]. destruct (decide (m = sub_mint h)) as [->|Hne]; [|done].
      destruct (subscriptions s !! sub_mint h) as [subs|]; [|done].
      cbn in *. by destruct subs.
Qed.

(** While subscribers remain, the closure touches neither the timer table
    nor the running timers. *)
Lemma unsubscribe_keeps_timer h s :
  remaining h s ≠ [] →
  updateIntervals (unsubscribe h s) = updateIntervals s ∧
  running (unsubscribe h s) = running s ∧
  nextTimer (unsubscribe h s) = nextTimer s.
Proof.
  unfold unsubscribe, remaining, subscribersOf. intros Hrem.
  destruct (indexOf h (default [] (subscriptions s !! sub_mint h))) as [index|].
  - rewrite decide_False; [done|]. intros Hlen. apply Hrem.
    by apply nil_length_inv.
  - rewrite decide_False; [done|]. intros Hlen. apply Hrem.
    by apply nil_length_inv.
Qed.

(** With the last subscriber gone, the recorded timer (if any, and ids are
    never 0) is cleared and forgotten. *)
Lemma unsubscribe_last h s :
  remaining h s = [] →
  nextTimer (unsubscribe h s) = nextTimer s ∧
  match updateIntervals s !! sub_mint h with
  | Some intervalId =>
      if decide (intervalId = 0)
      then updateIntervals (unsubscribe h s) = updateIntervals s ∧
           running (unsubscribe h s) = running s
      else updateIntervals (unsubscribe h s) = base.delete (sub_mint h) (updateIntervals s) ∧
           running (unsubscribe h s) = clearInterval intervalId (running s)
  | None => updateIntervals (unsubscribe h s) = updateIntervals s ∧
            running (unsubscribe h s) = running s
  end.
Proof.
  unfold unsubscribe, remaining, subscribersOf. intros Hrem.
  destruct (indexOf h (default [] (subscriptions s !! sub_mint h))) as [index|];
    rewrite Hrem; cbn [length]; rewrite decide_True by done;
    (destruct (updateIntervals s !! sub_mint h) as [i0|];
       [destruct (decide (i0 = 0))|]; done).
Qed.

Lemma filter_fst_commute m intervalId (r : list (Z * string)) :
  fst <$> filter (λ tm, snd tm = m) (clearInterval intervalId r) =
    filter (λ i, i ≠ intervalId) (fst <$> filter (λ tm, snd tm = m) r).
Proof.
  unfold clearInterval. induction r as [|[i k] r IH]; [done|].
  rewrite (filter_cons (λ tm : Z * string, fst tm ≠ intervalId)).
  rewrite (filter_cons (λ tm : Z * string, snd tm = m) (i, k) r).
  cbn [fst snd].
  destruct (decide (i ≠ intervalId)) as [Hi|Hi], (decide (k = m)) as [Hk|Hk].
  - rewrite filter_cons. cbn [snd]. rewrite decide_True by done.
    rewrite !fmap_cons. cbn [fst]. rewrite filter_cons, decide_True by done.
    by rewrite IH.
  - rewrite filter_cons. cbn [snd]. by rewrite decide_False by done.
  - rewrite fmap_cons. cbn [fst]. by rewrite filter_cons, decide_False by done.
  - done.
Qed.

Lemma remaining_nonempty_registered h s :
  remaining h s ≠ [] → is_Some (subscriptions s !! sub_mint h).
Proof.
  unfold remaining, subscribersOf.
  destruct (subscriptions s !! sub_mint h); [by eexists|]. by cbn.
Qed.

Lemma unsubscribe_inv h s : timer_inv s → timer_inv (unsubscribe h s).
Proof.
  intros (I1 & I2 & I3 & I4 & I5 & I6).
  pose proof (unsubscribe_subscriptions h s) as Hsubs.
  destruct (decide (remaining h s = [])) as [Hrem|Hrem].
  - destruct (unsubscribe_last h s Hrem) as [Hn Hlast]. rewrite Hrem in Hsubs.
    destruct (updateIntervals s !! sub_mint h) as [i0|] eqn:Hu.
    + rewrite decide_False in Hlast by (apply I3 in Hu; lia).
      destruct Hlast as [Hiv Hrun].
      unfold timer_inv, timersFor. rewrite Hn, Hiv, Hrun. split_and!; [| | | | |done].
      * intros m subs. rewrite Hsubs. destruct (decide (m = sub_mint h)); [done|apply I1].
      * intros m. rewrite Hsubs. destruct (decide (m = sub_mint h)) as [->|].
        -- rewrite lookup_delete_eq. split; intros [? ?]; done.
        -- rewrite lookup_delete_ne by done. apply I2.
      * intros m i. rewrite lookup_delete_Some. intros [_ H]. by apply I3 in H.
      * intros m m' i. rewrite !lookup_delete_Some. intros [_ H] [_ H']. by eapply I4.
      * intros m. rewrite filter_fst_commute. fold (timersFor m s). rewrite I5.
        destruct (decide (m = sub_mint h)) as [->|Hne].
        -- rewrite Hu, lookup_delete_eq. by rewrite filter_cons, decide_False by tauto.
        -- rewrite lookup_delete_ne by done.
           destruct (updateIntervals s !! m) as [i|] eqn:Hm; [|done].
           rewrite filter_cons, decide_True; [done|].
           intros ->. apply Hne. by eapply I4.
    + destruct Hlast as [Hiv Hrun].
      unfold timer_inv, timersFor. rewrite Hn, Hiv, Hrun. split_and!; try done.
      * intros m subs. rewrite Hsubs. destruct (decide (m = sub_mint h)); [done|apply I1].
      * intros m. rewrite Hsubs. destruct (decide (m = sub_mint h)) as [->|]; [|apply I2].
        rewrite Hu. split; intros [? ?]; done.
  - destruct (unsubscribe_keeps_timer h s Hrem) as (Hiv & Hrun & Hn).
    unfold timer_inv, timersFor. rewrite Hn, Hiv, Hrun. split_and!; try done.
    + intros m subs. rewrite Hsubs. destruct (decide (m = sub_mint h)); [|apply I1].
      destruct (remaining h s); [done|]. by intros [= <-].
    + intros m. rewrite Hsubs. destruct (decide (m = sub_mint h)) as [->|]; [|apply I2].
      rewrite I2. pose proof (remaining_nonempty_registered h s Hrem) as Hreg.
      destruct (remaining h s); [done|]. split; [by eexists|done].
Qed.

Lemma foldr_clearInterval m (l : list (string * Z)) (r : list (Z * string)) :
  fst <$> filter (λ tm, snd tm = m)
            (foldr (λ entry acc, clearInterval (snd entry) acc) r l) =
    filter (λ i, i ∉ (snd <$> l)) (fst <$> filter (λ tm, snd tm = m) r).
Proof.
  induction l as [|[k i0] l IH]; cbn [foldr snd].
  - symmetry. induction (fst <$> filter (λ tm, snd tm = m) r) as [|x xs IHx]; [done|].
    rewrite filter_cons, decide_True; [by rewrite IHx|apply not_elem_of_nil].
  - rewrite filter_fst_commute, IH, list_filter_filter.
    apply list_filter_iff. intros x. rewrite fmap_cons. cbn [snd].
    rewrite not_elem_of_cons. tauto.
Qed.

Lemma destroy_inv s : timer_inv s → timer_inv (destroy s).
Proof.
  intros (I1 & I2 & I3 & I4 & I5 & I6).
  unfold timer_inv, destroy, timersFor. cbn. split_and!; try done.
  - intros m. rewrite !lookup_empty. split; intros [? ?]; done.
  - intros m. rewrite lookup_empty, foldr_clearInterval. fold (timersFor m s).
    rewrite I5. destruct (updateIntervals s !! m) as [i|] eqn:Hm; [|done].
    rewrite filter_cons, decide_False; [done|]. intros Hnin. apply Hnin.
    apply list_elem_of_fmap. exists (m, i). split; [done|].
    by apply elem_of_map_to_list.
Qed.

Lemma step_inv a s : timer_inv s → timer_inv (step a s).
Proof.
  intros Hinv. destruct a as [w mint|w mints|mint callback interval|h|w mint|];
    cbn [step].
  - eapply timer_inv_same; [apply getPrice_same|done].
  - eapply timer_inv_same; [apply getPrices_same|done].
  - by apply subscribe_inv.
  - by apply unsubscribe_inv.
  - destruct (timersFor mint s); [done|].
    eapply timer_inv_same; [apply tick_same|done].
  - by apply destroy_inv.
Qed.

Lemma reachable_inv s : reachable s → timer_inv s.
Proof.
  intros (pythOk & actions & ->).
  induction actions as [|a actions IH] using rev_ind.
  - apply timer_inv_new.
  - unfold exec in *. rewrite foldl_snoc. by apply step_inv.
Qed.

Lemma reachable_step a s : reachable s → reachable (step a s).
Proof.
  intros (pythOk & actions & ->). exists pythOk, (actions ++ [a]).
  unfold exec. by rewrite foldl_snoc.
Qed.

(** One timer for a mint with subscribers, none otherwise. *)
Lemma timer_inv_count s mint :
  timer_inv s →
  length (timersFor mint s) = match subscribersOf mint s with [] => O | _ :: _ => 1%nat end.
Proof.
  intros (I1 & I2 & I3 & I4 & I5 & I6). rewrite I5. unfold subscribersOf.
  specialize (I2 mint). specialize (I1 mint).
  destruct (updateIntervals s !! mint) as [i|], (subscriptions s !! mint) as [subs|];
    cbn.
  - specialize (I1 subs eq_refl). by destruct subs.
  - destruct (proj1 I2) as [? ?]; [by eexists|done].
  - destruct (proj2 I2) as [? ?]; [by eexists|done].
  - done.
Qed.

Lemma subscribe_handle mint callback interval s :
  fst (subscribe mint callback interval s) =
    {| sub_object := nextObject s; sub_mint := mint;
       sub_callback := callback; sub_interval := interval |} ∧
  nextObject (snd (subscribe mint callback interval s)) = nextObject s + 1.
Proof. unfold subscribe. by destruct (updateIntervals s !! mint). Qed.

Lemma subscribe_subscribers mint callback interval s :
  subscribersOf mint (snd (subscribe mint callback interval s)) =
    subscribersOf mint s ++ [fst (subscribe mint callback interval s)].
Proof.
  unfold subscribersOf at 1. rewrite subscribe_subscriptions.
  by rewrite decide_True.
Qed.

(** A second subscriber starts no timer. *)
Lemma subscribe_shares_timer mint callback interval s :
  is_Some (updateIntervals s !! mint) →
  running (snd (subscribe mint callback interval s)) = running s.
Proof. intros [i Hi]. unfold subscribe. by rewrite Hi. Qed.

Lemma unsubscribe_subscribers h s :
  subscribersOf (sub_mint h) (unsubscribe h s) = remaining h s.
Proof.
  unfold subscribersOf at 1. rewrite unsubscribe_subscriptions.
  rewrite decide_True by done. by destruct (remaining h s).
Qed.

(** C9.  In every reachable state a mint has exactly one running polling
    timer if it has at least one subscriber, and none otherwise.  Starting
    from a mint without subscribers: a second [subscribe] for the mint
    starts no further timer; unsubscribing the first callback leaves the
    running timers untouched and a tick that resolves a price invokes the
    second callback (and only it); unsubscribing the second callback too
    stops the timer and removes it from the table. *)
Theorem shared_polling_timer (s : t) (mint : string) (cb1 cb2 : nat) (i1 i2 : Z) :
  reachable s →
  length (timersFor mint s)
    = match subscribersOf mint s with [] => O | _ :: _ => 1%nat end ∧
  (subscribersOf mint s = [] →
   let h1 := fst (subscribe mint cb1 i1 s) in
   let s1 := snd (subscribe mint cb1 i1 s) in
   let h2 := fst (subscribe mint cb2 i2 s1) in
   let s2 := snd (subscribe mint cb2 i2 s1) in
   let s3 := unsubscribe h1 s2 in
   let s4 := unsubscribe h2 s3 in
   length (timersFor mint s1) = 1%nat ∧
   timersFor mint s2 = timersFor mint s1 ∧
   subscribersOf mint s2 = [h1; h2] ∧
   running s3 = running s2 ∧
   subscribersOf mint s3 = [h2] ∧
   (∀ w p, fst (getPrice w mint s3) = Ret (Some p) →
           fst (tick w mint s3) = Ret [(cb2, p)]) ∧
   timersFor mint s4 = [] ∧
   updateIntervals s4 !! mint = None ∧
   subscribersOf mint s4 = []).
Proof.
  intros Hreach. split; [by apply timer_inv_count, reachable_inv|].
  intros Hnone h1 s1 h2 s2 s3 s4.
  assert (reachable s1) as Hr1 by apply (reachable_step (Subscribe mint cb1 i1) s Hreach).
  assert (reachable s2) as Hr2 by apply (reachable_step (Subscribe mint cb2 i2) s1 Hr1).
  assert (reachable s3) as Hr3 by apply (reachable_step (Unsubscribe h1) s2 Hr2).
  assert (reachable s4) as Hr4 by apply (reachable_step (Unsubscribe h2) s3 Hr3).
  destruct (subscribe_handle mint cb1 i1 s) as [Hh1 Hn1].
  destruct (subscribe_handle mint cb2 i2 s1) as [Hh2 Hn2].
  fold h1 in Hh1. fold s1 in Hn1, Hh2, Hn2. fold h2 in Hh2.
  assert (subscribersOf mint s1 = [h1]) as Hs1.
  { unfold s1, h1. by rewrite subscribe_subscribers, Hnone. }
  assert (subscribersOf mint s2 = [h1; h2]) as Hs2.
  { unfold s2, h2. by rewrite subscribe_subscribers, Hs1. }
  assert (sub_mint h1 = mint) as Hm1 by (by rewrite Hh1).
  assert (sub_mint h2 = mint) as Hm2 by (by rewrite Hh2).
  assert (remaining h1 s2 = [h2]) as Hrem1.
  { unfold remaining. rewrite Hm1, Hs2. cbn [indexOf].
    by rewrite decide_True by done. }
  assert (subscribersOf mint s3 = [h2]) as Hs3.
  { unfold s3. rewrite <- Hm1 at 1. by rewrite unsubscribe_subscribers. }
  assert (remaining h2 s3 = []) as Hrem2.
  { unfold remaining. rewrite Hm2, Hs3. cbn [indexOf].
    by rewrite decide_True by done. }
  assert (subscribersOf mint s4 = []) as Hs4.
  { unfold s4. rewrite <- Hm2 at 1. by rewrite unsubscribe_subscribers. }
  split_and!.
  - by rewrite (timer_inv_count s1 mint (reachable_inv _ Hr1)), Hs1.
  - unfold timersFor, s2. rewrite subscribe_shares_timer; [done|].
    destruct (reachable_inv _ Hr1) as (_ & I2 & _). apply I2.
    unfold subscribersOf in Hs1. destruct (subscriptions s1 !! mint); [by eexists|done].
  - exact Hs2.
  - apply unsubscribe_keeps_timer. by rewrite Hrem1.
  - exact Hs3.
  - intros w p Hp. unfold tick.
    destruct (getPrice_same w mint s3) as [Hsub _].
    destruct (getPrice w mint s3) as [o s']. cbn [fst snd] in *. subst o.
    cbn [fst]. rewrite Hsub. fold (subscribersOf mint s3). rewrite Hs3.
    cbn. by rewrite Hh2.
  - apply nil_length_inv.
    by rewrite (timer_inv_count s4 mint (reachable_inv _ Hr4)), Hs4.
  - destruct (reachable_inv _ Hr4) as (I1 & I2 & _).
    destruct (updateIntervals s4 !! mint) as [i|] eqn:Hu; [|done].
    destruct (proj1 (I2 mint)) as [subs Hsubs]; [by rewrite Hu; eexists|].
    specialize (I1 _ _ Hsubs). unfold subscribersOf in Hs4. rewrite Hsubs in Hs4.
    done.
  - exact Hs4.
Qed.

(** A fresh service and two subscribers of SOL. *)
Lemma shared_polling_timer_witness :
  reachable (new true) ∧ subscribersOf SOL (new true) = [] ∧
  let s1 := snd (subscribe SOL 1 30000 (new true)) in
  let s2 := snd (subscribe SOL 2 30000 s1) in
  length (timersFor SOL s1) = 1%nat ∧ timersFor SOL s2 = timersFor SOL s1.
Proof.
  assert (reachable (new true)) as Hr by (by exists true, []).
  assert (subscribersOf SOL (new true) = []) as Hs by reflexivity.
  split_and!; [exact Hr|exact Hs|].
  destruct (shared_polling_timer (new true) SOL 1 2 30000 30000 Hr) as [_ H].
  destruct (H Hs) as (H1 & H2 & _). by split.
Defined.

End PriceSubscriptionProps.


(** * Further properties of the code *)

(** ** RateLimiter: the derived queries *)

Module RateLimiterQueries.
Import RateLimiter.

Lemma prune_idem now rl :
  filter (λ callTime, now - callTime < timeWindow rl) (prune now rl) = prune now rl.
Proof. unfold prune. by apply list_filter_filter_l. Qed.

Lemma prune_snoc now kept m w :
  0 < w →
  prune now {| calls := kept ++ [now]; maxCalls := m; timeWindow := w |}
    = filter (λ callTime, now - callTime < w) kept ++ [now].
Proof.
  intros Hw. unfold prune. cbn [calls timeWindow].
  by rewrite filter_app, filter_cons_True, filter_nil by lia.
Qed.

(** Whatever the clock does, a limiter started empty never retains more
    than its budget. *)
Lemma run_bounded maxC w times : ∀ rl,
  maxCalls rl = maxC → timeWindow rl = w →
  Z.of_nat (length (calls rl)) <= maxC →
  maxCalls (snd (run times rl)) = maxC ∧ timeWindow (snd (run times rl)) = w ∧
  Z.of_nat (length (calls (snd (run times rl)))) <= maxC.
Proof.
  induction times as [|now rest IH]; intros rl Hm Hw Hlen; [done|].
  cbn [run]. destruct (canMakeCall now rl) as [ok rl1] eqn:Hc.
  specialize (IH rl1). destruct (run rest rl1) as [res rl2]. cbn [snd] in *.
  apply IH.
  - unfold canMakeCall in Hc.
    destruct (Z.of_nat (length (prune now rl)) <? maxCalls rl); by simplify_eq.
  - unfold canMakeCall in Hc.
    destruct (Z.of_nat (length (prune now rl)) <? maxCalls rl); by simplify_eq.
  - unfold canMakeCall in Hc.
    pose proof (length_filter (λ t, now - t < timeWindow rl) (calls rl)) as Hf.
    fold (prune now rl) in Hf.
    destruct (Z.ltb_spec (Z.of_nat (length (prune now rl))) (maxCalls rl));
      simplify_eq; cbn [calls]; [rewrite length_app; cbn [length]|]; lia.
Qed.

(** X1.  [getRemainingCalls] and [canMakeCall] agree: a call is admitted
    exactly when [getRemainingCalls] reports a positive number at that
    instant; an admitted call lowers the number reported at that instant
    by one; a refused call leaves the limiter as [getRemainingCalls] would
    and the number reported is 0. *)
Theorem remaining_tracks_admission (now : Z) (rl : t) :
  0 < timeWindow rl →
  (fst (canMakeCall now rl) = true ↔ 0 < fst (getRemainingCalls now rl)) ∧
  (fst (canMakeCall now rl) = true →
     fst (getRemainingCalls now (snd (canMakeCall now rl)))
       = fst (getRemainingCalls now rl) - 1) ∧
  (fst (canMakeCall now rl) = false →
     snd (canMakeCall now rl) = snd (getRemainingCalls now rl) ∧
     fst (getRemainingCalls now rl) = 0).
Proof.
  intros Hw. unfold canMakeCall, getRemainingCalls. cbn [fst snd].
  destruct (Z.ltb_spec (Z.of_nat (length (prune now rl))) (maxCalls rl)) as [Hlt|Hge];
    cbn [fst snd]; split_and!; try done; try lia.
  - intros _. cbn [maxCalls]. rewrite prune_snoc, prune_idem, length_app by done.
    cbn [length]. lia.
  - intros _. split; [done|lia].
Qed.

Lemma remaining_tracks_admission_witness :
  0 < timeWindow apiRateLimiter ∧
  fst (getRemainingCalls 5 (snd (canMakeCall 5 apiRateLimiter))) = 99.
Proof.
  split; [reflexivity|].
  destruct (remaining_tracks_admission 5 apiRateLimiter) as (_ & H & _);
    [reflexivity|]. rewrite H; reflexivity.
Defined.

(** X2.  When a call is refused by a limiter with a positive budget that
    was started empty, [getResetTime] lies strictly after the refused
    call, and a call made at that time is admitted. *)
Theorem refused_call_admitted_at_reset (maxC w : Z) (times : list Z) (now : Z) :
  0 < maxC →
  fst (canMakeCall now (snd (run times (new maxC w)))) = false →
  let rl' := snd (canMakeCall now (snd (run times (new maxC w)))) in
  now < getResetTime rl' ∧ fst (canMakeCall (getResetTime rl') rl') = true.
Proof.
  intros Hpos Href rl'.
  destruct (run_bounded maxC w times (new maxC w)) as (Hm & Hw & Hlen);
    [done|done|cbn; lia|].
  set (rl := snd (run times (new maxC w))) in *.
  assert (calls rl' = prune now rl ∧ maxCalls rl' = maxC ∧ timeWindow rl' = w ∧
          maxC <= Z.of_nat (length (prune now rl))) as (Hc & Hm' & Hw' & Hfull).
  { unfold rl'. unfold canMakeCall in *. rewrite Hm in *.
    destruct (Z.ltb_spec (Z.of_nat (length (prune now rl))) maxC); [done|].
    by cbn. }
  pose proof (length_filter (λ t, now - t < timeWindow rl) (calls rl)) as Hf.
  fold (prune now rl) in Hf.
  destruct (prune now rl) as [|oldest rest] eqn:Hp; [cbn in Hfull; lia|].
  assert (now - oldest < w) as Hold.
  { assert (oldest ∈ prune now rl) as Hin by (rewrite Hp; left).
    unfold prune in Hin. apply list_elem_of_filter in Hin as [Hin _]. lia. }
  unfold getResetTime. rewrite Hc, Hw'. split; [lia|].
  unfold canMakeCall, prune. rewrite Hc, Hw', Hm'.
  rewrite filter_cons_False by lia.
  pose proof (length_filter (λ t, oldest + w - t < w) rest) as Hr.
  cbn [length] in Hf.
  destruct (Z.ltb_spec (Z.of_nat (length (filter (λ t, oldest + w - t < w) rest))) maxC);
    [done|lia].
Qed.

Lemma refused_call_admitted_at_reset_witness :
  0 < 2 ∧ fst (canMakeCall 2 (snd (run [0; 1] (new 2 10)))) = false ∧
  getResetTime (snd (canMakeCall 2 (snd (run [0; 1] (new 2 10))))) = 10 ∧
  fst (canMakeCall 10 (snd (canMakeCall 2 (snd (run [0; 1] (new 2 10)))))) = true.
Proof.
  assert (fst (canMakeCall 2 (snd (run [0; 1] (new 2 10)))) = false) as Href
    by reflexivity.
  split_and!; [lia|exact Href|reflexivity|].
  apply (refused_call_admitted_at_reset 2 10 [0; 1] 2); [lia|exact Href].
Defined.

End RateLimiterQueries.


(** ** WebSocketService: handles, teardown and the retry budget *)

Module WebSocketServiceMore.
Import WebSocketService.

Lemma Forall_filter {A} (P Q : A → Prop) `{!∀ x, Decision (Q x)} (l : list A) :
  Forall P l → Forall P (filter Q l).
Proof.
  rewrite !Forall_forall. intros Hall x Hx.
  apply list_elem_of_filter in Hx as [_ Hx]. by apply Hall.
Qed.

Lemma set_Forall {V} (P : string * V → Prop) k v (m : list (string * V)) :
  P (k, v) → Forall P m → Forall P (OMap.set k v m).
Proof.
  intros Hv. induction m as [|[k' v'] m IH]; intros Hm; cbn [OMap.set].
  - by repeat constructor.
  - apply Forall_cons in Hm as [Hv' Hm].
    destruct (decide (k' = k)); constructor; auto.
Qed.

Lemma registeredIds_Forall (P : Z → Prop) s :
  Forall P (registeredIds s) ↔ Forall (λ entry, P (id (snd entry))) (subscriptions s).
Proof.
  unfold registeredIds, OMap.values. by rewrite <- list_fmap_compose, Forall_fmap.
Qed.

Lemma subscribeToAccount_ids ok pk f s :
  ids_issued s → ids_issued (snd (subscribeToAccount ok pk f s)).
Proof.
  intros [Hreg Hlis]. unfold ids_issued. rewrite registeredIds_Forall in *.
  unfold subscribeToAccount, onAccountChange.
  destruct ok; cbn [snd connection subscriptions with_subscriptions with_connection
                    nextId listeners]; [|done].
  split.
  - apply set_Forall; [cbn; lia|].
    eapply Forall_impl; [exact Hreg|]. cbn. intros; lia.
  - apply Forall_app. split; [|repeat constructor; cbn; lia].
    eapply Forall_impl; [exact Hlis|]. cbn. intros; lia.
Qed.

Lemma restore_ids up subs : ∀ s, ids_issued s → ids_issued (snd (restore up subs s)).
Proof.
  induction subs as [|sub rest IH]; intros s Hs; cbn [restore]; [done|].
  pose proof (subscribeToAccount_ids (up (publicKey sub)) (publicKey sub) (cb sub) s Hs) as H1.
  destruct (subscribeToAccount _ _ _ s) as [[h|e] s1]; cbn [snd] in *; [by apply IH|done].
Qed.

Lemma unsubscribe_ids h s : ids_issued s → ids_issued (unsubscribe h s).
Proof.
  intros [Hreg Hlis]. unfold ids_issued. rewrite registeredIds_Forall in *.
  unfold unsubscribe, removeAccountChangeListener, OMap.delete.
  cbn [connection subscriptions with_subscriptions with_connection nextId listeners].
  split; by apply Forall_filter.
Qed.

Lemma handleReconnection_connection s :
  connection (handleReconnection s) = connection s.
Proof.
  unfold handleReconnection.
  by destruct (maxReconnectAttempts s <=? reconnectAttempts s).
Qed.

Lemma ids_issued_same s s' :
  connection s' = connection s → subscriptions s' = subscriptions s →
  ids_issued s → ids_issued s'.
Proof. unfold ids_issued, registeredIds. by intros -> ->. Qed.

Lemma foldl_unsubscribe_ids subs : ∀ s,
  ids_issued s →
  ids_issued (foldl (λ acc sub, unsubscribe (id sub, publicKey sub) acc) s subs).
Proof.
  induction subs as [|sub rest IH]; intros s Hs; [done|].
  cbn [foldl]. by apply IH, unsubscribe_ids.
Qed.

Lemma step_ids a s : ids_issued s → ids_issued (step a s).
Proof.
  intros Hs. destruct a as [ok|i up|ok pk f|h|]; cbn [step].
  - unfold monitorTick. destruct ok, (isConnected s); try done.
    eapply ids_issued_same; [| |exact Hs].
    + by rewrite handleReconnection_connection.
    + by rewrite WebSocketServiceProps.handleReconnection_subscriptions.
  - unfold fireTimer. destruct (timers s !! i); [|done]. unfold onReconnectTimer.
    set (s0 := with_subscriptions [] _).
    assert (ids_issued s0) as H0.
    { destruct Hs as [_ Hl]. split; [constructor|exact Hl]. }
    pose proof (restore_ids up
      (OMap.values (subscriptions (with_timers (base.delete i (timers s)) s))) s0 H0) as Hr.
    destruct (restore _ _ s0) as [[u|e] s2]; cbn [snd] in Hr; [exact Hr|].
    eapply ids_issued_same; [| |exact Hr].
    + by rewrite handleReconnection_connection.
    + by rewrite WebSocketServiceProps.handleReconnection_subscriptions.
  - by apply subscribeToAccount_ids.
  - by apply unsubscribe_ids.
  - unfold unsubscribeAll.
    pose proof (foldl_unsubscribe_ids (OMap.values (subscriptions s)) s Hs) as [_ Hl].
    split; [constructor|exact Hl].
Qed.

Lemma reachable_ids s : reachable s → ids_issued s.
Proof.
  intros [actions ->]. induction actions as [|a actions IH] using rev_ind.
  - split; constructor.
  - unfold exec in *. rewrite foldl_snoc. by apply step_ids.
Qed.

(** Listeners whose id is not in the registry survive [unsubscribeAll]. *)
Lemma foldl_unsubscribe_keeps l subs : ∀ s,
  l ∈ listeners (connection s) → Forall (λ sub, id sub ≠ fst l) subs →
  l ∈ listeners (connection
        (foldl (λ acc sub, unsubscribe (id sub, publicKey sub) acc) s subs)).
Proof.
  induction subs as [|sub rest IH]; intros s Hin Hids; [done|].
  cbn [foldl]. apply Forall_cons in Hids as [Hid Hids]. apply IH; [|done].
  unfold unsubscribe, removeAccountChangeListener. cbn.
  apply list_elem_of_filter. split; [cbn; congruence|done].
Qed.

(** X3.  A cancellation handle kept across a re-subscription is stale:
    after [subscribeToAccount] has succeeded twice for one address,
    invoking the first handle removes the first listener but deletes the
    registry entry of the second subscription, whose listener stays
    registered upstream, out of reach of [unsubscribeAll]. *)
Theorem stale_handle_unregisters_successor (s : t) (pk : string) (f1 f2 : callback) :
  reachable s →
  let h1 := (nextId (connection s), pk) in
  let s1 := snd (subscribeToAccount true pk f1 s) in
  let h2 := (nextId (connection s) + 1, pk) in
  let s2 := snd (subscribeToAccount true pk f2 s1) in
  let s3 := unsubscribe h1 s2 in
  fst (subscribeToAccount true pk f1 s) = Ret h1 ∧
  fst (subscribeToAccount true pk f2 s1) = Ret h2 ∧
  OMap.get pk (subscriptions s3) = None ∧
  (h2 ∈ listeners (connection s3)) ∧
  (h1 ∉ listeners (connection s3)) ∧
  (h2 ∈ listeners (connection (unsubscribeAll s3))).
Proof.
  intros Hreach h1 s1 h2 s2 s3.
  assert (ids_issued s3) as [Hreg3 _].
  { apply unsubscribe_ids, subscribeToAccount_ids, subscribeToAccount_ids.
    by apply reachable_ids. }
  assert (Hget : OMap.get pk (subscriptions s3) = None).
  { apply OMapProps.get_None. unfold s3, unsubscribe, with_subscriptions.
    cbn [subscriptions]. rewrite OMapProps.keys_delete.
    intros Hin. apply list_elem_of_filter in Hin as [Hne _]. done. }
  assert (Hlive : h2 ∈ listeners (connection s3)).
  { unfold s3, s2, s1, unsubscribe, subscribeToAccount, onAccountChange,
      removeAccountChangeListener. cbn.
    apply list_elem_of_filter. split; [cbn; lia|].
    apply elem_of_app. right. left. }
  split_and!; [done|done|exact Hget|exact Hlive| |].
  - unfold s3, unsubscribe, removeAccountChangeListener. cbn.
    intros Hin. apply list_elem_of_filter in Hin as [Hne _]. by cbn in Hne.
  - unfold unsubscribeAll. cbn. apply foldl_unsubscribe_keeps; [exact Hlive|].
    (* ids in the registry of [s3] were issued before the second one,
       except the second one itself, whose entry is gone *)
    apply Forall_forall. intros sub Hsub Hid. cbn in Hid.
    assert (Hm : ∀ k sub0, (k, sub0) ∈ subscriptions s3 → k ≠ pk ∧
                  (k, sub0) ∈ subscriptions s2).
    { intros k sub0 Hin. unfold s3, unsubscribe, OMap.delete in Hin. cbn in Hin.
      apply list_elem_of_filter in Hin as [Hk Hin]. by cbn in Hk. }
    unfold OMap.values in Hsub.
    apply list_elem_of_fmap in Hsub as [[k sub0] [-> Hin]]. cbn in Hid.
    destruct (Hm _ _ Hin) as [Hk Hin2].
    (* an entry of [s2] under another key was already in [s] *)
    assert (Hset : ∀ (m : list (string * AccountSubscription)) v,
              (k, sub0) ∈ OMap.set pk v m → (k, sub0) ∈ m).
    { induction m as [|[k' v'] m IH]; intros v Hk0; cbn [OMap.set] in Hk0.
      - apply list_elem_of_singleton in Hk0. simplify_eq.
      - destruct (decide (k' = pk)) as [->|].
        + apply elem_of_cons in Hk0 as [?|?]; [simplify_eq|by right].
        + apply elem_of_cons in Hk0 as [?|?]; [simplify_eq; left|right; eauto]. }
    unfold s2, s1, subscribeToAccount, onAccountChange in Hin2. cbn in Hin2.
    apply Hset, Hset in Hin2.
    destruct (reachable_ids s Hreach) as [Hreg _].
    rewrite registeredIds_Forall, Forall_forall in Hreg. specialize (Hreg _ Hin2).
    cbn in Hreg. lia.
Qed.

Lemma stale_handle_unregisters_successor_witness :
  let s := new freshConnection in
  let s1 := snd (subscribeToAccount true wallet (AccountCallback 0) s) in
  let s2 := snd (subscribeToAccount true wallet (AccountCallback 1) s1) in
  reachable s ∧
  OMap.get wallet (subscriptions (unsubscribe (0, wallet) s2)) = None ∧
  (1, wallet) ∈ listeners (connection (unsubscribe (0, wallet) s2)).
Proof.
  intros s s1 s2.
  assert (reachable s) as Hr by (by exists []).
  destruct (stale_handle_unregisters_successor s wallet (AccountCallback 0)
              (AccountCallback 1) Hr) as (_ & _ & H3 & H4 & _).
  split_and!; [exact Hr|exact H3|exact H4].
Defined.


(** X4.  Invoking a cancellation handle a second time changes nothing but
    the log of calls made to the connection: listeners, registry and every
    other field are as after the first invocation. *)
Theorem cancel_handle_idempotent (h : handle) (s : t) :
  let once := unsubscribe h s in
  let twice := unsubscribe h once in
  listeners (connection twice) = listeners (connection once) ∧
  subscriptions twice = subscriptions once ∧
  nextId (connection twice) = nextId (connection once) ∧
  requested (connection twice) = requested (connection once) ∧
  removed (connection twice) = removed (connection once) ++ [fst h] ∧
  (isConnected twice, reconnectAttempts twice, emitted twice, timers twice)
    = (isConnected once, reconnectAttempts once, emitted once, timers once).
Proof.
  cbv zeta. unfold unsubscribe, removeAccountChangeListener, OMap.delete.
  cbn [connection subscriptions with_subscriptions with_connection listeners
       nextId requested removed isConnected reconnectAttempts emitted timers].
  split_and!; try done; by apply list_filter_filter_l.
Qed.

Lemma foldl_unsubscribe_spec subs : ∀ s,
  let s' := foldl (λ acc sub, unsubscribe (id sub, publicKey sub) acc) s subs in
  listeners (connection s')
    = filter (λ l, fst l ∉ (id <$> subs)) (listeners (connection s)) ∧
  removed (connection s') = removed (connection s) ++ (id <$> subs) ∧
  nextId (connection s') = nextId (connection s) ∧
  requested (connection s') = requested (connection s) ∧
  (isConnected s', reconnectAttempts s', maxReconnectAttempts s', reconnectDelay s',
   emitted s', timers s')
    = (isConnected s, reconnectAttempts s, maxReconnectAttempts s, reconnectDelay s,
       emitted s, timers s).
Proof.
  induction subs as [|sub rest IH]; intros s; cbn [foldl].
  - cbv zeta. rewrite app_nil_r. split_and!; try done.
    symmetry. induction (listeners (connection s)) as [|l ls IHl]; [done|].
    rewrite filter_cons, decide_True; [by rewrite IHl|apply not_elem_of_nil].
  - destruct (IH (unsubscribe (id sub, publicKey sub) s)) as (Hl & Hr & Hn & Hq & Hf).
    cbv zeta. rewrite Hl, Hr, Hn, Hq, Hf.
    unfold unsubscribe, removeAccountChangeListener.
    cbn [connection subscriptions with_subscriptions with_connection listeners
         nextId requested removed isConnected reconnectAttempts emitted timers
         maxReconnectAttempts reconnectDelay fst].
    split_and!; try done.
    + rewrite list_filter_filter. apply list_filter_iff. intros l.
      rewrite fmap_cons, not_elem_of_cons. tauto.
    + by rewrite fmap_cons, <- app_assoc.
Qed.

(** X5.  [unsubscribeAll] (and so [destroy]) empties the registry, removes
    from the connection exactly the listeners whose id is in the registry,
    one [removeAccountChangeListener] call per entry in registry order, and
    touches nothing else: listeners that are no longer in the registry stay
    registered, and pending reconnection timers stay pending. *)
Theorem unsubscribeAll_removes_registered (s : t) :
  let s' := unsubscribeAll s in
  subscriptions s' = [] ∧
  listeners (connection s')
    = filter (λ l, fst l ∉ registeredIds s) (listeners (connection s)) ∧
  removed (connection s') = removed (connection s) ++ registeredIds s ∧
  timers s' = timers s ∧ emitted s' = emitted s ∧
  isConnected s' = isConnected s ∧ reconnectAttempts s' = reconnectAttempts s.
Proof.
  cbv zeta. unfold unsubscribeAll, registeredIds.
  destruct (foldl_unsubscribe_spec (OMap.values (subscriptions s)) s)
    as (Hl & Hr & _ & _ & Hf).
  cbv zeta in Hl, Hr, Hf.
  cbn [connection subscriptions with_subscriptions timers emitted isConnected
       reconnectAttempts].
  rewrite Hl, Hr. by simplify_eq.
Qed.

Lemma handleReconnection_backoff s : backoff_inv s → backoff_inv (handleReconnection s).
Proof.
  intros (Hm & Hd & Ha & Ht). unfold backoff_inv, handleReconnection. rewrite Hm, Hd.
  destruct (Z.leb_spec 5 (reconnectAttempts s)) as [Hge|Hlt];
    cbn [maxReconnectAttempts reconnectDelay reconnectAttempts timers emit
         with_timers with_reconnectAttempts]; [done|].
  split_and!; [done|done|lia|lia|].
  apply Forall_app. split; [done|]. apply Forall_singleton.
  assert (reconnectAttempts s = 0 ∨ reconnectAttempts s = 1 ∨ reconnectAttempts s = 2 ∨
          reconnectAttempts s = 3 ∨ reconnectAttempts s = 4) as Hcases by lia.
  destruct Hcases as [-> | [-> | [-> | [-> | ->]]]]; cbn; lia.
Qed.

Lemma backoff_inv_same s s' :
  maxReconnectAttempts s' = maxReconnectAttempts s →
  reconnectDelay s' = reconnectDelay s →
  reconnectAttempts s' = reconnectAttempts s → timers s' = timers s →
  backoff_inv s → backoff_inv s'.
Proof. unfold backoff_inv. by intros -> -> -> ->. Qed.

Lemma step_backoff a s : backoff_inv s → backoff_inv (step a s).
Proof.
  intros Hs. destruct a as [ok|i up|ok pk f|h|]; cbn [step].
  - unfold monitorTick. destruct ok, (isConnected s); cbn [negb]; try done.
    + destruct Hs as (Hm & Hd & Ha & Ht). unfold backoff_inv. cbn. split_and!; try done; lia.
    + apply handleReconnection_backoff. by eapply backoff_inv_same; [..|exact Hs].
  - unfold fireTimer. destruct (timers s !! i); [|done]. unfold onReconnectTimer.
    set (s0 := with_subscriptions [] _).
    assert (backoff_inv s0) as H0.
    { destruct Hs as (Hm & Hd & Ha & Ht). unfold backoff_inv, s0. cbn.
      split_and!; try done; try lia. by apply Forall_delete. }
    pose proof (WebSocketServiceProps.restore_frame up
      (OMap.values (subscriptions (with_timers (base.delete i (timers s)) s))) s0) as Hf.
    cbv zeta in Hf. destruct Hf as (_ & Ha & Hm & Hd & _ & Ht).
    assert (backoff_inv (snd (restore up
      (OMap.values (subscriptions (with_timers (base.delete i (timers s)) s))) s0))) as Hr
      by (by eapply backoff_inv_same; [..|exact H0]).
    destruct (restore _ _ s0) as [[u|e] s2]; cbn [snd] in Hr.
    + by eapply backoff_inv_same; [..|exact Hr].
    + by apply handleReconnection_backoff.
  - pose proof (WebSocketServiceProps.subscribeToAccount_frame ok pk f s) as Hf.
    cbv zeta in Hf. destruct Hf as (_ & Ha & Hm & Hd & _ & Ht).
    by eapply backoff_inv_same; [..|exact Hs].
  - by eapply backoff_inv_same; [..|exact Hs].
  - destruct (foldl_unsubscribe_spec (OMap.values (subscriptions s)) s)
      as (_ & _ & _ & _ & Hf). cbv zeta in Hf. simplify_eq.
    eapply backoff_inv_same; [..|exact Hs]; unfold unsubscribeAll; by cbn.
Qed.

(** X6.  The retry budget bounds the backoff: in every state a service
    can reach, [reconnectAttempts] lies between 0 and 5 and every pending
    reconnection timer waits between 1000 and 16000 ms. *)
Theorem backoff_is_bounded (s : t) :
  reachable s →
  0 <= reconnectAttempts s <= maxReconnectAttempts s ∧
  maxReconnectAttempts s = 5 ∧
  Forall (λ delay, 1000 <= delay <= 16000) (timers s).
Proof.
  intros [actions ->].
  assert (backoff_inv (exec actions (new freshConnection))) as (Hm & Hd & Ha & Ht).
  { induction actions as [|a actions IH] using rev_ind.
    - unfold backoff_inv. cbn. split_and!; try done; lia.
    - unfold exec in *. rewrite foldl_snoc. by apply step_backoff. }
  rewrite Hm. done.
Qed.

Lemma backoff_is_bounded_witness :
  reachable (snd every_cycle_fails) ∧
  reconnectAttempts (snd every_cycle_fails) = 5.
Proof.
  assert (reachable (snd every_cycle_fails)) as Hr.
  { exists ([Probe true]
            ++ ((λ pk, Subscribe true pk (PositionCallback pk 1)) <$> accounts5)
            ++ [Probe false]
            ++ ((λ pk, Timer 0 (fails_on pk)) <$> reverse accounts5)).
    vm_compute. reflexivity. }
  split; [exact Hr|].
  destruct (backoff_is_bounded _ Hr) as ([_ Hle] & Hm & _).
  assert (5 <= reconnectAttempts (snd every_cycle_fails)) by (vm_compute; discriminate).
  lia.
Defined.


(** *** Recovery of the whole registry *)

Lemma set_fresh {V} k (v : V) (m : list (string * V)) :
  k ∉ OMap.keys m → OMap.set k v m = m ++ [(k, v)].
Proof.
  unfold OMap.keys. induction m as [|[k' v'] m IH]; intros Hnin; cbn [OMap.set]; [done|].
  rewrite fmap_cons in Hnin. cbn [fst] in Hnin.
  apply not_elem_of_cons in Hnin as [Hne Hnin].
  rewrite decide_False by done. by rewrite IH.
Qed.

Lemma subscribeToAccount_keys_match ok pk f s :
  keys_match s → keys_match (snd (subscribeToAccount ok pk f s)).
Proof.
  unfold keys_match, subscribeToAccount, onAccountChange. intros Hs.
  destruct ok; cbn [snd subscriptions with_subscriptions with_connection]; [|done].
  by apply set_Forall.
Qed.

Lemma restore_keys_match up subs : ∀ s,
  keys_match s → keys_match (snd (restore up subs s)).
Proof.
  induction subs as [|sub rest IH]; intros s Hs; cbn [restore]; [done|].
  pose proof (subscribeToAccount_keys_match (up (publicKey sub)) (publicKey sub)
                (cb sub) s Hs) as H1.
  destruct (subscribeToAccount _ _ _ s) as [[h|e] s1]; cbn [snd] in *; [by apply IH|done].
Qed.

Lemma step_keys_match a s : keys_match s → keys_match (step a s).
Proof.
  intros Hs. destruct a as [ok|i up|ok pk f|h|]; cbn [step].
  - unfold keys_match, monitorTick. destruct ok, (isConnected s); try done.
    by rewrite WebSocketServiceProps.handleReconnection_subscriptions.
  - unfold fireTimer. destruct (timers s !! i); [|done]. unfold onReconnectTimer.
    set (s0 := with_subscriptions [] _).
    assert (keys_match s0) as H0 by constructor.
    pose proof (restore_keys_match up
      (OMap.values (subscriptions (with_timers (base.delete i (timers s)) s))) s0 H0) as Hr.
    destruct (restore _ _ s0) as [[u|e] s2]; cbn [snd] in Hr; [exact Hr|].
    unfold keys_match. by rewrite WebSocketServiceProps.handleReconnection_subscriptions.
  - by apply subscribeToAccount_keys_match.
  - unfold keys_match, unsubscribe, OMap.delete. cbn [subscriptions with_subscriptions].
    by apply Forall_filter.
  - constructor.
Qed.

Lemma reachable_keys_match s : reachable s → keys_match s.
Proof.
  intros [actions ->]. induction actions as [|a actions IH] using rev_ind.
  - constructor.
  - unfold exec in *. rewrite foldl_snoc. by apply step_keys_match.
Qed.

Lemma restore_all_ok up entries : ∀ s0,
  Forall (λ entry, publicKey (snd entry) = fst entry ∧ up (fst entry) = true) entries →
  NoDup (OMap.keys (subscriptions s0) ++ OMap.keys entries) →
  let r := restore up (OMap.values entries) s0 in
  fst r = Ret () ∧
  OMap.keys (subscriptions (snd r))
    = OMap.keys (subscriptions s0) ++ OMap.keys entries ∧
  cb <$> OMap.values (subscriptions (snd r))
    = (cb <$> OMap.values (subscriptions s0)) ++ (cb <$> OMap.values entries) ∧
  requested (connection (snd r)) = requested (connection s0) ++ OMap.keys entries ∧
  removed (connection (snd r)) = removed (connection s0) ∧
  ∃ added, listeners (connection (snd r)) = listeners (connection s0) ++ added ∧
           snd <$> added = OMap.keys entries.
Proof.
  unfold OMap.keys, OMap.values.
  induction entries as [|[k sub] rest IH]; intros s0 Hall Hnd;
    cbn [fmap list_fmap restore fst snd].
  - cbv zeta. cbn [fst snd]. rewrite !app_nil_r. split_and!; try done.
    exists []. by rewrite app_nil_r.
  - apply Forall_cons in Hall as [[Hk Hup] Hall]. cbn [fst snd] in Hk, Hup.
    rewrite Hk, Hup. cbn [fst snd] in *.
    assert (k ∉ fst <$> subscriptions s0) as Hfresh.
    { apply NoDup_app in Hnd as (_ & Hdis & _). intros Hin. apply (Hdis k Hin). left. }
    unfold subscribeToAccount, onAccountChange.
    set (s1 := with_subscriptions _ _).
    assert (subscriptions s1 = subscriptions s0 ++
              [(k, {| id := nextId (connection s0); publicKey := k; cb := cb sub |})])
      as Hs1 by (unfold s1; cbn; by apply set_fresh).
    destruct (IH s1 Hall) as (Hr & Hkeys & Hcbs & Hreq & Hrem & added & Hlis & Hadd).
    { rewrite Hs1, fmap_app. cbn. rewrite <- app_assoc. exact Hnd. }
    cbv zeta in *. rewrite Hs1 in Hkeys, Hcbs. rewrite fmap_app in Hkeys.
    rewrite (fmap_app snd), (fmap_app cb) in Hcbs.
    cbn in Hkeys, Hcbs, Hreq, Hrem, Hlis.
    rewrite <- !app_assoc in Hkeys, Hcbs, Hreq, Hlis.
    split_and!; try done.
    exists ((nextId (connection s0), k) :: added). split; [exact Hlis|].
    cbn. by rewrite Hadd.
Qed.

(** X7.  In any state a service can reach, a timer cycle during which
    [onAccountChange] succeeds for every registered address restores the
    whole registry: the same addresses in the same order with the same
    callbacks, one request and one new listener per address, followed by
    [reconnected]; no listener is removed on the way, so every listener
    registered before the cycle is still registered after it. *)
Theorem full_recovery_restores_registry (s : t) (up : string → bool) :
  reachable s →
  (∀ k, k ∈ OMap.keys (subscriptions s) → up k = true) →
  let s' := onReconnectTimer up s in
  OMap.keys (subscriptions s') = OMap.keys (subscriptions s) ∧
  cb <$> OMap.values (subscriptions s') = cb <$> OMap.values (subscriptions s) ∧
  emitted s' = emitted s ++ [reconnected] ∧
  requested (connection s')
    = requested (connection s) ++ OMap.keys (subscriptions s) ∧
  removed (connection s') = removed (connection s) ∧
  ∃ added, listeners (connection s') = listeners (connection s) ++ added ∧
           snd <$> added = OMap.keys (subscriptions s).
Proof.
  intros Hreach Hup s'. subst s'. unfold onReconnectTimer.
  destruct (restore_all_ok up (subscriptions s) (with_subscriptions [] s))
    as (Hr & Hkeys & Hcbs & Hreq & Hrem & Hlis).
  - pose proof (reachable_keys_match s Hreach) as Hkm. unfold keys_match in Hkm.
    rewrite Forall_forall in *. intros [k sub] Hin. split; [by apply Hkm|].
    apply Hup. unfold OMap.keys. apply list_elem_of_fmap. by exists (k, sub).
  - cbn. by apply WebSocketServiceProps.reachable_NoDup.
  - cbv zeta in *.
    pose proof (WebSocketServiceProps.restore_frame up (OMap.values (subscriptions s))
                  (with_subscriptions [] s)) as Hf.
    cbv zeta in Hf. destruct Hf as (_ & _ & _ & _ & Hem & _).
    destruct (restore up (OMap.values (subscriptions s)) (with_subscriptions [] s))
      as [[u|e] s2]; cbn [fst snd] in *; [|done].
    cbn [emit subscriptions connection emitted]. rewrite Hem.
    split_and!; done.
Qed.

Lemma full_recovery_restores_registry_witness :
  reachable session ∧
  OMap.keys (subscriptions (onReconnectTimer (λ _, true) session))
    = [wallet; position1; position2].
Proof.
  assert (reachable session) as Hr.
  { exists [Probe true;
            Subscribe true wallet (WalletCallback 0);
            Subscribe true position1 (PositionCallback position1 1);
            Subscribe true position2 (PositionCallback position2 1)].
    vm_compute. reflexivity. }
  split; [exact Hr|].
  destruct (full_recovery_restores_registry session (λ _, true) Hr) as [Hk _]; [done|].
  rewrite Hk. reflexivity.
Defined.

(** *** Position subscriptions *)

Lemma subscribeToPositions_keeps up accounts onPositionUpdate pk : ∀ s,
  (∃ sub, OMap.get pk (subscriptions s) = Some sub ∧
          cb sub = PositionCallback pk onPositionUpdate) →
  ∃ sub, OMap.get pk (subscriptions (snd (subscribeToPositions up accounts
                                             onPositionUpdate s))) = Some sub ∧
         cb sub = PositionCallback pk onPositionUpdate.
Proof.
  induction accounts as [|a rest IH]; intros s Hs; cbn [subscribeToPositions]; [done|].
  unfold subscribeToAccount, onAccountChange.
  destruct (up a); cbn.
  - specialize (IH (with_subscriptions
        (OMap.set a {| id := nextId (connection s); publicKey := a;
                       cb := PositionCallback a onPositionUpdate |} (subscriptions s))
        (with_connection
           {| listeners := listeners (connection s) ++ [(nextId (connection s), a)];
              nextId := nextId (connection s) + 1;
              requested := requested (connection s) ++ [a];
              removed := removed (connection s) |} s))).
    destruct (subscribeToPositions up rest onPositionUpdate _) as [hs s2].
    cbn [snd] in *. apply IH. cbn [subscriptions with_subscriptions].
    destruct (decide (a = pk)) as [->|Hne].
    + eexists. by rewrite OMapProps.get_set_eq.
    + by rewrite OMapProps.get_set_ne.
  - apply IH. exact Hs.
Qed.

(** X8.  [subscribeToPositions] asks the connection once for every
    account, in order, and a rejected account does not stop the others:
    the handles it collects are those of the accounts that succeeded, and
    each of them is in the registry afterwards with the position
    callback. *)
Theorem subscribeToPositions_skips_failures
    (up : string → bool) (accounts : list string) (onPositionUpdate : nat) (s : t) :
  let r := subscribeToPositions up accounts onPositionUpdate s in
  requested (connection (snd r)) = requested (connection s) ++ accounts ∧
  snd <$> fst r = filter (λ pk, up pk = true) accounts ∧
  (∀ pk, pk ∈ accounts → up pk = true →
     ∃ sub, OMap.get pk (subscriptions (snd r)) = Some sub ∧
            cb sub = PositionCallback pk onPositionUpdate) ∧
  emitted (snd r) = emitted s ∧ timers (snd r) = timers s.
Proof.
  cbv zeta. revert s.
  induction accounts as [|a rest IH]; intros s; cbn [subscribeToPositions].
  - cbn. rewrite app_nil_r. split_and!; try done. intros pk Hin. by apply elem_of_nil in Hin.
  - rewrite filter_cons.
    pose proof (subscribeToPositions_keeps up rest onPositionUpdate a) as Hkeep.
    unfold subscribeToAccount, onAccountChange.
    destruct (up a) eqn:Hup; cbn [fst snd].
    + set (s1 := with_subscriptions _ _).
      specialize (IH s1). specialize (Hkeep s1).
      destruct (subscribeToPositions up rest onPositionUpdate s1) as [hs s2].
      cbn [fst snd] in *. destruct IH as (Hreq & Hh & Hreg & Hem & Htm).
      rewrite decide_True by done.
      split_and!.
      * rewrite Hreq. unfold s1. cbn. by rewrite <- app_assoc.
      * rewrite fmap_cons. cbn. by rewrite Hh.
      * intros pk Hin Hpk. apply elem_of_cons in Hin as [->|Hin]; [|by apply Hreg].
        apply Hkeep. unfold s1. cbn. eexists. by rewrite OMapProps.get_set_eq.
      * by rewrite Hem.
      * by rewrite Htm.
    + set (s1 := with_connection _ _).
      specialize (IH s1).
      destruct (subscribeToPositions up rest onPositionUpdate s1) as [hs s2].
      cbn [fst snd] in *. destruct IH as (Hreq & Hh & Hreg & Hem & Htm).
      rewrite decide_False by done.
      split_and!.
      * rewrite Hreq. unfold s1. cbn. by rewrite <- app_assoc.
      * exact Hh.
      * intros pk Hin Hpk. apply elem_of_cons in Hin as [->|Hin]; [congruence|].
        by apply Hreg.
      * by rewrite Hem.
      * by rewrite Htm.
Qed.

End WebSocketServiceMore.


(** ** fetchWithFallback *)

Module FetchProps.
Import Fetch.

(** What the loop does from an iteration on, given that the iterations
    left are those the loop condition allows. *)
Lemma attemptLoop_spec net o : ∀ fuel attempt waited,
  Z.of_nat (attempt + S fuel) = retries o + 1 →
  waited = schedule o attempt →
  let tr := attemptLoop net o (S fuel) attempt waited in
  let last := Nat.pred (requests tr) in
  (attempt < requests tr)%nat ∧ (requests tr <= attempt + S fuel)%nat ∧
  waits tr = schedule o last ∧
  (∀ j, (attempt <= j)%nat → (j < last)%nat → retriable (net j) = true) ∧
  match ending tr with
  | Resolved status => net last = Status status ∧ ok status = true
  | HttpError status =>
      net last = Status status ∧ ok status = false ∧ clientError status = true
  | GaveUp n =>
      n = retries o + 1 ∧ retriable (net last) = true ∧ Z.of_nat last = retries o
  end.
Proof.
  induction fuel as [|fuel IH]; intros attempt waited Hfuel Hw.
  - cbn [attemptLoop].
    assert (Z.of_nat attempt = retries o) as Ha by lia.
    rewrite (proj2 (Z.eqb_eq _ _) Ha).
    destruct (net attempt) as [|status] eqn:Hn;
      [|destruct (ok status) eqn:Hok; [|destruct (clientError status) eqn:Hce]];
      cbn; (split_and!; [lia|lia|done|intros; lia|..]); try done.
    + rewrite Hn. done.
    + rewrite Hn. cbn. by rewrite Hok, Hce.
  - cbn [attemptLoop].
    assert (Z.of_nat attempt ≠ retries o) as Ha by lia.
    rewrite (proj2 (Z.eqb_neq _ _) Ha).
    specialize (IH (S attempt) (waited ++ [retryDelay o * (Z.of_nat attempt + 1)])).
    assert (waited ++ [retryDelay o * (Z.of_nat attempt + 1)] = schedule o (S attempt))
      as Hsched.
    { unfold schedule. rewrite seq_S, fmap_app. cbn. by rewrite Hw. }
    specialize (IH ltac:(lia) Hsched). cbv zeta in IH.
    destruct IH as (H1 & H2 & H3 & H4 & H5).
    assert (Hagain :
      let tr := attemptLoop net o (S fuel) (S attempt)
                  (waited ++ [retryDelay o * (Z.of_nat attempt + 1)]) in
      retriable (net attempt) = true →
      (attempt < requests tr)%nat ∧ (requests tr <= attempt + S (S fuel))%nat ∧
      waits tr = schedule o (Nat.pred (requests tr)) ∧
      (∀ j, (attempt <= j)%nat → (j < Nat.pred (requests tr))%nat →
            retriable (net j) = true) ∧
      match ending tr with
      | Resolved status => net (Nat.pred (requests tr)) = Status status ∧ ok status = true
      | HttpError status =>
          net (Nat.pred (requests tr)) = Status status ∧ ok status = false ∧
          clientError status = true
      | GaveUp n =>
          n = retries o + 1 ∧ retriable (net (Nat.pred (requests tr))) = true ∧
          Z.of_nat (Nat.pred (requests tr)) = retries o
      end).
    { intros tr Hretr. subst tr. split_and!; [lia|lia|done| |done].
      intros j Hj1 Hj2. destruct (decide (j = attempt)) as [->|]; [done|].
      apply H4; lia. }
    destruct (net attempt) as [|status] eqn:Hn.
    + by apply Hagain.
    + destruct (ok status) eqn:Hok; [|destruct (clientError status) eqn:Hce].
      * cbn. split_and!; [lia|lia|done|intros; lia|done|done].
      * cbn. split_and!; [lia|lia|done|intros; lia|done|done|done].
      * apply Hagain. cbn. by rewrite Hok, Hce.
Qed.

Lemma schedule_sum o n :
  foldr Z.add 0 (schedule o n) = retryDelay o * (Z.of_nat n * (Z.of_nat n + 1) / 2).
Proof.
  unfold schedule. induction n as [|n IH].
  { change (Z.of_nat 0 * (Z.of_nat 0 + 1) / 2) with 0. cbn. lia. }
  rewrite seq_S, fmap_app, foldr_app. cbn [fmap list_fmap foldr Nat.add].
  assert (∀ (l : list Z) a, foldr Z.add a l = foldr Z.add 0 l + a) as Hacc.
  { induction l as [|x l IHl]; intros a; cbn; [lia|]. rewrite IHl. lia. }
  rewrite Hacc, IH.
  assert (Z.of_nat (S n) * (Z.of_nat (S n) + 1) / 2
          = Z.of_nat n * (Z.of_nat n + 1) / 2 + (Z.of_nat n + 1)) as ->.
  { replace (Z.of_nat (S n) * (Z.of_nat (S n) + 1))
      with (Z.of_nat n * (Z.of_nat n + 1) + (Z.of_nat n + 1) * 2) by lia.
    by rewrite Z.div_add by lia. }
  lia.
Qed.

(** X9.  [fetchWithFallback] keeps to its request budget and its linear
    backoff: it makes at most [retries + 1] requests (none at all, and it
    throws, when [retries] is negative); before the [i]-th retry it waits
    [retryDelay * i], so that after [n] requests it has waited
    [retryDelay * (n - 1) * n / 2] in all. *)
Theorem fetch_budget_and_backoff (net : nat → answer) (o : FetchOptions) :
  let tr := fetchWithFallback net o in
  Z.of_nat (requests tr) <= Z.max 0 (retries o + 1) ∧
  waits tr = schedule o (Nat.pred (requests tr)) ∧
  foldr Z.add 0 (waits tr)
    = retryDelay o * (Z.of_nat (Nat.pred (requests tr)) * Z.of_nat (requests tr) / 2) ∧
  (retries o < 0 → requests tr = O ∧ ending tr = GaveUp (retries o + 1)).
Proof.
  cbv zeta. unfold fetchWithFallback.
  destruct (Z.to_nat (retries o + 1)) as [|fuel] eqn:Hfuel.
  - cbn. split_and!; [lia|done|by rewrite Z.mul_0_r|done].
  - destruct (attemptLoop_spec net o fuel 0 []) as (H1 & H2 & H3 & _);
      [lia|done|]. cbv zeta in *.
    split_and!; [lia|done| |lia].
    rewrite H3, schedule_sum. do 3 f_equal. lia.
Qed.

(** X10.  What decides a call is the first answer that is not retriable.
    Every request before the last one got a rejection or a response that
    was neither ok nor 4xx.  The call returns a response only if the last
    answer was ok; it rethrows an HTTP error only for a 4xx answer, which
    is thus never retried; and it gives up only after requests
    [0 .. retries] all got retriable answers. *)
Theorem fetch_stops_at_first_final_answer (net : nat → answer) (o : FetchOptions) :
  0 <= retries o →
  let tr := fetchWithFallback net o in
  let last := Nat.pred (requests tr) in
  (0 < requests tr)%nat ∧
  (∀ j, (j < last)%nat → retriable (net j) = true) ∧
  match ending tr with
  | Resolved status => net last = Status status ∧ ok status = true
  | HttpError status =>
      net last = Status status ∧ 400 <= status < 500
  | GaveUp n =>
      n = retries o + 1 ∧ retriable (net last) = true ∧ Z.of_nat last = retries o
  end.
Proof.
  intros Hr. cbv zeta. unfold fetchWithFallback.
  destruct (Z.to_nat (retries o + 1)) as [|fuel] eqn:Hfuel; [lia|].
  destruct (attemptLoop_spec net o fuel 0 []) as (H1 & _ & _ & H4 & H5); [lia|done|].
  cbv zeta in *. split_and!; [done|intros j Hj; apply H4; [lia|done]|].
  destruct (ending (attemptLoop net o (S fuel) 0 [])) as [st|st|n]; [done| |done].
  destruct H5 as (Hn & _ & Hce). split; [done|].
  unfold clientError in Hce. apply andb_true_iff in Hce as [Hce Hlt].
  apply andb_true_iff in Hce as [_ Hge]. lia.
Qed.

(** The fetch of [getTokenPrices] when the endpoint answers 503, 503 and
    then 200: three requests, 1000 and 2000 ms apart. *)
Lemma fetch_stops_at_first_final_answer_witness :
  let net := λ i, match i with 0%nat | 1%nat => Status 503 | _ => Status 200 end in
  0 <= retries tokenPriceOptions ∧
  (0 < requests (fetchWithFallback net tokenPriceOptions))%nat ∧
  fetchWithFallback net tokenPriceOptions
    = {| ending := Resolved 200; requests := 3; waits := [1000; 2000] |}.
Proof.
  intros net.
  assert (0 <= retries tokenPriceOptions) as Hr by (cbn; lia).
  split_and!; [exact Hr| |reflexivity].
  apply (fetch_stops_at_first_final_answer net tokenPriceOptions Hr).
Defined.

End FetchProps.


(** ** Sanitizers and validators of walletSecurity.ts *)

Module SanitizeProps.
Import WalletSecurity Sanitize.

Lemma base58_safe (u : N) : base58 u = true → unsafeChar u = false.
Proof.
  intros H. apply not_true_is_false. intros H'.
  unfold base58 in H. unfold unsafeChar in H'.
  rewrite !orb_true_iff, !andb_true_iff, !N.leb_le in H.
  rewrite !orb_true_iff, !N.eqb_eq in H'.
  lia.
Qed.

Lemma stripUnsafe_id (s : jsstring) :
  Forall (λ u, unsafeChar u = false) s → stripUnsafe s = s.
Proof.
  unfold stripUnsafe. induction 1 as [|u s Hu _ IH]; [done|].
  rewrite filter_cons_True by done. by rewrite IH.
Qed.

Lemma stripUnsafe_safe (s : jsstring) :
  Forall (λ u, unsafeChar u = false) (stripUnsafe s).
Proof.
  unfold stripUnsafe. apply Forall_forall. intros u Hu.
  by apply list_elem_of_filter in Hu as [? _].
Qed.

Lemma forallb_Forall_true {A : Type} (f : A → bool) (l : list A) :
  forallb f l = true ↔ Forall (λ x, f x = true) l.
Proof.
  induction l as [|x l IH]; cbn [forallb].
  - split; [constructor|done].
  - rewrite andb_true_iff, Forall_cons, IH. done.
Qed.

Lemma isValidSolanaAddress_spec (pk : jsstring → bool) (a : jsstring) :
  isValidSolanaAddress pk a = true ↔
  (32 ≤ length a ≤ 44)%nat ∧ Forall (λ u, base58 u = true) a ∧ pk a = true.
Proof.
  unfold isValidSolanaAddress. destruct a as [|u a].
  { split; [done|]. intros [[H _] _]. cbn in H. lia. }
  remember (u :: a) as s eqn:Hs. clear Hs.
  destruct (length s <? 32)%nat eqn:E1; cbn [orb].
  { apply Nat.ltb_lt in E1. split; [done|]. intros [[H _] _]. lia. }
  destruct (44 <? length s)%nat eqn:E2.
  { apply Nat.ltb_lt in E2. split; [done|]. intros [[_ H] _]. lia. }
  apply Nat.ltb_ge in E1, E2.
  destruct (forallb base58 s) eqn:E3; cbn [negb].
  - apply forallb_Forall_true in E3. split.
    + intros H. by split_and!.
    + by intros (_ & _ & H).
  - split; [done|]. intros (_ & H & _).
    apply forallb_Forall_true in H. congruence.
Qed.

(** X11.  An address that [sanitizeWalletAddress] returns is its argument,
    unchanged: a string that passed [isValidSolanaAddress] has 32 to 44
    base58 characters and was accepted by [PublicKey], so the pattern of
    the replacement matches nowhere in it. *)
Theorem sanitizeWalletAddress_returns_argument
    (publicKeyOk : jsstring → bool) (address r : jsstring) :
  sanitizeWalletAddress publicKeyOk address = Ret r →
  r = address ∧ (32 ≤ length address ≤ 44)%nat ∧
  Forall (λ u, base58 u = true) address ∧ publicKeyOk address = true.
Proof.
  unfold sanitizeWalletAddress.
  destruct (isValidSolanaAddress publicKeyOk address) eqn:E; cbn [negb]; [|done].
  intros [= <-]. apply isValidSolanaAddress_spec in E as (Hlen & Hall & Hpk).
  split_and!; try done; try lia.
  apply stripUnsafe_id. eapply Forall_impl; [exact Hall|]. apply base58_safe.
Qed.

Lemma sanitizeWalletAddress_returns_argument_witness :
  sanitizeWalletAddress (λ _, true) (units wrappedSol) = Ret (units wrappedSol) ∧
  (32 ≤ length (units wrappedSol) ≤ 44)%nat.
Proof.
  assert (sanitizeWalletAddress (λ _, true) (units wrappedSol)
          = Ret (units wrappedSol)) as H by (vm_compute; reflexivity).
  split; [exact H|].
  exact (proj1 (proj2 (sanitizeWalletAddress_returns_argument _ _ _ H))).
Defined.

Lemma take_stripUnsafe_fixed (n : nat) (s : jsstring) :
  take n (stripUnsafe (take n (stripUnsafe s))) = take n (stripUnsafe s).
Proof.
  rewrite (stripUnsafe_id (take n (stripUnsafe s))).
  - by rewrite take_take, Nat.min_id.
  - apply Forall_take, stripUnsafe_safe.
Qed.

(** X12: [sanitizeTokenMetadata] is idempotent: sanitizing an object it
    returned gives the same object again, whatever the URL parser says. *)
Theorem sanitizeTokenMetadata_idempotent
    (protocolOf : jsstring → option jsstring) (metadata : option rawMetadata) :
  sanitizeTokenMetadata protocolOf
    (Some (asRaw (sanitizeTokenMetadata protocolOf metadata)))
  = sanitizeTokenMetadata protocolOf metadata.
Proof.
  destruct metadata as [[n s l d]|]; [|done].
  unfold sanitizeTokenMetadata, asRaw.
  cbn [raw_name raw_symbol raw_logoURI raw_decimals name symbol logoURI decimals].
  f_equal.
  - destruct n; cbn [from_option]; try done. by rewrite take_stripUnsafe_fixed.
  - destruct s; cbn [from_option]; try done. by rewrite take_stripUnsafe_fixed.
  - destruct l as [u| |]; cbn [from_option]; try done.
    destruct (protocolOf u) as [p|] eqn:E; cbn [from_option]; try done.
    destruct (decide (p = units "https:")) as [->|Hne]; cbn [from_option]; try done.
    rewrite E. by rewrite decide_True.
  - destruct d as [|x|]; cbn [from_option]; try done.
    destruct (isInteger x && ge0 x && leZ x 18) eqn:E; cbn [from_option]; try done.
    by rewrite E.
Qed.

(** X13.  What [sanitizeTokenMetadata] lets through: a name of at most 100
    and a symbol of at most 20 code units, neither with a character of
    the stripped class; a logo only if its URL parses with the protocol
    https, and then the string as given; decimals only if they are an
    integer from 0 to 18. *)
Theorem sanitizeTokenMetadata_bounds
    (protocolOf : jsstring → option jsstring) (metadata : option rawMetadata) :
  let r := sanitizeTokenMetadata protocolOf metadata in
  (∀ s, name r = Some s →
        (length s ≤ 100)%nat ∧ Forall (λ u, unsafeChar u = false) s) ∧
  (∀ s, symbol r = Some s →
        (length s ≤ 20)%nat ∧ Forall (λ u, unsafeChar u = false) s) ∧
  (∀ s, logoURI r = Some s →
        protocolOf s = Some (units "https:") ∧
        ∃ m, metadata = Some m ∧ raw_logoURI m = FString s) ∧
  (∀ n, decimals r = Some n →
        ∃ q z, n = Num q ∧ 0 <= z <= 18 ∧ (q == inject_Z z)%Q).
Proof.
  destruct metadata as [[n s l d]|]; [|by cbn].
  cbn zeta. unfold sanitizeTokenMetadata.
  cbn [raw_name raw_symbol raw_logoURI raw_decimals name symbol logoURI decimals].
  split_and!.
  - intros x Hx. destruct n; simplify_eq. split.
    + rewrite length_take. lia.
    + apply Forall_take, stripUnsafe_safe.
  - intros x Hx. destruct s; simplify_eq. split.
    + rewrite length_take. lia.
    + apply Forall_take, stripUnsafe_safe.
  - intros x Hx. destruct l as [u| |]; try done.
    destruct (protocolOf u) as [p|] eqn:E; try done.
    destruct (decide (p = units "https:")) as [->|Hne]; simplify_eq.
    split; [done|]. by eexists.
  - intros x Hx. destruct d as [|y|]; try done.
    destruct (isInteger y && ge0 y && leZ y 18) eqn:E; simplify_eq.
    apply andb_true_iff in E as [E E3]. apply andb_true_iff in E as [E1 E2].
    destruct x as [[num den]| | |]; try done.
    cbn in E1, E2, E3. apply Z.eqb_eq in E1. apply Z.leb_le in E2, E3.
    apply Z.mod_divide in E1 as [z Hz]; [|lia].
    exists (num # den)%Q, z. split_and!; try done; try nia.
    unfold Qeq, inject_Z. cbn [Qnum Qden]. lia.
Qed.


(** *** secureStorage *)

Lemma secureKey_inj (k k' : jsstring) : secureKey k = secureKey k' → k = k'.
Proof. unfold secureKey. apply app_inv_head. Qed.

(** X14.  With a working [sessionStorage], [getItem] returns what the last
    [setItem] of that key stored, a [setItem] or [removeItem] of one key
    leaves every other key as it was, and a removed key reads [null]. *)
Theorem secureStorage_round_trip (st : storage) (key value : jsstring) :
  getItem false key (setItem false key value st) = Some value ∧
  getItem false key (removeItem false key st) = None ∧
  (∀ other, other ≠ key →
     getItem false other (setItem false key value st) = getItem false other st ∧
     getItem false other (removeItem false key st) = getItem false other st).
Proof.
  unfold getItem, setItem, removeItem. cbv beta iota. split_and!.
  - by rewrite lookup_insert_eq.
  - by rewrite lookup_delete_eq.
  - intros other Hne.
    assert (secureKey key ≠ secureKey other) as Hk
      by (intros E; apply secureKey_inj in E; congruence).
    by rewrite lookup_insert_ne, lookup_delete_ne.
Qed.

Lemma foldr_delete_lookup (P : jsstring → Prop) `{Hdec : !∀ k, Decision (P k)}
    (l : list jsstring) (st : storage) (k : jsstring) :
  foldr (λ key acc, if decide (P key) then base.delete key acc else acc) st l !! k
  = if decide (P k ∧ k ∈ l) then None else st !! k.
Proof.
  induction l as [|x l IH]; cbn [foldr].
  - rewrite decide_False; [done|]. intros [_ Hin]. by apply elem_of_nil in Hin.
  - destruct (decide (P x)) as [Hx|Hx].
    + destruct (decide (x = k)) as [->|Hne].
      * rewrite lookup_delete_eq. rewrite decide_True; [done|]. split; [done|left].
      * rewrite lookup_delete_ne by done. rewrite IH.
        destruct (decide (P k ∧ k ∈ l)) as [[? ?]|Hn].
        -- rewrite decide_True; [done|]. split; [done|by right].
        -- rewrite decide_False; [done|]. intros [? Hin].
           apply elem_of_cons in Hin as [->|?]; [done|]. by apply Hn.
    + rewrite IH. destruct (decide (P k ∧ k ∈ l)) as [[? ?]|Hn].
      * rewrite decide_True; [done|]. split; [done|by right].
      * rewrite decide_False; [done|]. intros [? Hin].
        apply elem_of_cons in Hin as [->|?]; [done|]. by apply Hn.
Qed.

(** X15: [clear] removes exactly the entries of [sessionStorage] whose key
    starts with [secure_]: afterwards no key reads back through [getItem],
    and every other entry of the storage is as it was. *)
Theorem clear_removes_secure_entries (st : storage) :
  (∀ key, getItem false key (clear false st) = None) ∧
  (∀ raw, ¬ units "secure_" `prefix_of` raw → clear false st !! raw = st !! raw) ∧
  (∀ raw, clear false st !! raw = None ∨ clear false st !! raw = st !! raw).
Proof.
  assert (∀ raw, clear false st !! raw
                 = if decide (units "secure_" `prefix_of` raw) then None else st !! raw)
    as Hclear.
  { intros raw. unfold clear. cbv beta iota.
    rewrite (foldr_delete_lookup (λ key, units "secure_" `prefix_of` key)).
    destruct (decide (units "secure_" `prefix_of` raw)) as [Hp|Hp].
    - destruct (st !! raw) as [v|] eqn:E.
      + rewrite decide_True; [done|]. split; [done|].
        apply list_elem_of_fmap. exists (raw, v). split; [done|].
        by apply elem_of_map_to_list.
      + by destruct (decide _).
    - rewrite decide_False; [done|]. by intros [? _]. }
  split_and!.
  - intros key. unfold getItem. cbv beta iota. rewrite Hclear.
    rewrite decide_True; [done|]. by exists key.
  - intros raw Hraw. rewrite Hclear. by rewrite decide_False.
  - intros raw. rewrite Hclear. destruct (decide _); auto.
Qed.

(** *** validatePortfolioData *)

Lemma validateTokenAmount_Ret (v : jsvalue) (n : number) :
  validateTokenAmount v = Ret n → v = JNumber n ∧ safeAmount n.
Proof.
  destruct v as [x| | | | |]; try done. cbn [validateTokenAmount].
  destruct x as [q| | |]; try done. cbn [isFinite negb lt0].
  destruct (Qnum q <? 0) eqn:E1; [done|].
  unfold gtZ. destruct (MAX_SAFE_INTEGER * Z.pos (Qden q) <? Qnum q) eqn:E2; [done|].
  intros [= <-]. split; [done|]. exists q.
  apply Z.ltb_ge in E1, E2. done.
Qed.

Lemma validatePrice_Ret (v : jsvalue) (n : number) :
  validatePrice v = Ret n → v = JNumber n ∧ nonNegative n.
Proof.
  destruct v as [x| | | | |]; try done. cbn [validatePrice].
  destruct x as [q| | |]; try done. cbn [isFinite negb lt0].
  destruct (Qnum q <? 0) eqn:E1; [done|].
  intros [= <-]. split; [done|]. exists q.
  apply Z.ltb_ge in E1. done.
Qed.

Lemma truthy_validatePrice (v : jsvalue) (n : number) :
  truthyValue v = true → validatePrice v = Ret n → positive n.
Proof.
  intros Ht Hv. apply validatePrice_Ret in Hv as [-> (q & -> & Hq)].
  exists q. split; [done|]. cbn in Ht. apply negb_true_iff, Z.eqb_neq in Ht. lia.
Qed.

Lemma bind_Ret {A B : Type} (m : outcome A) (f : A → outcome B) (b : B) :
  bind m f = Ret b → ∃ a, m = Ret a ∧ f a = Ret b.
Proof. destruct m as [a|msg]; [|done]. intros H. by exists a. Qed.

Lemma validateKey_Ret (data : gmap string pvalue) (key : string)
    (check : jsvalue → outcome number) (v v' : gmap string validatedValue) :
  validateKey data key check v = Ret v' →
  (data !! key = None ∧ v' = v) ∨
  (∃ x n, data !! key = Some x ∧ check (scalar x) = Ret n ∧
          v' = <[key := VNumber n]> v).
Proof.
  unfold validateKey. destruct (data !! key) as [x|]; [|intros [= <-]; by left].
  intros H. apply bind_Ret in H as (n & Hn & [= <-]). right. by exists x, n.
Qed.

Lemma validateKey_keys (data : gmap string pvalue) (key : string)
    (check : jsvalue → outcome number) (v v' : gmap string validatedValue) :
  validateKey data key check v = Ret v' →
  ∀ k, is_Some (v' !! k) ↔ is_Some (v !! k) ∨ (k = key ∧ is_Some (data !! k)).
Proof.
  intros H k. apply validateKey_Ret in H as [[Hd ->]|(x & n & Hd & _ & ->)].
  - split; [by left|]. intros [?|[-> Hs]]; [done|]. rewrite Hd in Hs. by destruct Hs.
  - rewrite lookup_insert_is_Some. split.
    + intros [->|[_ ?]]; [right|by left]. by rewrite Hd.
    + intros [?|[-> _]]; [|by left].
      destruct (decide (key = k)); [by left|by right].
Qed.

(** X16.  The object [validatePortfolioData] returns has only keys it
    knows: the three totals and [lastUpdated] where the argument has them,
    and [tokenBalances] where the argument has an array there.  Any other
    key of the argument is dropped: the token list the portfolio hook
    passes under [tokens] is not in the result. *)
Theorem validatePortfolioData_known_keys (publicKeyOk : jsstring → bool)
    (data : gmap string pvalue) (v : gmap string validatedValue) :
  validatePortfolioData publicKeyOk (Some data) = Ret v →
  ∀ k, is_Some (v !! k) ↔
       (k ∈ numberKeys ++ ["lastUpdated"] ∧ is_Some (data !! k)) ∨
       (k = "tokenBalances" ∧ ∃ items, data !! k = Some (PArray items)).
Proof.
  unfold validatePortfolioData. intros H k.
  apply bind_Ret in H as (v1 & H1 & H).
  apply bind_Ret in H as (v2 & H2 & H).
  apply bind_Ret in H as (v3 & H3 & H).
  apply bind_Ret in H as (v4 & H4 & H).
  pose proof (validateKey_keys _ _ _ _ _ H1 k) as K1.
  pose proof (validateKey_keys _ _ _ _ _ H2 k) as K2.
  pose proof (validateKey_keys _ _ _ _ _ H3 k) as K3.
  rewrite lookup_empty in K1.
  assert (is_Some (v4 !! k) ↔ is_Some (v3 !! k) ∨ (k = "lastUpdated" ∧ is_Some (data !! k)))
    as K4.
  { destruct (data !! "lastUpdated") as [[x|time|items]|] eqn:E; simplify_eq.
    - rewrite lookup_insert_is_Some. split.
      + intros [<-|[_ ?]]; [right; by rewrite E|by left].
      + intros [?|[-> _]]; [|by left].
        destruct (decide ("lastUpdated" = k)); [by left|by right].
    - split; [by left|]. intros [?|[-> Hs]]; [done|]. rewrite E in Hs. by destruct Hs. }
  assert (is_Some (v !! k) ↔
          is_Some (v4 !! k) ∨ (k = "tokenBalances" ∧ ∃ items, data !! k = Some (PArray items)))
    as K5.
  { destruct (data !! "tokenBalances") as [[x|time|items]|] eqn:E; simplify_eq;
      try (split; [by left|]; intros [?|[-> [items' Hs]]]; [done|congruence]).
    apply bind_Ret in H as (ts & _ & [= <-]).
    rewrite lookup_insert_is_Some. split.
    + intros [<-|[_ ?]]; [right; split; [done|by exists items]|by left].
    + intros [?|[-> _]]; [|by left].
      destruct (decide ("tokenBalances" = k)); [by left|by right]. }
  unfold numberKeys. cbn [app]. rewrite !elem_of_cons, elem_of_nil.
  rewrite K5, K4, K3, K2, K1.
  assert (¬ is_Some (@None validatedValue)) as Hnone by (intros [? ?]; done).
  split; intros Hk; decompose [or and] Hk; try contradiction;
    first [ by right | left; split; [auto 10|done] | auto 10 ].
Qed.

Lemma validatePortfolioData_known_keys_witness :
  ∃ v, validatePortfolioData (λ _, true)
         (Some (hookData (Num 10) (Num 1) (Num 11) [None] (Num 0))) = Ret v ∧
       ¬ is_Some (v !! "tokens") ∧ ¬ is_Some (v !! "tokenBalances") ∧
       is_Some (v !! "totalValue").
Proof.
  destruct (validatePortfolioData (λ _, true)
              (Some (hookData (Num 10) (Num 1) (Num 11) [None] (Num 0))))
    as [v|msg] eqn:H.
  - exists v. split; [reflexivity|].
    pose proof (validatePortfolioData_known_keys _ _ _ H) as K.
    unfold numberKeys in K. cbn [app] in K. split_and!.
    + intros Hs. apply K in Hs as [[Hs _]|[Hs _]]; [|discriminate].
      rewrite !elem_of_cons, elem_of_nil in Hs.
      repeat (destruct Hs as [Hs|Hs]; [discriminate|]). done.
    + intros Hs. apply K in Hs as [[Hs _]|[_ [items Hs]]].
      * rewrite !elem_of_cons, elem_of_nil in Hs.
        repeat (destruct Hs as [Hs|Hs]; [discriminate|]). done.
      * vm_compute in Hs. discriminate.
    + apply K. left. split; [left|]. vm_compute. by eexists.
  - assert (match validatePortfolioData (λ _, true)
                    (Some (hookData (Num 10) (Num 1) (Num 11) [None] (Num 0)))
            with Ret _ => true | Throw _ => false end = true) as E
      by (vm_compute; reflexivity).
    rewrite H in E. discriminate.
Defined.

(** X17.  A portfolio whose 24-hour change is a negative number is
    rejected: [validatePortfolioData] throws instead of returning it. *)
Theorem validatePortfolioData_rejects_loss (publicKeyOk : jsstring → bool)
    (data : gmap string pvalue) (change : number) :
  data !! "totalChange24h" = Some (Plain (JNumber change)) →
  lt0 change = true →
  ∃ msg, validatePortfolioData publicKeyOk (Some data) = Throw msg.
Proof.
  intros Hd Hneg. unfold validatePortfolioData.
  destruct (validateKey data "totalValue" validateTokenAmount ∅) as [v1|msg];
    cbn [bind]; [|by eexists].
  unfold validateKey at 1. rewrite Hd. cbn [scalar validatePrice].
  destruct change as [q| | |]; cbn [isFinite negb bind]; try by eexists.
  rewrite Hneg. cbn [bind]. by eexists.
Qed.

Lemma validatePortfolioData_rejects_loss_witness :
  ∃ msg, validatePortfolioData (λ _, true)
           (Some (hookData (Num 100) (Num (-5)) (Num (-5)) [] (Num 0))) = Throw msg.
Proof.
  apply (validatePortfolioData_rejects_loss _ _ (Num (-5))); reflexivity.
Defined.

Lemma validateToken_Ret (publicKeyOk : jsstring → bool)
    (token : option rawToken) (t : tokenBalance) :
  validateToken publicKeyOk token = Ret t →
  isValidSolanaAddress publicKeyOk (units (mint t)) = true ∧
  safeAmount (balance t) ∧ safeAmount (uiAmount t) ∧ safeAmount (value t) ∧
  (∀ p, price t = Some p → positive p) ∧
  (∀ p, priceChange24h t = Some p → positive p).
Proof.
  destruct token as [token|]; [|done]. unfold validateToken. intros H.
  apply bind_Ret in H as (m & Hm & H).
  apply bind_Ret in H as (b & Hb & H).
  apply bind_Ret in H as (u & Hu & H).
  cbv zeta in H.
  apply bind_Ret in H as (p & Hp & H).
  apply bind_Ret in H as (c & Hc & H).
  apply bind_Ret in H as (x & Hx & [= <-]).
  cbn [mint balance uiAmount value price priceChange24h].
  apply validateTokenAmount_Ret in Hb as [_ Hb].
  apply validateTokenAmount_Ret in Hu as [_ Hu].
  split_and!; try done.
  - destruct (t_mint token) as [|s| | | |]; try done.
    unfold isValidTokenMint in Hm.
    destruct (isValidSolanaAddress publicKeyOk (units s)) eqn:E; by simplify_eq.
  - destruct (truthyValue (t_value token)).
    + by apply validateTokenAmount_Ret in Hx as [_ Hx].
    + simplify_eq. exists 0%Q. split; [done|]. cbn. unfold MAX_SAFE_INTEGER. lia.
  - intros p' ->. destruct (truthyValue (t_price token)) eqn:E; [|done].
    apply bind_Ret in Hp as (n & Hn & [= <-]). by eapply truthy_validatePrice.
  - intros p' ->. destruct (truthyValue (t_priceChange24h token)) eqn:E; [|done].
    apply bind_Ret in Hc as (n & Hn & [= <-]). by eapply truthy_validatePrice.
Qed.

Lemma mapTokens_Ret (publicKeyOk : jsstring → bool)
    (items : list (option rawToken)) (ts : list tokenBalance) :
  mapTokens publicKeyOk items = Ret ts →
  Forall2 (λ item t, validateToken publicKeyOk item = Ret t) items ts.
Proof.
  revert ts. induction items as [|item items IH]; intros ts; cbn [mapTokens].
  - intros [= <-]. constructor.
  - intros H. apply bind_Ret in H as (t & Ht & H).
    apply bind_Ret in H as (ts' & Hts & [= <-]). constructor; [done|by apply IH].
Qed.

(** X18.  When [validatePortfolioData] returns for an argument whose
    [tokenBalances] is an array, the result has one token per element,
    each with a mint that [isValidSolanaAddress] accepts, balance,
    uiAmount and value that are finite, non-negative and at most
    [MAX_SAFE_INTEGER], and a price and a 24-hour change that, when
    present, are finite and strictly positive. *)
Theorem validatePortfolioData_tokens_checked (publicKeyOk : jsstring → bool)
    (data : gmap string pvalue) (items : list (option rawToken))
    (v : gmap string validatedValue) :
  validatePortfolioData publicKeyOk (Some data) = Ret v →
  data !! "tokenBalances" = Some (PArray items) →
  ∃ ts, v !! "tokenBalances" = Some (VTokens ts) ∧
        length ts = length items ∧
        Forall (λ t, isValidSolanaAddress publicKeyOk (units (mint t)) = true ∧
                     safeAmount (balance t) ∧ safeAmount (uiAmount t) ∧
                     safeAmount (value t) ∧
                     (∀ p, price t = Some p → positive p) ∧
                     (∀ p, priceChange24h t = Some p → positive p)) ts.
Proof.
  unfold validatePortfolioData. intros H Hd.
  apply bind_Ret in H as (v1 & _ & H).
  apply bind_Ret in H as (v2 & _ & H).
  apply bind_Ret in H as (v3 & _ & H).
  apply bind_Ret in H as (v4 & _ & H).
  rewrite Hd in H. apply bind_Ret in H as (ts & Hts & [= <-]).
  exists ts. rewrite lookup_insert_eq. split; [done|].
  apply mapTokens_Ret in Hts. split.
  - symmetry. by eapply Forall2_length.
  - clear Hd. induction Hts as [|item t items ts Ht _ IH]; constructor; [|done].
    by eapply validateToken_Ret.
Qed.


Lemma validatePortfolioData_tokens_checked_witness :
  ∃ v ts, validatePortfolioData (λ _, true) (Some solPortfolio) = Ret v ∧
          v !! "tokenBalances" = Some (VTokens ts) ∧ length ts = 1%nat.
Proof.
  destruct (validatePortfolioData (λ _, true) (Some solPortfolio)) as [v|msg] eqn:H.
  - destruct (validatePortfolioData_tokens_checked _ _ [Some solBalance] _ H)
      as (ts & Hts & Hlen & _); [vm_compute; reflexivity|].
    exists v, ts. by split_and!.
  - assert (match validatePortfolioData (λ _, true) (Some solPortfolio)
            with Ret _ => true | Throw _ => false end = true) as E
      by (vm_compute; reflexivity).
    rewrite H in E. discriminate.
Defined.

End SanitizeProps.


(** ** The price cache, teardown and stale handles of PriceService *)

Module PriceServiceMore.
Import PriceService PriceServiceProps PriceSubscriptionProps.

Lemma subscribe_frame mint callback interval s :
  priceCache (snd (subscribe mint callback interval s)) = priceCache s ∧
  nextObject (snd (subscribe mint callback interval s)) = nextObject s + 1 ∧
  sub_object (fst (subscribe mint callback interval s)) = nextObject s.
Proof. unfold subscribe. by destruct (updateIntervals s !! mint). Qed.

Lemma unsubscribe_frame h s :
  priceCache (unsubscribe h s) = priceCache s ∧
  nextObject (unsubscribe h s) = nextObject s.
Proof.
  unfold unsubscribe.
  destruct (match indexOf h _ with Some i => _ | None => _ end) as [subs' registry].
  destruct (decide (length subs' = O)); [|done].
  by destruct (match updateIntervals s !! sub_mint h with
               | Some i => _ | None => _ end).
Qed.

Lemma getPythPrice_describes w m s e :
  fst (getPythPrice w m s) = Ret (Some e) → describes m e.
Proof.
  unfold getPythPrice.
  destruct (negb (pythClient s) || negb (isInitialized s)); [done|].
  unfold describes, symbolOf.
  destruct (TOKEN_PYTH_MAPPING m) as [[sym feed]|]; [|done]. cbn [fst].
  destruct (pythData w) as [data|]; [|done].
  destruct (data !! sym) as [pd|]; [|done].
  destruct (pyth_price pd) as [p|]; [|done].
  destruct (negb (truthy p)); [done|]. cbn [try_or_null].
  intros [= <-]. cbn. by split_and!.
Qed.

Lemma jupiterEntry_describes w m item : describes m (jupiterEntry w m item).
Proof. unfold describes, jupiterEntry. cbn. by split_and!. Qed.

Lemma getJupiterPrice_describes w m s e :
  fst (getJupiterPrice w m s) = Ret (Some e) → describes m e.
Proof.
  unfold getJupiterPrice. cbn [fst].
  destruct (jupiterResponse w [m]) as [|data]; [done|].
  destruct (Jupiter.lookup data m) as [item|]; [|done].
  intros [= <-]. apply jupiterEntry_describes.
Qed.

Lemma getPrice_frame w m s :
  nextObject (snd (getPrice w m s)) = nextObject s ∧
  (cache_inv s → cache_inv (snd (getPrice w m s))).
Proof.
  unfold getPrice. destruct (fresh _ _ _); [done|].
  pose proof (getPythPrice_describes w m s) as Hp.
  destruct (getPythPrice_spec w m s) as [_ Hs1].
  destruct (getPythPrice w m s) as [[[e|]|msg] s1]; cbn [fst snd] in *.
  - split; [by destruct Hs1 as [->| ->]|].
    intros Hc k e'. cbn [priceCache with_priceCache].
    destruct (decide (k = m)) as [->|Hne].
    + rewrite lookup_insert_eq. intros [= <-]. by apply Hp.
    + rewrite lookup_insert_ne by done. destruct Hs1 as [->| ->]; apply Hc.
  - pose proof (getJupiterPrice_describes w m s1) as Hj.
    destruct (getJupiterPrice_spec w m s1) as [_ Hs2].
    destruct (getJupiterPrice w m s1) as [[[e|]|msg] s2]; cbn [fst snd] in *;
      subst s2.
    + split; [by destruct Hs1 as [->| ->]|].
      intros Hc k e'. cbn [priceCache with_priceCache log].
      destruct (decide (k = m)) as [->|Hne].
      * rewrite lookup_insert_eq. intros [= <-]. by apply Hj.
      * rewrite lookup_insert_ne by done. destruct Hs1 as [->| ->]; apply Hc.
    + split; [by destruct Hs1 as [->| ->]|].
      intros Hc. by destruct Hs1 as [->| ->].
    + split; [by destruct Hs1 as [->| ->]|].
      intros Hc. by destruct Hs1 as [->| ->].
  - split; [by destruct Hs1 as [->| ->]|].
    intros Hc. by destruct Hs1 as [->| ->].
Qed.

(** What [getPrices] returns and what it leaves in the cache. *)
Lemma getPrices_lookup w mints s :
  let uncached := filter (λ m, fresh (now w) (cacheExpiry s) (priceCache s !! m) = None)
                         mints in
  let fetched m :=
    match jupiterResponse w uncached with
    | Jupiter.Failed => None
    | Jupiter.Json data =>
        if decide (m ∈ uncached)
        then jupiterEntry w m <$> Jupiter.lookup data m else None
    end in
  ∃ prices,
    fst (getPrices w mints s) = Ret prices ∧
    nextObject (snd (getPrices w mints s)) = nextObject s ∧
    ∀ m,
      prices !! m =
        match fetched m with
        | Some e => Some e
        | None => if decide (m ∈ mints)
                  then fresh (now w) (cacheExpiry s) (priceCache s !! m) else None
        end ∧
      priceCache (snd (getPrices w mints s)) !! m =
        match fetched m with
        | Some e => Some e
        | None => priceCache s !! m
        end.
Proof.
  cbv zeta. unfold getPrices.
  destruct (checkCache_spec (now w) (cacheExpiry s) (priceCache s) mints ∅ [])
    as [Hu Hp].
  destruct (checkCache _ _ _ mints ∅ []) as [prices uncached]. cbn [fst snd] in *.
  rewrite app_nil_l in Hu. rewrite <- Hu.
  assert (∀ m, prices !! m =
            if decide (m ∈ mints)
            then fresh (now w) (cacheExpiry s) (priceCache s !! m) else None) as Hp'.
  { intros m. rewrite Hp, lookup_empty.
    destruct (decide (m ∈ mints)); [by destruct (fresh _ _ _)|done]. }
  destruct uncached as [|u rest] eqn:Eu.
  { exists prices. split_and!; try done. intros m.
    assert (match jupiterResponse w [] with
            | Jupiter.Failed => None
            | Jupiter.Json data =>
                if decide (m ∈ @nil string)
                then jupiterEntry w m <$> Jupiter.lookup data m else None
            end = None) as ->.
    { destruct (jupiterResponse w []); [done|].
      rewrite decide_False; [done|]. apply not_elem_of_nil. }
    by rewrite Hp'. }
  rewrite <- Eu in *. clear Eu u rest. unfold getJupiterPrices.
  destruct (jupiterResponse w uncached) as [|data].
  - cbn [merge foldl fst snd]. exists prices.
    split_and!; try done; intros m; by rewrite Hp'.
  - destruct (collect_spec w data uncached []) as [Hnd Hget].
    specialize (Hnd (NoDup_nil_2)).
    pose proof (merge_spec (collect w data uncached []) prices (priceCache (log (JupiterFetch uncached) s)) Hnd) as Hm.
    destruct (merge _ _ _) as [prices' cache']. cbn [fst snd] in Hm.
    cbn [fst snd priceCache with_priceCache nextObject log].
    exists prices'. split_and!; try done. intros m.
    destruct (Hm m) as [-> ->]. rewrite Hget. cbn [OMap.get priceCache log].
    rewrite Hp'.
    destruct (decide (m ∈ uncached)); [|done].
    by destruct (Jupiter.lookup data m).
Qed.

Lemma getPrices_cache_inv w mints s :
  cache_inv s → cache_inv (snd (getPrices w mints s)).
Proof.
  intros Hc m e. destruct (getPrices_lookup w mints s) as (prices & _ & _ & H).
  destruct (H m) as [_ ->].
  destruct (jupiterResponse w _) as [|data]; [apply Hc|].
  destruct (decide _); [|apply Hc].
  destruct (Jupiter.lookup data m) as [item|]; cbn [fmap option_fmap option_map];
    [|apply Hc].
  intros [= <-]. apply jupiterEntry_describes.
Qed.

Lemma tick_frame w m s :
  nextObject (snd (tick w m s)) = nextObject s ∧
  (cache_inv s → cache_inv (snd (tick w m s))).
Proof.
  unfold tick. pose proof (getPrice_frame w m s) as H.
  by destruct (getPrice w m s) as [[[?|]|] s1].
Qed.

Lemma step_cache_inv a s : cache_inv s → cache_inv (step a s).
Proof.
  intros Hc. destruct a as [w m|w ms|m c i|h|w m|]; cbn [step].
  - by apply getPrice_frame.
  - by apply getPrices_cache_inv.
  - unfold cache_inv. by rewrite (proj1 (subscribe_frame m c i s)).
  - unfold cache_inv. by rewrite (proj1 (unsubscribe_frame h s)).
  - destruct (timersFor m s); [done|]. by apply tick_frame.
  - intros k e. unfold destroy. cbn [priceCache]. by rewrite lookup_empty.
Qed.

(** X19.  Every entry the price cache of a service ever holds was built
    for the key it is stored under: it names that mint and the symbol the
    service has for it, its source is Pyth or Jupiter, never [fallback],
    and its 24-hour change, volume and market cap are 0. *)
Theorem cache_entries_describe_their_key (s : t) (m : string) (e : PriceData) :
  reachable s →
  priceCache s !! m = Some e →
  mint e = m ∧ symbol e = symbolOf m ∧ src e ≠ fallback ∧
  priceChange24h e = Num 0 ∧ volume24h e = Num 0 ∧ marketCap e = Num 0.
Proof.
  intros (pythOk & actions & ->). revert m e.
  change (cache_inv (exec actions (new pythOk))).
  induction actions as [|a actions IH] using rev_ind.
  - intros m e. cbn. by rewrite lookup_empty.
  - unfold exec. rewrite foldl_snoc. by apply step_cache_inv.
Qed.

Lemma cache_entries_describe_their_key_witness :
  mint sol_quote = SOL ∧ symbol sol_quote = "SOL" ∧ src sol_quote ≠ fallback.
Proof.
  assert (reachable after_fallback) as Hr.
  { exists true, [GetPrice (pyth_down_jupiter_up 1000) SOL]. reflexivity. }
  assert (priceCache after_fallback !! SOL = Some sol_quote) as Hc
    by (vm_compute; reflexivity).
  destruct (cache_entries_describe_their_key _ _ _ Hr Hc) as (H1 & H2 & H3 & _).
  split_and!; [exact H1|exact H2|exact H3].
Defined.

(** X20.  [getPrices] always returns, and what it returns is in the cache
    when it does: every entry of the result belongs to a requested mint
    and is the entry the cache holds for that mint afterwards. *)
Theorem getPrices_result_is_cached (w : world) (mints : list string) (s : t) :
  ∃ prices,
    fst (getPrices w mints s) = Ret prices ∧
    ∀ m e, prices !! m = Some e →
           m ∈ mints ∧ priceCache (snd (getPrices w mints s)) !! m = Some e.
Proof.
  destruct (getPrices_lookup w mints s) as (prices & Hret & _ & H).
  exists prices. split; [done|]. intros m e. destruct (H m) as [-> ->].
  destruct (jupiterResponse w _) as [|data].
  - destruct (decide (m ∈ mints)); [|done]. intros Hf. split; [done|].
    by apply fresh_Some in Hf as [? _].
  - destruct (decide (m ∈ filter _ mints)) as [Hin|Hin].
    + apply list_elem_of_filter in Hin as [_ Hin].
      destruct (Jupiter.lookup data m) as [item|]; cbn [fmap option_fmap option_map].
      * by intros [= <-].
      * rewrite decide_True by done. intros Hf. split; [done|].
        by apply fresh_Some in Hf as [? _].
    + destruct (decide (m ∈ mints)); [|done]. intros Hf. split; [done|].
      by apply fresh_Some in Hf as [? _].
Qed.

(** *** Teardown *)

Lemma elem_of_foldr_clearInterval (l : list (string * Z)) (r : list (Z * string)) tm :
  tm ∈ foldr (λ entry acc, clearInterval (snd entry) acc) r l ↔
  tm ∈ r ∧ fst tm ∉ (snd <$> l).
Proof.
  induction l as [|x l IH]; cbn [foldr fmap list_fmap].
  - split; [|by intros [? _]]. intros H. split; [done|]. apply not_elem_of_nil.
  - unfold clearInterval at 1. rewrite list_elem_of_filter, IH, not_elem_of_cons.
    tauto.
Qed.

(** X21.  [destroy] on a service in any reachable state leaves no interval
    timer running and no subscriber, cache entry or timer record; it
    drops the Pyth client, so Pyth is not asked again, but
    [getCacheStats] goes on reporting [pythConnected] as before. *)
Theorem destroy_stops_all_timers (s : t) :
  reachable s →
  let s' := destroy s in
  running s' = [] ∧
  getCacheStats s' =
    {| cacheSize := O; activeSubscriptions := O; activeIntervals := O;
       pythConnected := isInitialized s |} ∧
  (∀ w m, getPythPrice w m s' = (Ret None, s')) ∧
  (∀ w m, step (Tick w m) s' = s').
Proof.
  intros Hr. apply reachable_inv in Hr as (_ & _ & _ & _ & I5 & _). cbv zeta.
  assert (running (destroy s) = []) as Hrun.
  { unfold destroy. cbn [running].
    destruct (foldr _ _ _) as [|[i m] rest] eqn:E; [done|].
    assert ((i, m) ∈ foldr (λ entry acc, clearInterval (snd entry) acc) (running s)
                        (map_to_list (updateIntervals s))) as Hin
      by (rewrite E; left).
    apply elem_of_foldr_clearInterval in Hin as [Hin Hout]. exfalso. apply Hout.
    assert (i ∈ timersFor m s) as Ht.
    { unfold timersFor. apply list_elem_of_fmap. exists (i, m). split; [done|].
      by apply list_elem_of_filter. }
    rewrite I5 in Ht. destruct (updateIntervals s !! m) as [i'|] eqn:Hu.
    - apply list_elem_of_singleton in Ht as ->.
      apply list_elem_of_fmap. exists (m, i'). split; [done|].
      by apply elem_of_map_to_list.
    - by apply elem_of_nil in Ht. }
  split_and!.
  - done.
  - unfold getCacheStats, destroy. cbn [priceCache subscriptions updateIntervals isInitialized].
    by rewrite !map_size_empty, map_to_list_empty.
  - intros w m. unfold getPythPrice, destroy. by cbn [pythClient negb orb].
  - intros w m. cbn [step]. unfold timersFor. by rewrite Hrun.
Qed.

Lemma destroy_stops_all_timers_witness :
  running (destroy two_then_one) = [] ∧ running two_then_one = [(1, SOL)] ∧
  pythConnected (getCacheStats (destroy two_then_one)) = true.
Proof.
  assert (reachable two_then_one) as Hr by (eexists _, _; reflexivity).
  destruct (destroy_stops_all_timers _ Hr) as (H1 & H2 & _).
  split_and!; [exact H1|vm_compute; reflexivity|].
  rewrite H2. vm_compute. reflexivity.
Defined.

(** *** Unsubscribe functions that are called again *)

Lemma getPrices_nextObject w mints s :
  nextObject (snd (getPrices w mints s)) = nextObject s.
Proof. by destruct (getPrices_lookup w mints s) as (? & _ & ? & _). Qed.

Lemma objects_inv_same s s' :
  subscriptions s' = subscriptions s → nextObject s' = nextObject s →
  objects_inv s → objects_inv s'.
Proof. unfold objects_inv. by intros -> ->. Qed.

Lemma remaining_objects h s (P : PriceSubscription → Prop) :
  NoDup (sub_object <$> subscribersOf (sub_mint h) s) →
  Forall P (subscribersOf (sub_mint h) s) →
  NoDup (sub_object <$> remaining h s) ∧ Forall P (remaining h s).
Proof.
  intros Hnd Hall. unfold remaining.
  destruct (indexOf _ _) as [index|]; [|done]. split.
  - rewrite list_fmap_delete. eapply sublist_NoDup; [exact Hnd|apply sublist_delete].
  - by apply Forall_delete.
Qed.

Lemma step_objects_inv a s : objects_inv s → objects_inv (step a s).
Proof.
  intros Ho. destruct a as [w m|w ms|m c i|h|w m|]; cbn [step].
  - apply (objects_inv_same s); [apply getPrice_same|apply getPrice_frame|done].
  - apply (objects_inv_same s); [apply getPrices_same|apply getPrices_nextObject|done].
  - intros k subs. rewrite subscribe_subscriptions.
    destruct (subscribe_frame m c i s) as (_ & -> & Hid).
    destruct (decide (k = m)) as [->|Hne].
    + intros [= <-]. unfold subscribersOf.
      assert (NoDup (sub_object <$> default [] (subscriptions s !! m)) ∧
              Forall (λ x, sub_object x < nextObject s)
                     (default [] (subscriptions s !! m))) as [Hnd Hall].
      { destruct (subscriptions s !! m) as [l|] eqn:E; [by apply (Ho m)|].
        split; constructor. }
      split.
      * rewrite fmap_app. apply NoDup_app. split_and!; [done| |apply NoDup_singleton].
        intros x Hx Hx'. cbn in Hx'. apply list_elem_of_singleton in Hx'. subst x.
        apply list_elem_of_fmap in Hx as (y & Hy & Hin).
        rewrite Forall_forall in Hall. apply Hall in Hin. lia.
      * apply Forall_app. split.
        -- eapply Forall_impl; [exact Hall|]. cbn. intros; lia.
        -- constructor; [lia|constructor].
    + intros Hs. destruct (Ho k subs Hs) as [? Hall]. split; [done|].
      eapply Forall_impl; [exact Hall|]. cbn. intros; lia.
  - intros k subs. rewrite unsubscribe_subscriptions.
    rewrite (proj2 (unsubscribe_frame h s)).
    destruct (decide (k = sub_mint h)) as [->|Hne]; [|apply Ho].
    destruct (remaining h s) as [|x l] eqn:E; [done|]. intros [= <-].
    rewrite <- E.
    assert (is_Some (subscriptions s !! sub_mint h)) as [l0 E0].
    { apply remaining_nonempty_registered. by rewrite E. }
    destruct (Ho _ _ E0) as [Hnd Hall].
    apply remaining_objects; unfold subscribersOf; by rewrite E0.
  - destruct (timersFor m s); [done|].
    apply (objects_inv_same s); [apply tick_same|apply tick_frame|done].
  - intros k subs. unfold destroy. cbn [subscriptions]. by rewrite lookup_empty.
Qed.

Lemma reachable_objects_inv s : reachable s → objects_inv s.
Proof.
  intros (pythOk & actions & ->).
  induction actions as [|a actions IH] using rev_ind.
  - intros m subs. cbn. by rewrite lookup_empty.
  - unfold exec. rewrite foldl_snoc. by apply step_objects_inv.
Qed.

Lemma indexOf_absent h (l : list PriceSubscription) :
  sub_object h ∉ (sub_object <$> l) → indexOf h l = None.
Proof.
  induction l as [|x l IH]; [done|]. cbn [indexOf fmap list_fmap].
  rewrite not_elem_of_cons. intros [Hne Hl].
  destruct (decide (sub_object x = sub_object h)); [congruence|].
  by rewrite IH.
Qed.

Lemma indexOf_delete h (l : list PriceSubscription) index :
  NoDup (sub_object <$> l) → indexOf h l = Some index →
  indexOf h (base.delete index l) = None.
Proof.
  revert index. induction l as [|x l IH]; intros index; [done|].
  cbn [indexOf fmap list_fmap]. rewrite NoDup_cons. intros [Hx Hnd].
  destruct (decide (sub_object x = sub_object h)) as [E|E].
  - intros [= <-]. change (base.delete O (x :: l)) with l.
    apply indexOf_absent. by rewrite <- E.
  - destruct (indexOf h l) as [j|] eqn:Hj; [|done].
    cbn [fmap option_fmap option_map]. intros [= <-].
    change (base.delete (S j) (x :: l)) with (x :: base.delete j l).
    cbn [indexOf]. rewrite decide_False by done. by rewrite (IH j).
Qed.

Lemma unsubscribe_absent h s :
  timer_inv s → indexOf h (subscribersOf (sub_mint h) s) = None →
  unsubscribe h s = s.
Proof.
  intros (I1 & I2 & _) Hidx. unfold unsubscribe, subscribersOf in *. rewrite Hidx.
  destruct (subscriptions s !! sub_mint h) as [subs|] eqn:Hs;
    cbn [from_option]; unfold id.
  - rewrite decide_False; [by destruct s|].
    specialize (I1 _ _ Hs). by destruct subs.
  - rewrite decide_True by done.
    assert (updateIntervals s !! sub_mint h = None) as ->.
    { destruct (updateIntervals s !! sub_mint h) eqn:Hu; [|done].
      assert (is_Some (subscriptions s !! sub_mint h)) as [? ?]
        by (apply I2; by eexists).
      congruence. }
    rewrite delete_id by done. by destruct s.
Qed.

(** X22.  An unsubscribe function may be called again: on a service in
    any reachable state the second call changes nothing, so it cannot
    remove another subscriber or stop a timer that is still needed. *)
Theorem unsubscribe_again_is_noop (h : PriceSubscription) (s : t) :
  reachable s →
  unsubscribe h (unsubscribe h s) = unsubscribe h s.
Proof.
  intros Hr. pose proof (reachable_inv _ Hr) as Hinv.
  pose proof (reachable_objects_inv _ Hr) as Hobj.
  apply unsubscribe_absent; [by apply unsubscribe_inv|].
  assert (subscribersOf (sub_mint h) (unsubscribe h s) = remaining h s) as ->.
  { unfold subscribersOf at 1. rewrite unsubscribe_subscriptions.
    rewrite decide_True by done. by destruct (remaining h s). }
  unfold remaining, subscribersOf.
  destruct (indexOf h (default [] (subscriptions s !! sub_mint h))) as [index|] eqn:E;
    [|done].
  apply indexOf_delete; [|done].
  destruct (subscriptions s !! sub_mint h) as [subs|] eqn:Hs; [|constructor].
  by apply (Hobj _ _ Hs).
Qed.

Lemma unsubscribe_again_is_noop_witness :
  unsubscribe {| sub_object := 0; sub_mint := SOL; sub_callback := 1;
                 sub_interval := 30000 |} two_then_one = two_then_one.
Proof.
  assert (reachable (exec [Subscribe SOL 1 30000; Subscribe SOL 2 30000] (new true)))
    as Hr by (eexists _, _; reflexivity).
  exact (unsubscribe_again_is_noop
           {| sub_object := 0; sub_mint := SOL; sub_callback := 1;
              sub_interval := 30000 |} _ Hr).
Defined.

End PriceServiceMore.


(** ** The token list of TokenService *)

Module TokenListProps.
Import TokenList.

Lemma get_Some_elem {V} k (v : V) (m : list (string * V)) :
  OMap.get k m = Some v → (k, v) ∈ m.
Proof.
  induction m as [|[k' v'] m IH]; cbn [OMap.get]; [done|].
  destruct (decide (k' = k)) as [->|Hne].
  - intros [= ->]. left.
  - intros H. right. by apply IH.
Qed.

Lemma get_None_keys {V} k (m : list (string * V)) :
  OMap.get k m = None → k ∉ OMap.keys m.
Proof.
  unfold OMap.keys. induction m as [|[k' v'] m IH]; cbn [OMap.get fmap list_fmap fst].
  - intros _. apply not_elem_of_nil.
  - destruct (decide (k' = k)) as [->|Hne]; [done|].
    intros H. apply not_elem_of_cons. split; [done|by apply IH].
Qed.

Lemma fetchTokenFromRegistry_Some registry m token :
  fetchTokenFromRegistry registry m = Some token →
  mint token = m ∧ popular token = false ∧ chainId token = 101.
Proof.
  unfold fetchTokenFromRegistry. destruct registry as [tokens|]; [|done].
  destruct (List.find _ tokens) as [r|] eqn:E; [|done].
  apply List.find_some in E as [_ E]. apply bool_decide_eq_true in E.
  intros [= <-]. by cbn.
Qed.

Lemma getTokenInfo_step registry m cache :
  keyed cache →
  keyed (snd (getTokenInfo registry m cache)) ∧
  getPopularTokens (snd (getTokenInfo registry m cache)) = getPopularTokens cache.
Proof.
  intros Hk. unfold getTokenInfo.
  destruct (OMap.get m cache) as [token|] eqn:Hget; [done|].
  destruct (fetchTokenFromRegistry registry m) as [token|] eqn:Hf; [|done].
  apply fetchTokenFromRegistry_Some in Hf as (Hm & Hp & Hc). cbn [snd]. split.
  - by apply WebSocketServiceMore.set_Forall.
  - apply get_None_keys in Hget.
    rewrite WebSocketServiceMore.set_fresh by done.
    unfold getPopularTokens, OMap.values.
    rewrite fmap_app, filter_app. cbn [fmap list_fmap snd].
    rewrite filter_cons_False by (rewrite Hp; done).
    by rewrite filter_nil, app_nil_r.
Qed.

Lemma keyed_new : keyed new.
Proof. unfold keyed. vm_compute. repeat constructor. Qed.

Lemma reachable_keyed cache :
  reachable cache →
  keyed cache ∧ getPopularTokens cache = getPopularTokens new.
Proof.
  intros [calls ->]. induction calls as [|[registry m] calls IH] using rev_ind.
  - split; [apply keyed_new|done].
  - unfold exec in *. rewrite foldl_snoc. cbn [fst snd]. destruct IH as [Hk Hp].
    destruct (getTokenInfo_step registry m _ Hk) as [Hk' Hp'].
    split; [done|]. by rewrite Hp'.
Qed.

(** X23.  Whatever [getTokenInfo] has fetched from the registry,
    [getPopularTokens] returns the seven built-in popular tokens and
    [getDLMMTokenPairs] the same ten pairs, each of a base token SOL or
    USDC with a different popular token: a token that comes from the
    registry is never popular. *)
Theorem popular_tokens_never_change (cache : t) :
  reachable cache →
  getPopularTokens cache = filter (λ token, popular token = true) popularTokens ∧
  getDLMMTokenPairs cache = getDLMMTokenPairs new ∧
  length (getDLMMTokenPairs cache) = 10%nat ∧
  Forall wellFormedPair (getDLMMTokenPairs cache).
Proof.
  intros Hr. apply reachable_keyed in Hr as [_ Hp].
  assert (getDLMMTokenPairs cache = getDLMMTokenPairs new) as Hpairs
    by (unfold getDLMMTokenPairs; by rewrite Hp).
  rewrite Hpairs, Hp. split_and!; [vm_compute; reflexivity|done|vm_compute; reflexivity|].
  unfold wellFormedPair.
  let v := eval vm_compute in (getDLMMTokenPairs new) in
  change (getDLMMTokenPairs new) with v.
  repeat (constructor; [eexists; cbn [fst snd symbol mint popular];
                        split_and!; [reflexivity|set_solver|discriminate|done|done]|]).
  constructor.
Qed.

Lemma popular_tokens_never_change_witness :
  length (getPopularTokens (exec [(bonkRegistry, BONK)] new)) = 7%nat ∧
  length (exec [(bonkRegistry, BONK)] new) = 11%nat.
Proof.
  assert (reachable (exec [(bonkRegistry, BONK)] new)) as Hr by (by eexists).
  destruct (popular_tokens_never_change _ Hr) as (-> & _).
  split; vm_compute; reflexivity.
Defined.

(** X24.  A token that [getTokenInfo] returns is the token of the mint
    that was asked for, on chain 101, and it is the answer to every later
    request for that mint, whatever the registry says then; a built-in
    mint is answered from the list, so a registry entry that claims such
    a mint is never used. *)
Theorem getTokenInfo_answers_for_mint
    (cache : t) (registry later : option (list RegistryToken))
    (m : string) (token : SolanaToken) :
  reachable cache →
  fst (getTokenInfo registry m cache) = Some token →
  mint token = m ∧ chainId token = 101 ∧
  getTokenInfo later m (snd (getTokenInfo registry m cache))
    = (Some token, snd (getTokenInfo registry m cache)) ∧
  (∀ b, b ∈ popularTokens → mint b = m → token = b).
Proof.
  intros Hr Hfst. pose proof (reachable_keyed _ Hr) as [Hk _].
  destruct (getTokenInfo_step registry m cache Hk) as [Hk' _].
  assert (OMap.get m (snd (getTokenInfo registry m cache)) = Some token) as Hget.
  { revert Hfst. unfold getTokenInfo.
    destruct (OMap.get m cache) as [token'|] eqn:E; cbn [fst snd].
    - by intros [= <-].
    - destruct (fetchTokenFromRegistry registry m) as [token'|]; cbn [fst snd]; [|done].
      intros [= <-]. apply OMapProps.get_set_eq. }
  split_and!.
  - apply get_Some_elem in Hget. unfold keyed in Hk'.
    rewrite Forall_forall in Hk'. by apply (Hk' _ Hget).
  - apply get_Some_elem in Hget. unfold keyed in Hk'.
    rewrite Forall_forall in Hk'. by apply (Hk' _ Hget).
  - unfold getTokenInfo at 1. by rewrite Hget.
  - intros b Hb Hm.
    assert (OMap.get m cache = Some b) as Hb'.
    { destruct Hr as [calls ->]. clear Hfst Hget Hk Hk'.
      induction calls as [|[registry' m'] calls IH] using rev_ind.
      - subst m. revert b Hb. unfold popularTokens.
        apply Forall_forall. repeat (constructor; [vm_compute; reflexivity|]).
        constructor.
      - unfold exec. rewrite foldl_snoc. cbn [fst snd]. unfold getTokenInfo.
        destruct (OMap.get m' _) as [token'|] eqn:E; cbn [snd]; [done|].
        destruct (fetchTokenFromRegistry registry' m'); cbn [snd]; [|done].
        rewrite OMapProps.get_set_ne; [done|]. intros ->.
        unfold exec, getTokenInfo in IH. congruence. }
    revert Hfst. unfold getTokenInfo. rewrite Hb'. cbn [fst]. by intros [= <-].
Qed.

Lemma getTokenInfo_answers_for_mint_witness :
  symbol <$> fst (getTokenInfo bonkRegistry "So11111111111111111111111111111111111111112" new)
    = Some "SOL".
Proof.
  assert (reachable new) as Hr by (by exists []).
  destruct (fst (getTokenInfo bonkRegistry
                   "So11111111111111111111111111111111111111112" new))
    as [token|] eqn:E.
  - destruct (getTokenInfo_answers_for_mint new bonkRegistry None _ token Hr E)
      as (_ & _ & _ & Hb).
    rewrite (Hb (builtin "So11111111111111111111111111111111111111112" "SOL" "Solana" 9 true));
      [reflexivity|left|reflexivity].
  - vm_compute in E. discriminate.
Defined.

End TokenListProps.


(** ** The price cache of TokenService *)

Module TokenPricesProps.
Import TokenService ListFacts TokenServiceProps.

Lemma token_checkCache_spec now expiry cache mints : ∀ prices,
  snd (checkCache now expiry cache mints prices)
    = filter (λ m, fresh now expiry (cache !! m) = None) mints ∧
  ∀ m, fst (checkCache now expiry cache mints prices) !! m =
         match (if decide (m ∈ mints) then fresh now expiry (cache !! m) else None) with
         | Some c => Some c
         | None => prices !! m
         end.
Proof.
  induction mints as [|mint rest IH]; intros prices; cbn [checkCache].
  - split; [done|]. intros m. by rewrite if_elem_of_nil.
  - rewrite filter_cons.
    destruct (fresh now expiry (cache !! mint)) as [c|] eqn:Hf.
    + destruct (IH (<[mint := c]> prices)) as [IH1 IH2].
      rewrite decide_False by done. split; [exact IH1|].
      intros m. rewrite IH2. head_or_tail m mint rest.
      * rewrite Hf. destruct (decide (mint ∈ rest)); [done|]. apply lookup_insert_eq.
      * by rewrite lookup_insert_ne.
    + destruct (IH prices) as [IH1 IH2].
      destruct (checkCache now expiry cache rest prices) as [prices' uncached].
      cbn [fst snd] in *. rewrite decide_True by done. split; [by rewrite IH1|].
      intros m. rewrite IH2. head_or_tail m mint rest; [|done].
      rewrite Hf. by destruct (decide (mint ∈ rest)).
Qed.

Lemma store_lookup w data uncached : ∀ prices cache m,
  fst (store w data uncached prices cache) !! m =
    match (if decide (m ∈ uncached) then Jupiter.lookup data m else None) with
    | Some item => Some (tokenPrice w m item)
    | None => prices !! m
    end ∧
  snd (store w data uncached prices cache) !! m =
    match (if decide (m ∈ uncached) then Jupiter.lookup data m else None) with
    | Some item => Some (tokenPrice w m item)
    | None => cache !! m
    end.
Proof.
  induction uncached as [|mint rest IH]; intros prices cache m; cbn [store].
  - by rewrite !if_elem_of_nil.
  - destruct (Jupiter.lookup data mint) as [item|] eqn:Hl.
    + destruct (IH (<[mint := tokenPrice w mint item]> prices)
                   (<[mint := tokenPrice w mint item]> cache) m) as [-> ->].
      head_or_tail m mint rest.
      * rewrite Hl. destruct (decide (mint ∈ rest)); [done|].
        by rewrite !lookup_insert_eq.
      * by rewrite !lookup_insert_ne.
    + destruct (IH prices cache m) as [-> ->].
      head_or_tail m mint rest; [|done].
      rewrite Hl. by destruct (decide (mint ∈ rest)).
Qed.

(** X25.  [getTokenPrices] always returns a map, on the fetch path and on
    the error path alike; every entry of it belongs to a requested mint
    and is the entry the cache holds for that mint afterwards; and the
    call never drops a mint from the cache. *)
Theorem getTokenPrices_result_is_cached (w : world) (mints : list string) (s : t) :
  ∃ prices,
    fst (getTokenPrices w mints s) = Ret prices ∧
    (∀ m e, prices !! m = Some e →
            m ∈ mints ∧ priceCache (snd (getTokenPrices w mints s)) !! m = Some e) ∧
    (∀ m, is_Some (priceCache s !! m) →
          is_Some (priceCache (snd (getTokenPrices w mints s)) !! m)) ∧
    cacheExpiry (snd (getTokenPrices w mints s)) = cacheExpiry s.
Proof.
  unfold getTokenPrices, tryBlock.
  destruct (token_checkCache_spec (now w) (cacheExpiry s) (priceCache s) mints ∅)
    as [Hu Hp].
  destruct (checkCache _ _ _ mints ∅) as [prices uncached]. cbn [fst snd] in *.
  assert (∀ m e, prices !! m = Some e → m ∈ mints ∧ priceCache s !! m = Some e)
    as Hfresh.
  { intros m e. rewrite Hp, lookup_empty.
    destruct (decide (m ∈ mints)); [|done].
    destruct (fresh _ _ _) as [c|] eqn:Hf; [|done]. intros [= ->].
    by apply token_fresh_Some in Hf as [? _]. }
  destruct uncached as [|u rest] eqn:Eu.
  { exists prices. cbn [fst snd]. by split_and!. }
  rewrite <- Eu in *. destruct (fetchJSON w uncached) as [|data].
  - eexists. cbn [fst snd]. split_and!; try done.
    intros m e. rewrite cachedPrices_lookup, lookup_empty.
    destruct (decide (m ∈ mints)); [|done].
    destruct (fresh _ _ _) as [c|] eqn:Hf; [|done]. intros [= ->].
    by apply token_fresh_Some in Hf as [? _].
  - pose proof (store_lookup w data uncached prices (priceCache s)) as Hs.
    destruct (store _ _ _ _ _) as [prices' cache']. cbn [fst snd] in *.
    exists prices'. cbn [priceCache cacheExpiry]. split_and!; try done.
    + intros m e. destruct (Hs m) as [-> ->].
      destruct (decide (m ∈ uncached)) as [Hin|Hin].
      * assert (m ∈ mints) as Hm.
        { rewrite Hu in Hin. by apply list_elem_of_filter in Hin as [_ ?]. }
        destruct (Jupiter.lookup data m); [by intros [= <-]|].
        intros H. by apply Hfresh in H as [_ ?].
      * intros H. by apply Hfresh in H.
    + intros m Hm. destruct (Hs m) as [_ ->].
      destruct (decide (m ∈ uncached)); [|done].
      destruct (Jupiter.lookup data m); [by eexists|done].
Qed.

End TokenPricesProps.
